(** * Heap2Local and Outlining: a shallow embedding of two binaryen passes

    The development follows [src/passes/Heap2Local.cpp] and
    [src/passes/Outlining.cpp].  Expressions live in an arena and are
    named by their address, as the passes compare and hash expression
    pointers; maps and sets keyed by expressions are finite maps and sets
    over those addresses.  A rewrite walk is modelled one visit at a
    time: the state holds the slot of the expression being visited, and
    replacing the current expression stores the replacement there.

    The first part holds the definitions, the second sample programs, the
    third the properties. *)

From Stdlib Require Import ZArith Lia.
From stdpp Require Import gmap strings list.

Open Scope Z_scope.

(** ** Machine integers *)

(** [Index] and [uint32_t] values are kept as [Z] with the wrap-around of
    32-bit unsigned arithmetic written out. *)
Definition wrap32 (z : Z) : Z := z mod 2 ^ 32.

Definition wrap64 (z : Z) : Z := z mod 2 ^ 64.

(** [v[i]] on a vector, for an unsigned index; there is nothing to read
    past the end. *)
Definition vectorAtZ {A} (l : list A) (i : Z) : option A :=
  if decide (0 <= i) then l !! Z.to_nat i else None.

(** ** The IR data model *)

Module Wasm.

Definition Name := string.

(** An expression pointer; [option Expr] is a pointer that may be null. *)
Definition Expr := positive.

Definition HeapType := positive.

Bind Scope positive_scope with Expr HeapType.

Inductive Nullability := NonNullable | Nullable.

Inductive WType :=
| Tnone
| Tunreachable
| Ti32
| Ti64
| Tf32
| Tf64
| Tv128
| Tref (ht : HeapType) (nl : Nullability).

Global Instance Nullability_eq_dec : EqDecision Nullability.
Proof. solve_decision. Defined.

Global Instance WType_eq_dec : EqDecision WType.
Proof. solve_decision. Defined.

Definition isRef (t : WType) : bool :=
  match t with Tref _ _ => true | _ => false end.

Definition isNullable (t : WType) : bool :=
  match t with Tref _ Nullable => true | _ => false end.

(** [Type::isConcrete]: neither [none] nor [unreachable]. *)
Definition isConcrete (t : WType) : bool :=
  match t with Tnone | Tunreachable => false | _ => true end.

(** [Type::getHeapType]; the source only calls it on reference types. *)
Definition getHeapType (t : WType) : option HeapType :=
  match t with Tref ht _ => Some ht | _ => None end.

Record Field := { ftype : WType; fpacked : bool; fmutable : bool }.

(** A literal constant.  Only the integer literals have an unsigned
    reading. *)
Inductive Literal :=
| LitI32 (i32 : Z)
| LitI64 (i64 : Z)
| LitZero (t : WType).

(** Modelled from the spec: [Literal::getUnsigned], which literal.h
    defines outside the two passes: the unsigned reading of a literal
    constant.
    It aborts on anything but an i32 or an i64, which is [None] here. *)
Definition getUnsigned (l : Literal) : option Z :=
  match l with
  | LitI32 z => Some (wrap32 z)
  | LitI64 z => Some (wrap64 z)
  | LitZero _ => None
  end.

Global Instance Literal_eq_dec : EqDecision Literal.
Proof. solve_decision. Defined.

Definition literalType (l : Literal) : WType :=
  match l with
  | LitI32 _ => Ti32
  | LitI64 _ => Ti64
  | LitZero t => t
  end.

Inductive RefAsOp := RefAsNonNull | AnyConvertExtern | ExternConvertAny.

Inductive AtomicRMWOp := RMWAdd | RMWSub | RMWAnd | RMWOr | RMWXor | RMWXchg.

(** The expression classes the two passes look at.  [Other] stands for
    every remaining class (binary, select, return, ...), none of which
    has a case of its own in the code modelled here. *)
Inductive ExprKind :=
| Block (name : Name) (list : list Expr)
| If (condition ifTrue : Expr) (ifFalse : option Expr)
| Loop (name : Name) (body : Expr)
| Break (name : Name) (value condition : option Expr)
| Switch (targets : list Name) (default : Name) (value : option Expr)
         (condition : Expr)
| Call (target : Name) (operands : list Expr)
| LocalGet (index : Z)
| LocalSet (index : Z) (value : Expr)
| Const (value : Literal)
| Drop (value : Expr)
| Unreachable
| Nop
| Pop
| RefNull
| RefIsNull (value : Expr)
| RefEq (left right : Expr)
| RefAs (op : RefAsOp) (value : Expr)
| RefTest (ref : Expr) (castType : WType)
| RefCast (ref : Expr) (desc : option Expr)
| RefGetDesc (ref : Expr)
| StructNew (operands : list Expr) (desc : option Expr)
| StructGet (index : Z) (ref : Expr) (signed : bool)
| StructSet (index : Z) (ref value : Expr)
| StructRMW (op : AtomicRMWOp) (index : Z) (ref value : Expr)
| StructCmpxchg (index : Z) (ref expected replacement : Expr)
| ArrayNew (init : option Expr) (size : Expr)
| ArrayNewFixed (values : list Expr)
| ArrayGet (ref index : Expr) (signed : bool)
| ArraySet (ref index value : Expr)
| ArrayRMW (op : AtomicRMWOp) (ref index value : Expr)
| ArrayCmpxchg (ref index expected replacement : Expr)
| Other (children : list Expr).

(** Every expression carries its result type. *)
Record Expression := { kind : ExprKind; type : WType }.

Global Instance Expression_inhabited : Inhabited Expression :=
  populate {| kind := Nop; type := Tnone |}.

(** The expression heap. *)
Abbreviation Arena := (gmap Expr Expression).

(** Dereferencing an expression pointer. *)
Definition deref (a : Arena) (e : Expr) : Expression := a !!! e.

Definition typeOf (a : Arena) (e : Expr) : WType := type (deref a e).

Definition kindOf (a : Arena) (e : Expr) : ExprKind := kind (deref a e).

(** [curr->is<Const>()] and [curr->dynCast<Const>()]. *)
Definition asConst (a : Arena) (e : Expr) : option Literal :=
  match kindOf a e with Const l => Some l | _ => None end.

End Wasm.

Export Wasm.

(** ** Outlining *)

Module Outlining.

Record OutliningSequence := {
  startIdx : Z;
  endIdx : Z;
  func : Name;
  endsTypeUnreachable : bool
}.

Inductive ReconstructState := NotInSeq | InSeq | InSkipSeq.

Global Instance ReconstructState_eq_dec : EqDecision ReconstructState.
Proof. solve_decision. Defined.

(** The two IR builders of the reconstruction walker. *)
Inductive BuilderId := existingBuilder | outlinedBuilder.

(** The IRBuilder entry points the walker calls. *)
Inductive BuilderCall :=
| visitFunctionStart (f : Name)
| makeCall (f : Name) (isReturn : bool)
| makeUnreachable
| makeLocalGet (i : Z)
| visitBreakWithType (e : Expr) (t : WType)
| visitSwitchWithType (e : Expr) (t : WType)
| visit (e : Expr)
| visitEnd
| build.

Global Instance BuilderId_eq_dec : EqDecision BuilderId.
Proof. solve_decision. Defined.

Global Instance BuilderCall_eq_dec : EqDecision BuilderCall.
Proof. solve_decision. Defined.

(** The walker, together with the part of the module it reads and
    writes.  [calls] is the sequence of IRBuilder calls made so far, in
    order; [paramCount] gives the number of parameters of a function's
    signature; [withBody] is the set of functions whose body is set;
    [outlinedFunc] is the function the outlined builder is building. *)
Record Walker := {
  state : ReconstructState;
  sequences : list OutliningSequence;
  seqCounter : Z;
  instrCounter : Z;
  calls : list (BuilderId * BuilderCall);
  paramCount : Name -> Z;
  withBody : gset Name;
  outlinedFunc : option Name
}.

Definition setState (s : ReconstructState) (w : Walker) : Walker :=
  {| state := s; sequences := sequences w; seqCounter := seqCounter w;
     instrCounter := instrCounter w; calls := calls w;
     paramCount := paramCount w; withBody := withBody w;
     outlinedFunc := outlinedFunc w |}.

Definition setSeqCounter (n : Z) (w : Walker) : Walker :=
  {| state := state w; sequences := sequences w; seqCounter := n;
     instrCounter := instrCounter w; calls := calls w;
     paramCount := paramCount w; withBody := withBody w;
     outlinedFunc := outlinedFunc w |}.

Definition setInstrCounter (n : Z) (w : Walker) : Walker :=
  {| state := state w; sequences := sequences w; seqCounter := seqCounter w;
     instrCounter := n; calls := calls w;
     paramCount := paramCount w; withBody := withBody w;
     outlinedFunc := outlinedFunc w |}.

(** Modelled from the spec: the IRBuilder, which wasm-ir-builder.h
    defines outside the pass.  A call is appended to the record of calls.
    On the outlined builder, [visitFunctionStart] selects the callee
    being built, and the [visitEnd] that closes it gives the callee its
    body: an outlined range holds no scope separator, so that [visitEnd]
    always closes the function scope. *)
Definition emit (b : BuilderId) (c : BuilderCall) (w : Walker) : Walker :=
  let body' :=
    match b, c, outlinedFunc w with
    | outlinedBuilder, visitEnd, Some f => {[ f ]} ∪ withBody w
    | _, _, _ => withBody w
    end in
  let func' :=
    match b, c with
    | outlinedBuilder, visitFunctionStart f => Some f
    | outlinedBuilder, visitEnd => None
    | _, _ => outlinedFunc w
    end in
  {| state := state w; sequences := sequences w; seqCounter := seqCounter w;
     instrCounter := instrCounter w; calls := calls w ++ [(b, c)];
     paramCount := paramCount w; withBody := body';
     outlinedFunc := func' |}.

(** [sequences[seqCounter]]; reading past the end is [None]. *)
Definition currentSeq (w : Walker) : option OutliningSequence :=
  if decide (0 <= seqCounter w) then sequences w !! Z.to_nat (seqCounter w)
  else None.

Definition getCurrState (w : Walker) : ReconstructState :=
  match currentSeq w with
  | Some seq =>
      if decide (startIdx seq <= instrCounter w /\ instrCounter w < endIdx seq)
      then (if decide (func seq ∈ withBody w) then InSkipSeq else InSeq)
      else NotInSeq
  | None => NotInSeq
  end.

Definition emitUnreachableIf (b : bool) (w : Walker) : Walker :=
  if b then emit existingBuilder makeUnreachable w else w.

Fixpoint emitLocalGets (n : nat) (i : Z) (w : Walker) : Walker :=
  match n with
  | O => w
  | S n' =>
      emitLocalGets n' (wrap32 (i + 1))
        (emit outlinedBuilder (makeLocalGet i) w)
  end.

Definition transitionToInSeq (w : Walker) : option Walker :=
  seq ← currentSeq w;
  let w := emit outlinedBuilder (visitFunctionStart (func seq)) w in
  let w := emit existingBuilder (makeCall (func seq) false) w in
  let w := emitUnreachableIf (endsTypeUnreachable seq) w in
  Some (emitLocalGets (Z.to_nat (paramCount w (func seq))) 0 w).

Definition transitionToInSkipSeq (w : Walker) : option Walker :=
  seq ← currentSeq w;
  let w := emit existingBuilder (makeCall (func seq) false) w in
  Some (emitUnreachableIf (endsTypeUnreachable seq) w).

Definition maybeBeginSeq (w : Walker) : option Walker :=
  let w := setInstrCounter (wrap32 (instrCounter w + 1)) w in
  let currState := getCurrState w in
  w' ← (if decide (currState = state w) then Some w
        else match currState with
             | NotInSeq => Some w
             | InSeq => transitionToInSeq w
             | InSkipSeq => transitionToInSkipSeq w
             end);
  Some (setState currState w').

Definition transitionToNotInSeq (w : Walker) : Walker :=
  let w := if decide (state w = InSeq)
           then emit outlinedBuilder visitEnd w else w in
  setSeqCounter (wrap32 (seqCounter w + 1)) w.

Definition maybeEndSeq (w : Walker) : option Walker :=
  seq ← currentSeq w;
  if decide (wrap32 (instrCounter w + 1) = endIdx seq)
  then Some (setState NotInSeq (transitionToNotInSeq w))
  else Some w.

(** [visitExpression]; the expression is given with what the walker reads
    of it: whether it is a break or a switch, and the type of the value
    it sends. *)
Inductive Visited :=
| VBreak (e : Expr) (t : WType)
| VSwitch (e : Expr) (t : WType)
| VPlain (e : Expr).

Definition visitCall (v : Visited) : BuilderCall :=
  match v with
  | VBreak e t => visitBreakWithType e t
  | VSwitch e t => visitSwitchWithType e t
  | VPlain e => visit e
  end.

Definition visitExpression (v : Visited) (w : Walker) : option Walker :=
  w ← maybeBeginSeq w;
  let w := match state w with
           | InSeq => emit outlinedBuilder (visitCall v) w
           | NotInSeq => emit existingBuilder (visitCall v) w
           | InSkipSeq => w
           end in
  match state w with
  | InSeq | InSkipSeq => maybeEndSeq w
  | NotInSeq => Some w
  end.

(** *** The function list *)

(** [module->functions] is a vector of owning pointers; an entry that has
    been moved from is null, [None] here. *)
Definition moveRange {A} (l : list (option A)) (from : nat)
  : list (option A) * list (option A) :=
  (drop from l, take from l ++ replicate (length l - from) None).

(** [vector::resize]: shrink, or grow with null entries. *)
Definition resize {A} (n : nat) (l : list (option A)) : list (option A) :=
  take n l ++ replicate (n - length l) None.

(** [moveOutlinedFunctions].  Stepping [end()] back by more than the
    size of the vector is undefined, [None] here.  The closing
    [updateFunctionsMap] rebuilds the name index from the vector and
    leaves the vector alone. *)
Definition moveOutlinedFunctions {A} (functions : list (option A))
    (outlinedCount : Z) : option (list (option A)) :=
  let count := length functions in
  if decide (0 <= outlinedCount <= Z.of_nat count) then
    let '(temp, functions) :=
      moveRange functions (count - Z.to_nat outlinedCount) in
    let functions := temp ++ functions in
    Some (resize count functions)
  else None.

(** *** Walking a function *)

(** [startExistingFunction]: the existing builder starts on the function
    and the walker starts over. *)
Definition startExistingFunction (f : Name) (w : Walker) : Walker :=
  let w := emit existingBuilder build w in
  let w := emit existingBuilder (visitFunctionStart f) w in
  let w := setInstrCounter 0 w in
  let w := setSeqCounter 0 w in
  setState NotInSeq w.

(** The expressions of one scope, which the walker visits one after the
    other. *)
Fixpoint visitExpressions (vs : list Visited) (w : Walker) : option Walker :=
  match vs with
  | [] => Some w
  | v :: vs =>
      match visitExpression v w with
      | Some w => visitExpressions vs w
      | None => None
      end
  end.

(** *** The candidate pipeline of [Outlining::run] *)

(** A repeated substring of the hash string. *)
Record RepeatedSubstring := { Length : Z; StartIndices : list Z }.

Abbreviation Substrings := (list RepeatedSubstring).

(** The entry points of [StringifyProcessor] (stringify-walker.h), which
    the pass calls and does not define. *)
Class StringifyProcessor := {
  repeatSubstrings : list Z -> Substrings;
  dedupe : Substrings -> Substrings;
  filterOverlaps : Substrings -> Substrings;
  filterBranches : Substrings -> list (option Expr) -> Substrings;
  filterLocalSets : Substrings -> list (option Expr) -> Substrings;
  filterLocalGets : Substrings -> list (option Expr) -> Substrings
}.

Inductive Stage :=
| RepeatSubstrings
| Dedupe
| FilterOverlaps
| FilterBranches
| FilterLocalSets
| FilterLocalGets.

(** One call into the processor: the stage, what it was given (nothing
    for the first stage, which reads the hash string) and what it
    returned. *)
Record StageCall := {
  stage : Stage;
  given : option Substrings;
  returned : Substrings
}.

(** Statements of [run] are sequenced in a writer of processor calls. *)
Definition Logged (A : Type) : Type := A * list StageCall.

Definition lret {A} (a : A) : Logged A := (a, []).

Definition lbind {A B} (m : Logged A) (k : A -> Logged B) : Logged B :=
  let '(a, l1) := m in let '(b, l2) := k a in (b, l1 ++ l2).

Definition call (s : Stage) (arg : option Substrings) (res : Substrings)
  : Logged Substrings :=
  (res, [ {| stage := s; given := arg; returned := res |} ]).

Section Run.
Context `{StringifyProcessor}.

(** The first part of [Outlining::run]: from the stringified module to
    the substrings that are outlined. *)
Definition runSubstrings (hashString : list Z) (exprs : list (option Expr))
  : Logged Substrings :=
  lbind (call RepeatSubstrings None (repeatSubstrings hashString))
    (fun substrings =>
  lbind (call Dedupe (Some substrings) (dedupe substrings))
    (fun substrings =>
  lbind (call FilterOverlaps (Some substrings) (filterOverlaps substrings))
    (fun substrings =>
  lbind (call FilterBranches (Some substrings)
           (filterBranches substrings exprs))
    (fun substrings =>
  lbind (call FilterLocalSets (Some substrings)
           (filterLocalSets substrings exprs))
    (fun substrings =>
  lbind (call FilterLocalGets (Some substrings)
           (filterLocalGets substrings exprs))
    (fun substrings => lret substrings)))))).
End Run.

(** *** From substrings to sequences *)

Section Sequences.

(** Stack signatures, which ir/stack-utils.h defines outside the pass:
    the signature of one expression, the signature of nothing, and the
    composition of two signatures. *)
Variable StackSignature : Type.
Variable signatureOf : Expr -> StackSignature.
Variable emptySignature : StackSignature.
Variable composeSignature : StackSignature -> StackSignature -> StackSignature.

(** [Names::getValidFunctionName (module, "outline$")], given the names
    in use. *)
Variable getValidFunctionName : list Name -> Name.

(** [HashStringifyWalker::makeRelative]: the index within its function
    and the function of an index into the program. *)
Variable makeRelative : Z -> Z * Name.

Variable a : Arena.

(** A function of the module: its name, its signature and its body, null
    as long as it has none. *)
Record Function := {
  name : Name;
  signature : StackSignature;
  body : option Expr
}.

(** [module->functions]; the entries are owning pointers. *)
Definition Functions : Type := list (option Function).

Definition functionNames (functions : Functions) : list Name :=
  omap (fun f => name <$> f) functions.

(** [Module::addFunction]. *)
Definition addFunction (f : Function) (functions : Functions) : Functions :=
  functions ++ [Some f].

(** The expressions at the [n] positions from [start]; reading past the
    end of the vector, or through a null entry, is undefined. *)
Definition exprsInRange (exprs : list (option Expr)) (start n : Z)
  : option (list Expr) :=
  mapM (fun i => mjoin (vectorAtZ exprs i)) (seqZ start n).

Definition addOutlinedFunction (functions : Functions)
    (substring : RepeatedSubstring) (exprs : list (option Expr))
  : option (Name * Functions) :=
  startIdx ← head (StartIndices substring);
  let func := getValidFunctionName (functionNames functions) in
  range ← exprsInRange exprs startIdx
            (wrap32 (startIdx + Length substring) - startIdx);
  let sig := foldl (fun sig e => composeSignature sig (signatureOf e))
                   emptySignature range in
  Some (func,
        addFunction {| name := func; signature := sig; body := None |}
                    functions).

(** [seqByFunc[existingFunc].push_back (seq)]. *)
Definition pushSequence (existingFunc : Name) (seq : OutliningSequence)
    (seqByFunc : gmap Name (list OutliningSequence))
  : gmap Name (list OutliningSequence) :=
  <[existingFunc := default [] (seqByFunc !! existingFunc) ++ [seq]]>
    seqByFunc.

(** The inner loop of [makeSequences], over the start indices of one
    substring. *)
Fixpoint sequencesOf (func : Name) (length : Z)
    (exprs : list (option Expr)) (starts : list Z)
    (seqByFunc : gmap Name (list OutliningSequence))
  : option (gmap Name (list OutliningSequence)) :=
  match starts with
  | [] => Some seqByFunc
  | seqIdx :: starts =>
      let '(relativeIdx, existingFunc) := makeRelative seqIdx in
      last ← mjoin (vectorAtZ exprs (wrap32 (seqIdx + length - 1)));
      let seq :=
        {| startIdx := relativeIdx;
           endIdx := wrap32 (relativeIdx + length);
           func := func;
           endsTypeUnreachable :=
             bool_decide (typeOf a last = Tunreachable) |} in
      sequencesOf func length exprs starts
        (pushSequence existingFunc seq seqByFunc)
  end.

Fixpoint makeSequencesFrom (functions : Functions)
    (substrings : list RepeatedSubstring) (exprs : list (option Expr))
    (seqByFunc : gmap Name (list OutliningSequence))
  : option (gmap Name (list OutliningSequence) * Functions) :=
  match substrings with
  | [] => Some (seqByFunc, functions)
  | substring :: substrings =>
      '(func, functions) ← addOutlinedFunction functions substring exprs;
      seqByFunc ← sequencesOf func (Length substring) exprs
                    (StartIndices substring) seqByFunc;
      makeSequencesFrom functions substrings exprs seqByFunc
  end.

Definition makeSequences (functions : Functions)
    (substrings : list RepeatedSubstring) (exprs : list (option Expr))
  : option (gmap Name (list OutliningSequence) * Functions) :=
  makeSequencesFrom functions substrings exprs ∅.

End Sequences.

End Outlining.

(** ** Heap2Local: what the pass consumes *)

(** A heap type is a struct with its fields, an array with its element, or
    something the pass does not handle. *)
Inductive HeapDef :=
| HStruct (fields : list Field)
| HArray (element : Field)
| HOther.

(** The analyses and type queries the pass is built on and does not
    define: the parent map, the local graph, the branch targets and branch
    utilities, the fallthrough, and the type system. *)
Class Collaborators := {
  (** [Parents::getParent]; null for the body of the function. *)
  getParent : Expr -> option Expr;
  (** [LazyLocalGraph::getSetInfluences]: the gets a set may reach. *)
  getSetInfluences : Expr -> list Expr;
  (** [LazyLocalGraph::getSets]: the sets a get may read; a null entry
      stands for the value the local has on entry. *)
  getSets : Expr -> list (option Expr);
  (** [BranchTargets::getTarget] and [BranchTargets::getBranches]. *)
  getTarget : Name -> option Expr;
  getBranches : Name -> gset Expr;
  (** [BranchUtils::getDefinedName] and [BranchUtils::getSentValue]. *)
  getDefinedName : Expr -> Name;
  getSentValue : Expr -> option Expr;
  (** What [BranchUtils::operateOnScopeNameUsesAndSentValues] enumerates:
      each label an expression branches to, with the value sent. *)
  scopeNameUsesAndSentValues : Expr -> list (Name * option Expr);
  (** [Properties::getImmediateFallthrough]. *)
  getImmediateFallthrough : Expr -> Expr;
  (** [Type::isSubType]. *)
  isSubType : WType -> WType -> bool;
  (** [HeapType::getBottom]. *)
  getBottom : HeapType -> HeapType;
  (** [HeapType::isStruct], [getStruct], [isArray], [getArray]. *)
  heapDef : HeapType -> HeapDef;
  (** [TypeUpdating::canHandleAsLocal]. *)
  canHandleAsLocal : WType -> bool
}.

Module ParentChildInteraction.

(** Interactions between a child and a parent, with regard to the
    behaviour of the allocation. *)
Inductive t := Escapes | FullyConsumes | Flows | Mixes | None.

Global Instance eq_dec : EqDecision t.
Proof. solve_decision. Defined.

End ParentChildInteraction.

Abbreviation Interaction := ParentChildInteraction.t.

(** *** The escape analysis *)

Module Checker.

(** The visitor of [getParentChildInteraction]. *)
Record t := { escapes : bool; fullyConsumes : bool }.

(** Assume escaping unless certain otherwise, and assume the value is not
    fully consumed unless certain otherwise. *)
Definition init : t := {| escapes := true; fullyConsumes := false |}.

Definition noEscape (c : t) : t :=
  {| escapes := false; fullyConsumes := fullyConsumes c |}.

Definition consume (c : t) : t :=
  {| escapes := escapes c; fullyConsumes := true |}.

Section Visit.
Context `{Collaborators}.
Variable a : Arena.
Variables allocation child : Expr.

Definition visitBlock (c : t) : t := noEscape c.

Definition visitLoop (c : t) : t := noEscape c.

Definition visitDrop (c : t) : t := consume (noEscape c).

Definition visitBreak (c : t) : t := noEscape c.

Definition visitSwitch (c : t) : t := noEscape c.

Definition visitLocalGet (c : t) : t := noEscape c.

Definition visitLocalSet (c : t) : t := noEscape c.

Definition visitRefIsNull (c : t) : t := consume (noEscape c).

Definition visitRefEq (c : t) : t := consume (noEscape c).

Definition visitRefAs (op : RefAsOp) (c : t) : t :=
  match op with RefAsNonNull => noEscape c | _ => c end.

Definition visitRefTest (c : t) : t := consume (noEscape c).

Definition visitRefCast (curr ref : Expr) (c : t) : t :=
  let c := noEscape c in
  if decide (ref = child) then
    if negb (isSubType (typeOf a allocation) (typeOf a curr))
    then consume c else c
  else consume c.

Definition visitRefGetDesc (c : t) : t := consume (noEscape c).

Definition visitStructSet (ref : Expr) (c : t) : t :=
  if decide (ref = child) then consume (noEscape c) else c.

Definition visitStructGet (c : t) : t := consume (noEscape c).

Definition visitStructRMW (ref : Expr) (c : t) : t :=
  if decide (ref = child) then consume (noEscape c) else c.

Definition visitStructCmpxchg (ref expected : Expr) (c : t) : t :=
  if decide (ref = child \/ expected = child)
  then consume (noEscape c) else c.

Definition visitArraySet (ref index : Expr) (c : t) : t :=
  match asConst a index with
  | Datatypes.None => c
  | Some _ => if decide (ref = child) then consume (noEscape c) else c
  end.

Definition visitArrayGet (index : Expr) (c : t) : t :=
  match asConst a index with
  | Datatypes.None => c
  | Some _ => consume (noEscape c)
  end.

Definition visitArrayRMW (ref : Expr) (c : t) : t :=
  if decide (ref = child) then consume (noEscape c) else c.

Definition visitArrayCmpxchg (ref expected : Expr) (c : t) : t :=
  if decide (ref = child \/ expected = child)
  then consume (noEscape c) else c.

(** [Visitor::visit]: dispatch on the class of the expression.  A class
    without a visit method of its own, [If] among them, leaves the checker
    as it is. *)
Definition visit (curr : Expr) (c : t) : t :=
  match kindOf a curr with
  | Block _ _ => visitBlock c
  | Loop _ _ => visitLoop c
  | Drop _ => visitDrop c
  | Break _ _ _ => visitBreak c
  | Switch _ _ _ _ => visitSwitch c
  | LocalGet _ => visitLocalGet c
  | LocalSet _ _ => visitLocalSet c
  | RefIsNull _ => visitRefIsNull c
  | RefEq _ _ => visitRefEq c
  | RefAs op _ => visitRefAs op c
  | RefTest _ _ => visitRefTest c
  | RefCast ref _ => visitRefCast curr ref c
  | RefGetDesc _ => visitRefGetDesc c
  | StructSet _ ref _ => visitStructSet ref c
  | StructGet _ _ _ => visitStructGet c
  | StructRMW _ _ ref _ => visitStructRMW ref c
  | StructCmpxchg _ ref expected _ => visitStructCmpxchg ref expected c
  | ArraySet ref index _ => visitArraySet ref index c
  | ArrayGet _ index _ => visitArrayGet index c
  | ArrayRMW _ ref _ _ => visitArrayRMW ref c
  | ArrayCmpxchg ref _ expected _ => visitArrayCmpxchg ref expected c
  | If _ _ _ | Call _ _ | Const _ | Unreachable | Nop | Pop | RefNull
  | StructNew _ _ | ArrayNew _ _ | ArrayNewFixed _ | Other _ => c
  end.

End Visit.
End Checker.

Module EscapeAnalyzer.

Import ParentChildInteraction.

(** A flow from a child to a parent; the parent is null above the body of
    the function. *)
Definition ChildAndParent : Type := Expr * option Expr.

(** Modelled from the spec: the worklist of the analysis,
    [UniqueNonrepeatingDeferredQueue], which
    support/unique_deferring_queue.h defines outside the pass: a queue
    that hands out an item at its last pending occurrence and never
    accepts an item it has already handed out. *)
Record FlowQueue := {
  data : list ChildAndParent;
  processed : gset ChildAndParent
}.

Definition emptyQueue : FlowQueue := {| data := []; processed := ∅ |}.

Definition empty (q : FlowQueue) : bool :=
  match data q with [] => true | _ => false end.

Definition push (item : ChildAndParent) (q : FlowQueue) : FlowQueue :=
  if decide (item ∈ processed q) then q
  else {| data := data q ++ [item]; processed := processed q |}.

Fixpoint popData (l : list ChildAndParent)
  : option (ChildAndParent * list ChildAndParent) :=
  match l with
  | [] => Datatypes.None
  | item :: rest =>
      if decide (item ∈ rest) then popData rest else Some (item, rest)
  end.

Definition pop (q : FlowQueue) : option (ChildAndParent * FlowQueue) :=
  match popData (data q) with
  | Some (item, rest) =>
      Some (item, {| data := rest; processed := {[ item ]} ∪ processed q |})
  | Datatypes.None => Datatypes.None
  end.

(** The state the analysis leaves for the rewriters. *)
Record Analyzer := {
  sets : gset Expr;
  reachedInteractions : gmap Expr Interaction
}.

Definition newAnalyzer : Analyzer :=
  {| sets := ∅; reachedInteractions := ∅ |}.

Section Analysis.
Context `{Collaborators}.
Variable a : Arena.

Definition getParentChildInteraction (allocation : Expr)
    (parent : option Expr) (child : Expr) : Interaction :=
  match parent with
  | Datatypes.None => Escapes
  | Some parent =>
      let checker := Checker.visit a allocation child parent Checker.init in
      if Checker.escapes checker then Escapes
      else if Checker.fullyConsumes checker || negb (isRef (typeOf a parent))
      then FullyConsumes
      else if decide (getImmediateFallthrough parent = child) then Flows
      else
        let branches := getBranches (getDefinedName parent) in
        match elements branches with
        | [branch] =>
            if decide (getSentValue branch = Some child) then
              match kindOf a parent with
              | Block _ list =>
                  match last list with
                  | Some back =>
                      if decide (typeOf a back = Tunreachable)
                      then Flows else Mixes
                  | Datatypes.None => Mixes
                  end
              | _ => Mixes
              end
            else Mixes
        | _ => Mixes
        end
  end.

Definition branchesSentByParent (child parent : Expr) : gset Name :=
  list_to_set
    (omap (fun '(name, value) =>
             if decide (value = Some child) then Some name
             else Datatypes.None)
          (scopeNameUsesAndSentValues parent)).

Definition getsAreExclusiveToSets (an : Analyzer) : bool :=
  let gets : gset Expr :=
    list_to_set (flat_map getSetInfluences (elements (sets an))) in
  forallb
    (fun get =>
       forallb (fun set =>
                  match set with
                  | Some set => bool_decide (set ∈ sets an)
                  | Datatypes.None => false
                  end)
               (getSets get))
    (elements gets).

Definition pushAll (items : list ChildAndParent) (q : FlowQueue)
  : FlowQueue :=
  foldl (fun q item => push item q) q items.

(** What one turn of the loop in [escapes] does with the flow it popped:
    [inl] when it returns true, [inr] with the new state otherwise. *)
Definition flowStep (allocation : Expr) (flow : ChildAndParent)
    (an : Analyzer) (flows : FlowQueue)
  : (Analyzer * FlowQueue) + (Analyzer * FlowQueue) :=
  let '(child, parent) := flow in
  let interaction := getParentChildInteraction allocation parent child in
  if decide (interaction = Escapes \/ interaction = Mixes)
  then inl (an, flows)
  else
    match parent with
    | Datatypes.None => inl (an, flows)
    | Some parent =>
        let flows :=
          if decide (interaction = Flows)
          then push (parent, getParent parent) flows else flows in
        let '(sets', flows) :=
          match kindOf a parent with
          | LocalSet _ _ =>
              ({[ parent ]} ∪ sets an,
               pushAll (map (fun get => (get, getParent get))
                            (getSetInfluences parent)) flows)
          | _ => (sets an, flows)
          end in
        let flows :=
          pushAll (map (fun name => (child, getTarget name))
                       (elements (branchesSentByParent child parent)))
                  flows in
        inr ({| sets := sets';
                reachedInteractions :=
                  <[parent := interaction]>
                    (<[child := Flows]> (reachedInteractions an)) |},
             flows)
    end.

(** The loop of [escapes], bounded by [fuel] turns: the result is the
    flag "returned true from inside the loop" with the state reached, or
    nothing when the fuel does not suffice. *)
Fixpoint flowLoop (fuel : nat) (allocation : Expr)
    (an : Analyzer) (flows : FlowQueue)
  : option (bool * Analyzer * FlowQueue) :=
  if empty flows then Some (false, an, flows)
  else
    match fuel with
    | O => Datatypes.None
    | S fuel =>
        match pop flows with
        | Datatypes.None => Datatypes.None
        | Some (flow, flows) =>
            match flowStep allocation flow an flows with
            | inl (an, flows) => Some (true, an, flows)
            | inr (an, flows) => flowLoop fuel allocation an flows
            end
        end
    end.

(** The flows of the analysis of [allocation], from a fresh analyzer. *)
Definition flowsOf (fuel : nat) (allocation : Expr)
  : option (bool * Analyzer * FlowQueue) :=
  flowLoop fuel allocation newAnalyzer
    (push (allocation, getParent allocation) emptyQueue).

Definition escapes (fuel : nat) (allocation : Expr)
  : option (bool * Analyzer) :=
  match flowsOf fuel allocation with
  | Datatypes.None => Datatypes.None
  | Some (true, an, _) => Some (true, an)
  | Some (false, an, _) =>
      if negb (getsAreExclusiveToSets an) then Some (true, an)
      else Some (false, an)
  end.

(** Get-exclusivity in the words of the specification: every set that may
    reach a get influenced by a recorded set is itself recorded. *)
Definition getsExclusive (an : Analyzer) : Prop :=
  forall set get other,
    set ∈ sets an -> get ∈ getSetInfluences set -> other ∈ getSets get ->
    exists s, other = Some s /\ s ∈ sets an.

(** What a successful analysis leaves in the reached map and in the
    worklist: only [Flows] and [FullyConsumes] entries, and an entry for
    the child and for the parent of every flow handled. *)
Definition reachedWellFormed (an : Analyzer) (flows : FlowQueue) : Prop :=
  (forall e i, reachedInteractions an !! e = Some i ->
               i = Flows \/ i = FullyConsumes)
  /\ (forall child parent, (child, parent) ∈ processed flows ->
        is_Some (reachedInteractions an !! child)
        /\ exists p, parent = Some p
                     /\ is_Some (reachedInteractions an !! p)).

(** [parent->dynCast<LocalSet>()] succeeds. *)
Definition isLocalSet (k : ExprKind) : bool :=
  match k with LocalSet _ _ => true | _ => false end.

(** What holds of the flows handled and of the sets recorded at each turn
    of the loop: a handled flow has a parent, classified [Flows] or
    [FullyConsumes]; what handling it pushed is waiting or handled; a
    recorded set is a [local.set] with an entry in the reached map, and
    the flows out of the gets it influences are waiting or handled. *)
Definition flowsInvariant (allocation : Expr) (an : Analyzer)
    (q : FlowQueue) : Prop :=
  (forall child parent, (child, parent) ∈ processed q ->
     exists p,
       parent = Some p
       /\ (getParentChildInteraction allocation (Some p) child = Flows
           \/ getParentChildInteraction allocation (Some p) child
              = FullyConsumes)
       /\ (getParentChildInteraction allocation (Some p) child = Flows ->
           (p, getParent p) ∈ data q \/ (p, getParent p) ∈ processed q)
       /\ (forall name, name ∈ branchesSentByParent child p ->
             (child, getTarget name) ∈ data q
             \/ (child, getTarget name) ∈ processed q)
       /\ (isLocalSet (kindOf a p) = true -> p ∈ sets an))
  /\ (forall s, s ∈ sets an ->
        isLocalSet (kindOf a s) = true
        /\ is_Some (reachedInteractions an !! s)
        /\ forall get, get ∈ getSetInfluences s ->
             (get, getParent get) ∈ data q
             \/ (get, getParent get) ∈ processed q).

(** A set of flows is closed when it holds every flow the analysis can
    push after handling one of its own: up from a parent the child flows
    through, out of the gets a [local.set] influences, and to the target
    of a label the child is sent on. *)
Definition closedUnderFlows (allocation : Expr)
    (U : gset ChildAndParent) : Prop :=
  (forall child p,
     (child, Some p) ∈ U ->
     getParentChildInteraction allocation (Some p) child = Flows ->
     (p, getParent p) ∈ U)
  /\ (forall child p get,
        (child, Some p) ∈ U ->
        isLocalSet (kindOf a p) = true ->
        get ∈ getSetInfluences p ->
        (get, getParent get) ∈ U)
  /\ (forall child p name,
        (child, Some p) ∈ U ->
        (name, Some child) ∈ scopeNameUsesAndSentValues p ->
        (child, getTarget name) ∈ U).

(** The worklist stays inside a set of flows, and what waits in it has not
    been handled. *)
Definition queueWithin (U : gset ChildAndParent) (q : FlowQueue) : Prop :=
  (forall x, x ∈ data q -> x ∈ U /\ x ∉ processed q)
  /\ processed q ⊆ U.

End Analysis.

Definition getInteraction (an : Analyzer) (curr : Expr) : Interaction :=
  match reachedInteractions an !! curr with
  | Some i => i
  | Datatypes.None => None
  end.

End EscapeAnalyzer.

(** *** The rewriters' shared state *)

Module Rewriter.

Import EscapeAnalyzer.

Record Function := { params : list WType; vars : list WType }.

(** What a rewrite walk reads and writes: the expression heap with its
    allocator, the locals of the function, the analyzer (its reached map
    is updated as expressions are replaced), the refinalize flag and the
    slot of the expression being visited. *)
Record Rewrite := {
  arena : Arena;
  nextExpr : Expr;
  function : Function;
  analyzer : Analyzer;
  refinalize : bool;
  current : Expr
}.

(** Rewrites run in a state monad with failure; failure stands for a
    failed assertion, an abort or a read past the end of a vector. *)
Definition M (A : Type) : Type := Rewrite -> option (A * Rewrite).

Definition ret {A} (x : A) : M A := fun s => Some (x, s).

Definition bind {A B} (m : M A) (k : A -> M B) : M B :=
  fun s => match m s with Some (x, s') => k x s' | None => None end.

Definition fail {A} : M A := fun _ => None.

Definition lift {A} (o : option A) : M A :=
  match o with Some x => ret x | None => fail end.

Definition assert (b : bool) : M unit := if b then ret tt else fail.

Definition gets {A} (f : Rewrite -> A) : M A := fun s => Some (f s, s).

Definition modify (f : Rewrite -> Rewrite) : M unit :=
  fun s => Some (tt, f s).

Declare Scope rewrite_scope.
Delimit Scope rewrite_scope with rw.

Notation "x <- m ;; k" := (bind m (fun x => k))
  (at level 100, m at next level, right associativity) : rewrite_scope.
Notation "m ;;; k" := (bind m (fun _ => k))
  (at level 100, right associativity) : rewrite_scope.

Local Open Scope rewrite_scope.

Fixpoint mapM {A B} (f : A -> M B) (l : list A) : M (list B) :=
  match l with
  | [] => ret []
  | x :: l => y <- f x ;; ys <- mapM f l ;; ret (y :: ys)
  end.

(** [wasm.allocator.alloc]: a fresh expression. *)
Definition alloc (e : Expression) : M Expr :=
  fun s =>
    let p := nextExpr s in
    Some (p, {| arena := <[p := e]> (arena s);
                nextExpr := Pos.succ p;
                function := function s;
                analyzer := analyzer s;
                refinalize := refinalize s;
                current := current s |}).

Definition setRefinalize : M unit :=
  modify (fun s => {| arena := arena s; nextExpr := nextExpr s;
                      function := function s; analyzer := analyzer s;
                      refinalize := true; current := current s |}).

Definition typeOfM (e : Expr) : M WType := gets (fun s => typeOf (arena s) e).

Definition kindOfM (e : Expr) : M ExprKind :=
  gets (fun s => kindOf (arena s) e).

Definition getInteractionM (e : Expr) : M Interaction :=
  gets (fun s => getInteraction (analyzer s) e).

(** **** The builder *)

(** Modelled from the spec: the constructors of [Builder] and the type
    each gives the expression it makes; wasm-builder.h and the [finalize]
    methods define them outside the pass.  Every definition from here to
    [makeStructGet] belongs to that model. *)
Definition addVar (ty : WType) : M Z :=
  assert (isConcrete ty) ;;;
  fun s =>
    let f := function s in
    Some (Z.of_nat (length (params f) + length (vars f)),
          {| arena := arena s; nextExpr := nextExpr s;
             function := {| params := params f; vars := vars f ++ [ty] |};
             analyzer := analyzer s; refinalize := refinalize s;
             current := current s |}).

Definition blockType (a : Arena) (list : list Expr) : WType :=
  match last list with
  | None => Tnone
  | Some back =>
      match typeOf a back with
      | Tnone =>
          if existsb (fun e => bool_decide (typeOf a e = Tunreachable)) list
          then Tunreachable else Tnone
      | ty => ty
      end
  end.

Definition makeBlock (list : list Expr) : M Expr :=
  ty <- gets (fun s => blockType (arena s) list) ;;
  alloc {| kind := Block "" list; type := ty |}.

Definition makeSequence (left right : Expr) : M Expr :=
  makeBlock [left; right].

Definition makeDrop (value : Expr) : M Expr :=
  ty <- typeOfM value ;;
  alloc {| kind := Drop value;
           type := if decide (ty = Tunreachable) then Tunreachable
                   else Tnone |}.

Definition makeLocalSet (index : Z) (value : Expr) : M Expr :=
  ty <- typeOfM value ;;
  alloc {| kind := LocalSet index value;
           type := if decide (ty = Tunreachable) then Tunreachable
                   else Tnone |}.

Definition makeLocalGet (index : Z) (ty : WType) : M Expr :=
  alloc {| kind := LocalGet index; type := ty |}.

Definition makeConst (value : Literal) : M Expr :=
  alloc {| kind := Const value; type := literalType value |}.

Definition makeUnreachable : M Expr :=
  alloc {| kind := Unreachable; type := Tunreachable |}.

Section Typed.
Context `{Collaborators}.

(** The expression [makeRefNull] makes for a heap type. *)
Definition refNull (ht : HeapType) : Expression :=
  {| kind := RefNull; type := Tref (getBottom ht) Nullable |}.

Definition makeRefNull (ht : HeapType) : M Expr := alloc (refNull ht).

(** The expression [makeRefAs] makes. *)
Definition refAs (op : RefAsOp) (value : Expr) (ty : WType) : Expression :=
  {| kind := RefAs op value;
     type := match op, ty with
             | RefAsNonNull, Tref ht _ => Tref ht NonNullable
             | _, _ => ty
             end |}.

Definition makeRefAs (op : RefAsOp) (value : Expr) : M Expr :=
  ty <- typeOfM value ;;
  alloc (refAs op value ty).

(** [makeConstantExpression (Literal::makeZero ty)]: a null for a
    reference type, a zero constant otherwise. *)
Definition makeZeroExpression (ty : WType) : M Expr :=
  match ty with
  | Tref ht _ => makeRefNull ht
  | Ti32 => makeConst (LitI32 0)
  | Ti64 => makeConst (LitI64 0)
  | _ => makeConst (LitZero ty)
  end.

End Typed.

Definition makeStructSet (index : Z) (ref value : Expr) : M Expr :=
  tr <- typeOfM ref ;;
  tv <- typeOfM value ;;
  alloc {| kind := StructSet index ref value;
           type := if decide (tr = Tunreachable \/ tv = Tunreachable)
                   then Tunreachable else Tnone |}.

Definition makeStructGet (index : Z) (ref : Expr) (ty : WType)
    (signed : bool) : M Expr :=
  tr <- typeOfM ref ;;
  alloc {| kind := StructGet index ref signed;
           type := if decide (tr = Tunreachable) then Tunreachable
                   else ty |}.

(** **** Replacing the current expression *)

Definition setReached (e : Expr) (i : Interaction) : M unit :=
  modify (fun s =>
    {| arena := arena s; nextExpr := nextExpr s; function := function s;
       analyzer :=
         {| sets := sets (analyzer s);
            reachedInteractions :=
              <[e := i]> (reachedInteractions (analyzer s)) |};
       refinalize := refinalize s; current := current s |}).

(** [EscapeAnalyzer::applyOldInteractionToReplacement]. *)
Definition applyOldInteractionToReplacement (old rep : Expr) : M unit :=
  an <- gets analyzer ;;
  i <- lift (reachedInteractions an !! old) ;;
  ty <- typeOfM rep ;;
  if decide (ty = Tunreachable) then ret tt else setReached rep i.

(** [replaceCurrent] of both rewriters: the replacement takes over the
    interaction of what it replaces, then takes its place in the slot
    being visited. *)
Definition replaceCurrent (expression : Expr) : M Expr :=
  old <- gets current ;;
  applyOldInteractionToReplacement old expression ;;;
  modify (fun s =>
    {| arena := arena s; nextExpr := nextExpr s; function := function s;
       analyzer := analyzer s; refinalize := refinalize s;
       current := expression |}) ;;;
  ret expression.

(** **** Reasoning about rewrites *)

(** [wp m s Q]: run from [s], the rewrite [m] does not fail, and its
    result and final state satisfy [Q]. *)
Definition wp {A} (m : M A) (s : Rewrite) (Q : A -> Rewrite -> Prop) : Prop :=
  match m s with
  | Some (x, s') => Q x s'
  | None => False
  end.

(** [grows s s']: from [s] to [s'] expressions were only allocated and
    locals only added; the expressions of [s] are as they were, and so are
    the analyzer, the slot being visited and the refinalize flag. *)
Record grows (s s' : Rewrite) : Prop := {
  grows_next : (nextExpr s <= nextExpr s')%positive;
  grows_arena : forall e, (e < nextExpr s)%positive ->
                          deref (arena s') e = deref (arena s) e;
  grows_analyzer : analyzer s' = analyzer s;
  grows_current : current s' = current s;
  grows_refinalize : refinalize s' = refinalize s;
  grows_params : params (function s') = params (function s);
  grows_vars : vars (function s) `prefix_of` vars (function s')
}.

(** [placed s e x]: [e] is the expression at [x], allocated in [s]. *)
Definition placed (s : Rewrite) (x : Expr) (e : Expression) : Prop :=
  (x < nextExpr s)%positive /\ deref (arena s) x = e.

(** **** Updates in place, and more of the builder *)

(** An assignment to the fields of an expression that exists. *)
Definition setExpression (e : Expr) (x : Expression) : M unit :=
  modify (fun s =>
    {| arena := <[e := x]> (arena s); nextExpr := nextExpr s;
       function := function s; analyzer := analyzer s;
       refinalize := refinalize s; current := current s |}).

(** [curr->type = ty]. *)
Definition setType (e : Expr) (ty : WType) : M unit :=
  k <- kindOfM e ;;
  setExpression e {| kind := k; type := ty |}.

(** Modelled from the spec: [Builder::blockify], which wasm-builder.h
    defines outside the pass.  An unnamed block is used as it is, anything
    else is wrapped in a new block; the expression to append, if any, is
    pushed at the end of the block, whose type is then computed again. *)
Definition blockify (any : Expr) (append : option Expr) : M Expr :=
  k <- kindOfM any ;;
  block <- match k with
           | Block name _ =>
               if decide (name = "") then ret any else makeBlock [any]
           | _ => makeBlock [any]
           end ;;
  match append with
  | None => ret block
  | Some x =>
      kb <- kindOfM block ;;
      match kb with
      | Block name list =>
          ty <- gets (fun s => blockType (arena s) (list ++ [x])) ;;
          setExpression block
            {| kind := Block name (list ++ [x]); type := ty |} ;;;
          ret block
      | _ => fail
      end
  end.

(** Modelled from the spec: [Builder::makeRefEq], with the type
    [RefEq::finalize] gives. *)
Definition makeRefEq (lhs rhs : Expr) : M Expr :=
  tl <- typeOfM lhs ;;
  tr <- typeOfM rhs ;;
  alloc {| kind := RefEq lhs rhs;
           type := if decide (tl = Tunreachable \/ tr = Tunreachable)
                   then Tunreachable else Ti32 |}.

End Rewriter.

(** *** Struct2Local *)

Module Struct2Local.

Import EscapeAnalyzer Rewriter.
Local Open Scope rewrite_scope.

(** The rewriter's own fields: the allocation it removes, the fields of
    its struct type, and the locals that replace the fields (followed by
    one for the descriptor when there is one). *)
Record t := {
  allocation : Expr;
  fields : list Field;
  localIndexes : list Z
}.

(** Both operands of a comparison hold the allocation. *)
Definition bothFlow (an : Analyzer) (lhs rhs : Expr) : Prop :=
  getInteraction an lhs = ParentChildInteraction.Flows
  /\ getInteraction an rhs = ParentChildInteraction.Flows.

Section Rewrite.
Context `{Collaborators}.

Definition getStruct (ty : WType) : M (list Field) :=
  ht <- lift (getHeapType ty) ;;
  match heapDef ht with HStruct fs => ret fs | _ => fail end.

(** [curr->desc] of a [StructNew]. *)
Definition descOf (curr : Expr) : M (option Expr) :=
  k <- kindOfM curr ;;
  match k with StructNew _ desc => ret desc | _ => fail end.

(** [PostWalker::walk] over the body of the function, which
    wasm-traversal.h defines outside the pass: it visits the expressions
    of the body, children first, with the visit methods of the rewriter it
    is given.  And [ReFinalize().walkFunctionInModule], which ir/utils.h
    defines outside the pass. *)
Variable walk : t -> M unit.
Variable reFinalize : M unit.

(** [bool refinalize = false]: the flag of a rewriter starts cleared. *)
Definition clearRefinalize : M unit :=
  modify (fun s => {| arena := arena s; nextExpr := nextExpr s;
                      function := function s; analyzer := analyzer s;
                      refinalize := false; current := current s |}).

(** The constructor: it allocates the locals that store the fields and
    the descriptor, walks the body of the function, and refinalizes when
    the walk asked for it. *)
Definition create (allocation : Expr) : M t :=
  ty <- typeOfM allocation ;;
  fields <- getStruct ty ;;
  clearRefinalize ;;;
  (* Allocate locals to store the allocation's fields and descriptor in. *)
  fieldLocals <- mapM (fun field => addVar (ftype field)) fields ;;
  desc <- descOf allocation ;;
  descLocal <- match desc with
               | Some d => td <- typeOfM d ;; i <- addVar td ;; ret [i]
               | None => ret []
               end ;;
  let self := {| allocation := allocation; fields := fields;
                 localIndexes := fieldLocals ++ descLocal |} in
  (* Replace the things we need to using the visit* methods. *)
  walk self ;;;
  flag <- gets refinalize ;;
  (if flag then reFinalize else ret tt) ;;;
  ret self.

Variable self : t.

Definition visitStructNew (curr : Expr) : M unit :=
  if decide (curr <> allocation self) then ret tt
  else
    k <- kindOfM curr ;;
    match k with
    | StructNew operands desc =>
        let fields := fields self in
        let isWithDefault := bool_decide (operands = []) in
        let numTemps :=
          ((if isWithDefault then 0 else length fields)
           + (match desc with Some _ => 1 | None => 0 end))%nat in
        (* Create the temp variables. *)
        fieldTemps <- (if isWithDefault then ret []
                       else mapM (fun field => addVar (ftype field)) fields) ;;
        descTemp <- match desc with
                    | Some d => td <- typeOfM d ;; i <- addVar td ;; ret [i]
                    | None => ret []
                    end ;;
        let tempIndexes := fieldTemps ++ descTemp in
        (* Store the initial values into the temp locals. *)
        operandSets <-
          (if isWithDefault then ret []
           else mapM (fun i =>
                        temp <- lift (tempIndexes !! i) ;;
                        operand <- lift (operands !! i) ;;
                        makeLocalSet temp operand)
                     (seq 0 (length fields))) ;;
        descSet <-
          match desc with
          | Some d =>
              td <- typeOfM d ;;
              desc' <- (if isNullable td then makeRefAs RefAsNonNull d
                        else ret d) ;;
              temp <- lift (tempIndexes !! (numTemps - 1)%nat) ;;
              set <- makeLocalSet temp desc' ;;
              ret [set]
          | None => ret []
          end ;;
        (* Store the values into the locals representing the fields. *)
        fieldSets <-
          mapM (fun i =>
                  field <- lift (fields !! i) ;;
                  val <- (if isWithDefault
                          then makeZeroExpression (ftype field)
                          else temp <- lift (tempIndexes !! i) ;;
                               makeLocalGet temp (ftype field)) ;;
                  local <- lift (localIndexes self !! i) ;;
                  makeLocalSet local val)
               (seq 0 (length fields)) ;;
        descCopy <-
          match desc with
          | Some d =>
              td <- typeOfM d ;;
              temp <- lift (tempIndexes !! (numTemps - 1)%nat) ;;
              val <- makeLocalGet temp td ;;
              local <- lift (localIndexes self !! length fields) ;;
              set <- makeLocalSet local val ;;
              ret [set]
          | None => ret []
          end ;;
        (* Replace the allocation with a null reference. *)
        ty <- typeOfM (allocation self) ;;
        ht <- lift (getHeapType ty) ;;
        null <- makeRefNull ht ;;
        block <- makeBlock (operandSets ++ descSet ++ fieldSets
                              ++ descCopy ++ [null]) ;;
        replaceCurrent block ;;;
        ret tt
    | _ => fail
    end.

Definition visitRefEq (curr : Expr) : M unit :=
  i <- getInteractionM curr ;;
  if decide (i = ParentChildInteraction.None) then ret tt
  else
    ty <- typeOfM curr ;;
    if decide (ty = Tunreachable) then ret tt
    else
      k <- kindOfM curr ;;
      match k with
      | RefEq lhs rhs =>
          il <- getInteractionM lhs ;;
          ir <- getInteractionM rhs ;;
          let result : Z :=
            if decide (il = ParentChildInteraction.Flows
                       /\ ir = ParentChildInteraction.Flows)
            then 1 else 0 in
          dropLeft <- makeDrop lhs ;;
          dropRight <- makeDrop rhs ;;
          const <- makeConst (LitI32 result) ;;
          block <- makeBlock [dropLeft; dropRight; const] ;;
          replaceCurrent block ;;;
          ret tt
      | _ => fail
      end.

End Rewrite.

Section Visits.
Context `{Collaborators}.

(** [Type::getLeastUpperBound], which types an [if] with two arms. *)
Variable leastUpperBound : WType -> WType -> WType.

(** What [Bits::makePackedFieldGet] makes of a value read from a packed
    field, given the field and the signedness of the read. *)
Variable unpackField : Expr -> Field -> bool -> M Expr.

Variable self : t.

(** Modelled from the spec: [Builder::makeIf] with both arms, with the
    type [If::finalize] gives. *)
Definition makeIf (condition ifTrue ifFalse : Expr) : M Expr :=
  tyCondition <- typeOfM condition ;;
  tyTrue <- typeOfM ifTrue ;;
  tyFalse <- typeOfM ifFalse ;;
  let ty := leastUpperBound tyTrue tyFalse in
  alloc {| kind := If condition ifTrue (Some ifFalse);
           type := if decide (ty = Tnone /\ tyCondition = Tunreachable)
                   then Tunreachable else ty |}.

(** Modelled from the spec: [Bits::makePackedFieldGet] returns the value
    as it is when the field is not packed. *)
Definition makePackedFieldGet (value : Expr) (field : Field)
    (signed : bool) : M Expr :=
  if fpacked field then unpackField value field signed else ret value.

Definition adjustTypeFlowingThrough (curr : Expr) : M unit :=
  i <- getInteractionM curr ;;
  if decide (i <> ParentChildInteraction.Flows) then ret tt
  else
    ty <- typeOfM curr ;;
    assert (isRef ty) ;;;
    ht <- lift (getHeapType ty) ;;
    setType curr (Tref ht Nullable).

Definition visitBlock (curr : Expr) : M unit := adjustTypeFlowingThrough curr.

Definition visitLoop (curr : Expr) : M unit := adjustTypeFlowingThrough curr.

Definition visitLocalSet (curr : Expr) : M unit :=
  i <- getInteractionM curr ;;
  if decide (i = ParentChildInteraction.None) then ret tt
  else
    k <- kindOfM curr ;;
    match k with
    | LocalSet _ value =>
        ty <- typeOfM curr ;;
        (* [isTee]: the type is not [none]. *)
        if decide (ty <> Tnone) then
          replaceCurrent value ;;;
          ret tt
        else
          drop <- makeDrop value ;;
          replaceCurrent drop ;;;
          ret tt
    | _ => fail
    end.

Definition visitLocalGet (curr : Expr) : M unit :=
  i <- getInteractionM curr ;;
  if decide (i = ParentChildInteraction.None) then ret tt
  else
    ty <- typeOfM curr ;;
    ht <- lift (getHeapType ty) ;;
    null <- makeRefNull ht ;;
    replaceCurrent null ;;;
    ret tt.

Definition visitRefIsNull (curr : Expr) : M unit :=
  i <- getInteractionM curr ;;
  if decide (i = ParentChildInteraction.None) then ret tt
  else
    drop <- makeDrop curr ;;
    const <- makeConst (LitI32 0) ;;
    block <- makeSequence drop const ;;
    replaceCurrent block ;;;
    ret tt.

Definition visitRefAs (curr : Expr) : M unit :=
  i <- getInteractionM curr ;;
  if decide (i = ParentChildInteraction.None) then ret tt
  else
    k <- kindOfM curr ;;
    match k with
    | RefAs op value =>
        assert (match op with RefAsNonNull => true | _ => false end) ;;;
        replaceCurrent value ;;;
        ret tt
    | _ => fail
    end.

Definition visitRefTest (curr : Expr) : M unit :=
  i <- getInteractionM curr ;;
  if decide (i = ParentChildInteraction.None) then ret tt
  else
    k <- kindOfM curr ;;
    match k with
    | RefTest ref castType =>
        allocType <- typeOfM (allocation self) ;;
        let result : Z := if isSubType allocType castType then 1 else 0 in
        drop <- makeDrop ref ;;
        const <- makeConst (LitI32 result) ;;
        block <- makeSequence drop const ;;
        replaceCurrent block ;;;
        ret tt
    | _ => fail
    end.

Definition visitRefCast (curr : Expr) : M unit :=
  i <- getInteractionM curr ;;
  if decide (i = ParentChildInteraction.None) then ret tt
  else
    k <- kindOfM curr ;;
    match k with
    | RefCast ref (Some desc) =>
        ir <- getInteractionM ref ;;
        id <- getInteractionM desc ;;
        let allocIsCastRef := bool_decide (ir = ParentChildInteraction.Flows) in
        let allocIsCastDesc := bool_decide (id = ParentChildInteraction.Flows) in
        allocDesc <- descOf (allocation self) ;;
        ty <- typeOfM curr ;;
        (if match allocDesc with None => true | Some _ => allocIsCastDesc end
         then
           if allocIsCastDesc && negb allocIsCastRef && isNullable ty then
             (* There might be a null value to let through: reuse the cast
                as a cast to null, moving the reference past the
                descriptor with a scratch local. *)
             refType <- typeOfM ref ;;
             scratch <- addVar refType ;;
             set <- makeLocalSet scratch ref ;;
             drop <- makeDrop desc ;;
             block <- blockify set (Some drop) ;;
             block <- blockify block (Some curr) ;;
             replaceCurrent block ;;;
             ht <- lift (getHeapType ty) ;;
             get <- makeLocalGet scratch refType ;;
             setExpression curr
               {| kind := RefCast get None;
                  type := Tref (getBottom ht)
                            (if isNullable ty then Nullable
                             else NonNullable) |}
           else
             dropRef <- makeDrop ref ;;
             dropDesc <- makeDrop desc ;;
             trap <- makeUnreachable ;;
             block <- blockify dropRef (Some dropDesc) ;;
             block <- blockify block (Some trap) ;;
             replaceCurrent block ;;;
             ret tt
         else
           assert allocIsCastRef ;;;
           allocDescExpr <- lift allocDesc ;;
           type <- typeOfM allocDescExpr ;;
           dropRef <- makeDrop ref ;;
           local <- lift (localIndexes self !! length (fields self)) ;;
           get <- makeLocalGet local type ;;
           eq <- makeRefEq desc get ;;
           allocType <- typeOfM (allocation self) ;;
           ht <- lift (getHeapType allocType) ;;
           null <- makeRefNull ht ;;
           trap <- makeUnreachable ;;
           test <- makeIf eq null trap ;;
           block <- blockify dropRef (Some test) ;;
           replaceCurrent block ;;;
           ret tt) ;;;
        setRefinalize
    | RefCast ref None =>
        allocType <- typeOfM (allocation self) ;;
        ty <- typeOfM curr ;;
        (if isSubType allocType ty then
           replaceCurrent ref ;;;
           ret tt
         else
           drop <- makeDrop ref ;;
           trap <- makeUnreachable ;;
           block <- makeSequence drop trap ;;
           replaceCurrent block ;;;
           ret tt) ;;;
        setRefinalize
    | _ => fail
    end.

Definition visitRefGetDesc (curr : Expr) : M unit :=
  i <- getInteractionM curr ;;
  if decide (i = ParentChildInteraction.None) then ret tt
  else
    k <- kindOfM curr ;;
    match k with
    | RefGetDesc ref =>
        allocDesc <- descOf (allocation self) ;;
        allocDescExpr <- lift allocDesc ;;
        type <- typeOfM allocDescExpr ;;
        ty <- typeOfM curr ;;
        (if decide (type <> ty) then setRefinalize else ret tt) ;;;
        local <- lift (localIndexes self !! length (fields self)) ;;
        value <- makeLocalGet local type ;;
        drop <- makeDrop ref ;;
        block <- blockify drop (Some value) ;;
        replaceCurrent block ;;;
        ret tt
    | _ => fail
    end.

Definition visitStructSet (curr : Expr) : M unit :=
  i <- getInteractionM curr ;;
  if decide (i = ParentChildInteraction.None) then ret tt
  else
    k <- kindOfM curr ;;
    match k with
    | StructSet index ref value =>
        drop <- makeDrop ref ;;
        local <- lift (vectorAtZ (localIndexes self) index) ;;
        set <- makeLocalSet local value ;;
        replacement <- makeSequence drop set ;;
        replaceCurrent replacement ;;;
        ret tt
    | _ => fail
    end.

Definition visitStructGet (curr : Expr) : M unit :=
  i <- getInteractionM curr ;;
  if decide (i = ParentChildInteraction.None) then ret tt
  else
    k <- kindOfM curr ;;
    match k with
    | StructGet index ref signed =>
        field <- lift (vectorAtZ (fields self) index) ;;
        let type := ftype field in
        ty <- typeOfM curr ;;
        (if decide (type <> ty) then setRefinalize else ret tt) ;;;
        local <- lift (vectorAtZ (localIndexes self) index) ;;
        value <- makeLocalGet local type ;;
        value <- makePackedFieldGet value field signed ;;
        drop <- makeDrop ref ;;
        replacement <- blockify drop None ;;
        block <- blockify replacement (Some value) ;;
        replaceCurrent block ;;;
        ret tt
    | _ => fail
    end.

End Visits.
End Struct2Local.

(** *** Array2Struct *)

Module Array2Struct.

Import EscapeAnalyzer Rewriter.
Local Open Scope rewrite_scope.

(** The fields of the rewriter the array accesses depend on: the
    allocation, its type before the rewrite, and its number of slots. *)
Record t := {
  allocation : Expr;
  originalType : WType;
  numFields : Z
}.

(** The value in an expression known to hold a constant index. *)
Definition getIndex (curr : Expr) : M Z :=
  k <- kindOfM curr ;;
  match k with
  | Const value => u <- lift (getUnsigned value) ;; ret (wrap32 u)
  | _ => fail
  end.

Definition getArrayNewSize (allocation : Expr) : M Z :=
  k <- kindOfM allocation ;;
  match k with
  | ArrayNew _ size => getIndex size
  | ArrayNewFixed values => ret (wrap32 (Z.of_nat (length values)))
  | _ => fail
  end.

Section Rewrite.
Variable self : t.

Definition visitArraySet (curr : Expr) : M unit :=
  i <- getInteractionM curr ;;
  if decide (i = ParentChildInteraction.None) then ret tt
  else
    k <- kindOfM curr ;;
    match k with
    | ArraySet ref indexExpr value =>
        index <- getIndex indexExpr ;;
        if decide (index >= numFields self) then
          dropRef <- makeDrop ref ;;
          dropValue <- makeDrop value ;;
          trap <- makeUnreachable ;;
          block <- makeBlock [dropRef; dropValue; trap] ;;
          replaceCurrent block ;;;
          setRefinalize
        else
          set <- makeStructSet index ref value ;;
          replaceCurrent set ;;;
          ret tt
    | _ => fail
    end.

Definition visitArrayGet (curr : Expr) : M unit :=
  i <- getInteractionM curr ;;
  if decide (i = ParentChildInteraction.None) then ret tt
  else
    k <- kindOfM curr ;;
    match k with
    | ArrayGet ref indexExpr signed =>
        index <- getIndex indexExpr ;;
        if decide (index >= numFields self) then
          dropRef <- makeDrop ref ;;
          trap <- makeUnreachable ;;
          block <- makeSequence dropRef trap ;;
          replaceCurrent block ;;;
          setRefinalize
        else
          ty <- typeOfM curr ;;
          get <- makeStructGet index ref ty signed ;;
          replaceCurrent get ;;;
          ret tt
    | _ => fail
    end.

End Rewrite.

Section Visits.
Context `{Collaborators}.
Variable self : t.

(** The struct type the constructor built, and the expression it made to
    take the place of the allocation. *)
Variable structType : HeapType.
Variable arrayNewReplacement : Expr.

Definition visitArrayNew (curr : Expr) : M unit :=
  if decide (curr = allocation self) then
    replaceCurrent arrayNewReplacement ;;;
    ret tt
  else ret tt.

Definition visitArrayNewFixed (curr : Expr) : M unit :=
  if decide (curr = allocation self) then
    replaceCurrent arrayNewReplacement ;;;
    ret tt
  else ret tt.

Definition visitRefTest (curr : Expr) : M unit :=
  i <- getInteractionM curr ;;
  if decide (i = ParentChildInteraction.None) then ret tt
  else
    k <- kindOfM curr ;;
    match k with
    | RefTest _ castType =>
        let result : Z :=
          if isSubType (originalType self) castType then 1 else 0 in
        drop <- makeDrop curr ;;
        const <- makeConst (LitI32 result) ;;
        block <- makeSequence drop const ;;
        replaceCurrent block ;;;
        ret tt
    | _ => fail
    end.

Definition visitRefCast (curr : Expr) : M unit :=
  i <- getInteractionM curr ;;
  if decide (i = ParentChildInteraction.None) then ret tt
  else
    k <- kindOfM curr ;;
    match k with
    | RefCast _ _ =>
        ty <- typeOfM curr ;;
        (if negb (isSubType (originalType self) ty) then
           drop <- makeDrop curr ;;
           trap <- makeUnreachable ;;
           block <- makeSequence drop trap ;;
           replaceCurrent block ;;;
           ret tt
         else setType curr (Tref structType NonNullable)) ;;;
        setRefinalize
    | _ => fail
    end.

End Visits.
End Array2Struct.

(** *** Finding the allocations *)

Module AllocationFinder.

Record t := {
  structNews : list Expr;
  arrayNews : list Expr;
  hasPop : bool
}.

Definition init : t := {| structNews := []; arrayNews := []; hasPop := false |}.

(** [isValidSize (Index)]. *)
Definition isValidSize (size : Z) : bool := bool_decide (size < 20).

(** [isValidSize (Expression* )]: constant, and of a valid value.  The
    unsigned reading is narrowed to an [Index] at the call. *)
Definition isValidSizeExpr (a : Arena) (size : Expr) : bool :=
  match asConst a size with
  | Some c =>
      match getUnsigned c with
      | Some u => isValidSize (wrap32 u)
      | None => false
      end
  | None => false
  end.

Definition visitStructNew (a : Arena) (curr : Expr) (f : t) : t :=
  if decide (typeOf a curr <> Tunreachable)
  then {| structNews := structNews f ++ [curr]; arrayNews := arrayNews f;
          hasPop := hasPop f |}
  else f.

Definition visitArrayNew (a : Arena) (curr size : Expr) (f : t) : t :=
  if bool_decide (typeOf a curr <> Tunreachable) && isValidSizeExpr a size
  then {| structNews := structNews f; arrayNews := arrayNews f ++ [curr];
          hasPop := hasPop f |}
  else f.

Definition visitArrayNewFixed (a : Arena) (curr : Expr) (values : list Expr)
    (f : t) : t :=
  if bool_decide (typeOf a curr <> Tunreachable)
     && isValidSize (wrap32 (Z.of_nat (length values)))
  then {| structNews := structNews f; arrayNews := arrayNews f ++ [curr];
          hasPop := hasPop f |}
  else f.

Definition visitPop (f : t) : t :=
  {| structNews := structNews f; arrayNews := arrayNews f; hasPop := true |}.

Definition visit (a : Arena) (curr : Expr) (f : t) : t :=
  match kindOf a curr with
  | StructNew _ _ => visitStructNew a curr f
  | ArrayNew _ size => visitArrayNew a curr size f
  | ArrayNewFixed values => visitArrayNewFixed a curr values f
  | Pop => visitPop f
  | _ => f
  end.

(** What the finder requires of an array allocation it collects. *)
Definition validArrayNew (a : Arena) (e : Expr) : Prop :=
  typeOf a e <> Tunreachable
  /\ ((exists init size c u,
         kindOf a e = ArrayNew init size
         /\ asConst a size = Some c
         /\ getUnsigned c = Some u
         /\ wrap32 u < 20
         /\ (forall z, c = LitI32 z -> wrap32 z < 20))
      \/ (exists values,
            kindOf a e = ArrayNewFixed values
            /\ wrap32 (Z.of_nat (length values)) < 20)).

(** [finder.walk (func->body)]: the walker visits the expressions of the
    body one by one; [order] is the order in which it reaches them. *)
Definition walk (a : Arena) (order : list Expr) : t :=
  foldl (fun f curr => visit a curr f) init order.

End AllocationFinder.

(** *** The pass over one function *)

Module Heap2Local.

Section Pass.
Context `{Collaborators}.

Definition canHandleAsLocals (ty : WType) : bool :=
  match ty with
  | Tref ht _ =>
      match heapDef ht with
      | HStruct fields =>
          forallb (fun field => canHandleAsLocal (ftype field)) fields
      | HArray element => canHandleAsLocal (ftype element)
      | HOther => false
      end
  | _ => false
  end.

(** The array allocations the pass analyses, in order: those the finder
    collected whose data fits in locals. *)
Definition arrayCandidates (a : Arena) (order : list Expr) : list Expr :=
  filter (fun allocation => canHandleAsLocals (typeOf a allocation) = true)
         (AllocationFinder.arrayNews (AllocationFinder.walk a order)).

End Pass.
End Heap2Local.

(** * Sample programs *)

Module Samples.

Import Outlining.

(** A function whose first two instructions form one sequence, outlined
    into a callee without parameters that has no body yet. *)
Definition oneSequence : Walker :=
  {| state := NotInSeq;
     sequences := [ {| startIdx := 1; endIdx := 3; func := "outline$0";
                       endsTypeUnreachable := false |} ];
     seqCounter := 0;
     instrCounter := 0;
     calls := [];
     paramCount := fun _ => 0;
     withBody := ∅;
     outlinedFunc := None |}.

(** The walker after the first instruction of that sequence. *)
Definition insideSequence : Walker :=
  default oneSequence (visitExpression (VPlain 1%positive) oneSequence).

(** The same function when the callee already has its body. *)
Definition skippedSequence : Walker :=
  {| state := InSkipSeq;
     sequences := sequences oneSequence;
     seqCounter := 0;
     instrCounter := 2;
     calls := [];
     paramCount := fun _ => 0;
     withBody := {[ "outline$0" ]};
     outlinedFunc := None |}.

(** Collaborators given by tables: the parent of each expression, the
    gets each set reaches and the sets each get reads.  There are no
    branches, the fallthrough of an expression is the expression itself,
    and a type is a subtype of itself only. *)
Definition tables (parent : Expr -> option Expr)
    (influences : Expr -> list Expr) (reads : Expr -> list (option Expr))
  : Collaborators :=
  {| getParent := parent;
     getSetInfluences := influences;
     getSets := reads;
     getTarget := fun _ => None;
     getBranches := fun _ => ∅;
     getDefinedName := fun _ => "";
     getSentValue := fun _ => None;
     scopeNameUsesAndSentValues := fun _ => [];
     getImmediateFallthrough := fun e => e;
     isSubType := fun t1 t2 => bool_decide (t1 = t2);
     getBottom := fun ht => ht;
     heapDef := fun ht =>
       match ht with
       | 1%positive =>
           HStruct [ {| ftype := Ti32; fpacked := false; fmutable := true |} ]
       | 2%positive =>
           HArray {| ftype := Ti32; fpacked := false; fmutable := true |}
       | 3%positive =>
           HStruct [ {| ftype := Ti32; fpacked := false; fmutable := true |};
                     {| ftype := Ti64; fpacked := false; fmutable := true |} ]
       | _ => HOther
       end;
     canHandleAsLocal := fun _ => true |}.

Definition expression (k : ExprKind) (ty : WType) : Expression :=
  {| kind := k; type := ty |}.

(** An allocation as one arm of an if:
    [(if (result (ref null $1)) (i32.const 1) (struct.new_default $1)
    (ref.null none))]. *)
Definition ifArena : Arena :=
  list_to_map
    [ (1%positive, expression (StructNew [] None) (Tref 1 NonNullable));
      (2%positive, expression (Const (LitI32 1)) Ti32);
      (3%positive, expression RefNull (Tref 1 Nullable));
      (4%positive, expression (If 2 1 (Some 3%positive)) (Tref 1 Nullable)) ].

Definition ifTables : Collaborators :=
  tables (fun e => match e with
                   | 1%positive | 2%positive | 3%positive => Some 4%positive
                   | _ => None
                   end)
         (fun _ => []) (fun _ => []).

(** Array allocations of several sizes: constant 4, constant 20, a
    non-constant size, two fixed values, and constant -1. *)
Definition arraysArena : Arena :=
  list_to_map
    [ (1%positive, expression (Const (LitI32 4)) Ti32);
      (2%positive, expression (ArrayNew None 1) (Tref 2 NonNullable));
      (3%positive, expression (Const (LitI32 20)) Ti32);
      (4%positive, expression (ArrayNew None 3) (Tref 2 NonNullable));
      (5%positive, expression (LocalGet 0) Ti32);
      (6%positive, expression (ArrayNew None 5) (Tref 2 NonNullable));
      (7%positive, expression (ArrayNewFixed [1; 3]%positive)
                              (Tref 2 NonNullable));
      (8%positive, expression (Const (LitI32 (-1))) Ti32);
      (9%positive, expression (ArrayNew None 8) (Tref 2 NonNullable)) ].

Definition arraysOrder : list Expr :=
  [1; 2; 3; 4; 5; 6; 7; 8; 9]%positive.

Definition noTables : Collaborators :=
  tables (fun _ => None) (fun _ => []) (fun _ => []).


(** An allocation kept in a local and compared with itself:
    [(block (local.set 0 (struct.new_default $1))
            (drop (ref.eq (local.get 0) (local.get 0))))]. *)
Definition boxedArena : Arena :=
  list_to_map
    [ (1%positive, expression (StructNew [] None) (Tref 1 NonNullable));
      (2%positive, expression (LocalSet 0 1) Tnone);
      (3%positive, expression (LocalGet 0) (Tref 1 Nullable));
      (6%positive, expression (LocalGet 0) (Tref 1 Nullable));
      (7%positive, expression (RefEq 3 6) Ti32);
      (8%positive, expression (Drop 7) Tnone);
      (9%positive, expression (Block "" [2; 8]%positive) Tnone) ].

Definition boxedParent (e : Expr) : option Expr :=
  match e with
  | 1%positive => Some 2%positive
  | 2%positive | 8%positive => Some 9%positive
  | 3%positive | 6%positive => Some 7%positive
  | 7%positive => Some 8%positive
  | _ => None
  end.

Definition boxedTables : Collaborators :=
  tables boxedParent
    (fun set => match set with 2%positive => [3; 6]%positive | _ => [] end)
    (fun get => match get with
                | 3%positive | 6%positive => [Some 2%positive]
                | _ => []
                end).

(** The same function when the second get may also read the value the
    local had on entry. *)
Definition sharedTables : Collaborators :=
  tables boxedParent
    (fun set => match set with 2%positive => [3; 6]%positive | _ => [] end)
    (fun get => match get with
                | 3%positive => [Some 2%positive]
                | 6%positive => [Some 2%positive; None]
                | _ => []
                end).

(** What the analysis of allocation 1 of [boxedArena] records. *)
Definition boxedAnalyzer : EscapeAnalyzer.Analyzer :=
  {| EscapeAnalyzer.sets := {[ 2%positive ]};
     EscapeAnalyzer.reachedInteractions :=
       list_to_map
         [ (1%positive, ParentChildInteraction.Flows);
           (2%positive, ParentChildInteraction.FullyConsumes);
           (3%positive, ParentChildInteraction.Flows);
           (6%positive, ParentChildInteraction.Flows);
           (7%positive, ParentChildInteraction.FullyConsumes) ] |}.

Definition boxedQueue : EscapeAnalyzer.FlowQueue :=
  {| EscapeAnalyzer.data := [];
     EscapeAnalyzer.processed :=
       {[ (1%positive, Some 2%positive); (3%positive, Some 7%positive);
          (6%positive, Some 7%positive) ]} |}.


(** The state in which the rewriter reaches the [ref.eq] of
    [boxedArena]. *)
Definition boxedRewrite : Rewriter.Rewrite :=
  {| Rewriter.arena := boxedArena;
     Rewriter.nextExpr := 10;
     Rewriter.function :=
       {| Rewriter.params := [];
          Rewriter.vars := [Tref 1 Nullable; Ti32] |};
     Rewriter.analyzer := boxedAnalyzer;
     Rewriter.refinalize := false;
     Rewriter.current := 7 |}.

(** An allocation compared with the result of code that never returns:
    [(drop (ref.eq (struct.new_default $1) (unreachable)))]. *)
Definition deadArena : Arena :=
  list_to_map
    [ (1%positive, expression (StructNew [] None) (Tref 1 NonNullable));
      (2%positive, expression Unreachable Tunreachable);
      (3%positive, expression (RefEq 1 2) Tunreachable);
      (4%positive, expression (Drop 3) Tunreachable) ].

Definition deadTables : Collaborators :=
  tables (fun e => match e with
                   | 1%positive | 2%positive => Some 3%positive
                   | 3%positive => Some 4%positive
                   | _ => None
                   end)
         (fun _ => []) (fun _ => []).

Definition deadAnalyzer : EscapeAnalyzer.Analyzer :=
  {| EscapeAnalyzer.sets := ∅;
     EscapeAnalyzer.reachedInteractions :=
       list_to_map
         [ (1%positive, ParentChildInteraction.Flows);
           (3%positive, ParentChildInteraction.FullyConsumes) ] |}.

Definition deadRewrite : Rewriter.Rewrite :=
  {| Rewriter.arena := deadArena;
     Rewriter.nextExpr := 5;
     Rewriter.function :=
       {| Rewriter.params := []; Rewriter.vars := [Ti32] |};
     Rewriter.analyzer := deadAnalyzer;
     Rewriter.refinalize := false;
     Rewriter.current := 3 |}.

(** An array of four slots read at index 5:
    [(drop (array.get $2 (array.new_default $2 (i32.const 4))
                         (i32.const 5)))]. *)
Definition arrayArena : Arena :=
  list_to_map
    [ (1%positive, expression (Const (LitI32 4)) Ti32);
      (2%positive, expression (ArrayNew None 1) (Tref 2 NonNullable));
      (3%positive, expression (Const (LitI32 5)) Ti32);
      (4%positive, expression (ArrayGet 2 3 false) Ti32);
      (5%positive, expression (Drop 4) Tnone) ].

Definition arrayTables : Collaborators :=
  tables (fun e => match e with
                   | 1%positive => Some 2%positive
                   | 2%positive | 3%positive => Some 4%positive
                   | 4%positive => Some 5%positive
                   | _ => None
                   end)
         (fun _ => []) (fun _ => []).

Definition arrayAnalyzer : EscapeAnalyzer.Analyzer :=
  {| EscapeAnalyzer.sets := ∅;
     EscapeAnalyzer.reachedInteractions :=
       list_to_map
         [ (2%positive, ParentChildInteraction.Flows);
           (4%positive, ParentChildInteraction.FullyConsumes) ] |}.

Definition arrayRewrite : Rewriter.Rewrite :=
  {| Rewriter.arena := arrayArena;
     Rewriter.nextExpr := 6;
     Rewriter.function := {| Rewriter.params := []; Rewriter.vars := [] |};
     Rewriter.analyzer := arrayAnalyzer;
     Rewriter.refinalize := false;
     Rewriter.current := 4 |}.

Definition arraySelf : Array2Struct.t :=
  {| Array2Struct.allocation := 2;
     Array2Struct.originalType := Tref 2 NonNullable;
     Array2Struct.numFields := 4 |}.

(** The same array written at index 4:
    [(array.set $2 (array.new_default $2 (i32.const 4)) (i32.const 4)
                   (i32.const 7))]. *)
Definition arraySetArena : Arena :=
  list_to_map
    [ (1%positive, expression (Const (LitI32 4)) Ti32);
      (2%positive, expression (ArrayNew None 1) (Tref 2 NonNullable));
      (3%positive, expression (Const (LitI32 4)) Ti32);
      (4%positive, expression (Const (LitI32 7)) Ti32);
      (5%positive, expression (ArraySet 2 3 4) Tnone) ].

Definition arraySetRewrite : Rewriter.Rewrite :=
  {| Rewriter.arena := arraySetArena;
     Rewriter.nextExpr := 6;
     Rewriter.function := {| Rewriter.params := []; Rewriter.vars := [] |};
     Rewriter.analyzer :=
       {| EscapeAnalyzer.sets := ∅;
          EscapeAnalyzer.reachedInteractions :=
            list_to_map
              [ (2%positive, ParentChildInteraction.Flows);
                (5%positive, ParentChildInteraction.FullyConsumes) ] |};
     Rewriter.refinalize := false;
     Rewriter.current := 5 |}.

(** A struct allocated with a descriptor read from a nullable local:
    [(drop (struct.new_desc $1 (i32.const 42) (local.get 0)))]. *)
Definition descArena : Arena :=
  list_to_map
    [ (1%positive, expression (LocalGet 0) (Tref 4 Nullable));
      (2%positive, expression (Const (LitI32 42)) Ti32);
      (3%positive, expression (StructNew [2]%positive (Some 1%positive))
                              (Tref 1 NonNullable));
      (4%positive, expression (Drop 3) Tnone) ].

Definition descTables : Collaborators :=
  tables (fun e => match e with
                   | 1%positive | 2%positive => Some 3%positive
                   | 3%positive => Some 4%positive
                   | _ => None
                   end)
         (fun _ => []) (fun _ => []).

Definition descAnalyzer : EscapeAnalyzer.Analyzer :=
  {| EscapeAnalyzer.sets := ∅;
     EscapeAnalyzer.reachedInteractions :=
       list_to_map
         [ (3%positive, ParentChildInteraction.Flows);
           (4%positive, ParentChildInteraction.FullyConsumes) ] |}.

(** The rewriter of that allocation, once its constructor has added the
    local of the field (1) and the local of the descriptor (2), at the
    point where the walk reaches the allocation. *)
Definition descSelf : Struct2Local.t :=
  {| Struct2Local.allocation := 3;
     Struct2Local.fields :=
       [ {| ftype := Ti32; fpacked := false; fmutable := true |} ];
     Struct2Local.localIndexes := [1; 2] |}.

Definition descRewrite : Rewriter.Rewrite :=
  {| Rewriter.arena := descArena;
     Rewriter.nextExpr := 5;
     Rewriter.function :=
       {| Rewriter.params := [];
          Rewriter.vars := [Tref 4 Nullable; Ti32; Tref 4 Nullable] |};
     Rewriter.analyzer := descAnalyzer;
     Rewriter.refinalize := false;
     Rewriter.current := 3 |}.


(** The flows of the analysis of allocation 1 of [boxedArena]. *)
Definition boxedFlows : gset EscapeAnalyzer.ChildAndParent :=
  {[ (1%positive, Some 2%positive); (3%positive, Some 7%positive);
     (6%positive, Some 7%positive) ]}.

(** A struct written to, with another struct as the value stored:
    [(struct.set $1 0 (struct.new_default $1) (struct.new_default $3))];
    expression 1 is the reference of the [struct.set] 3 and expression 6
    its value. *)
Definition storedArena : Arena :=
  list_to_map
    [ (1%positive, expression (StructNew [] None) (Tref 1 NonNullable));
      (6%positive, expression (StructNew [] None) (Tref 3 NonNullable));
      (3%positive, expression (StructSet 0 1 6) Tnone) ].

Definition storedTables : Collaborators :=
  tables (fun e => match e with
                   | 1%positive | 6%positive => Some 3%positive
                   | _ => None
                   end)
         (fun _ => []) (fun _ => []).

Definition storedAnalyzer : EscapeAnalyzer.Analyzer :=
  {| EscapeAnalyzer.sets := ∅;
     EscapeAnalyzer.reachedInteractions :=
       list_to_map
         [ (1%positive, ParentChildInteraction.Flows);
           (3%positive, ParentChildInteraction.FullyConsumes) ] |}.



(** A sequence of two instructions that ends unreachable. *)
Definition endingSequence : OutliningSequence :=
  {| startIdx := 1; endIdx := 3; func := "outline$0";
     endsTypeUnreachable := true |}.

(** A function whose first two instructions form that sequence, outlined
    into a callee with two parameters that has no body yet. *)
Definition paramSequence : Walker :=
  {| state := NotInSeq;
     sequences := [ endingSequence ];
     seqCounter := 0;
     instrCounter := 0;
     calls := [];
     paramCount := fun _ => 2;
     withBody := ∅;
     outlinedFunc := None |}.

(** The same function when the callee already has its body. *)
Definition laterSequence : Walker :=
  {| state := NotInSeq;
     sequences := sequences paramSequence;
     seqCounter := 0;
     instrCounter := 0;
     calls := [];
     paramCount := fun _ => 2;
     withBody := {[ "outline$0" ]};
     outlinedFunc := None |}.

(** A function whose third and fourth instructions form the sequence. *)
Definition beforeSequence : Walker :=
  {| state := NotInSeq;
     sequences := [ {| startIdx := 3; endIdx := 5; func := "outline$0";
                       endsTypeUnreachable := false |} ];
     seqCounter := 0;
     instrCounter := 0;
     calls := [];
     paramCount := fun _ => 0;
     withBody := ∅;
     outlinedFunc := None |}.

(** A program of two functions, [f] and [g], that share the
    instructions [(i32.const 1) (unreachable)]: in the stringified
    program, positions 0 and 4 are the separators that start the
    functions, and the two instructions are at positions 1-2 and 5-6. *)
Definition twinsArena : Arena :=
  list_to_map
    [ (1%positive, expression (Const (LitI32 1)) Ti32);
      (2%positive, expression Unreachable Tunreachable);
      (3%positive, expression Nop Tnone);
      (4%positive, expression (Const (LitI32 1)) Ti32);
      (5%positive, expression Unreachable Tunreachable) ].

Definition twinsExprs : list (option Expr) :=
  [None; Some 1; Some 2; Some 3; None; Some 4; Some 5]%positive.

Definition twinsRelative (idx : Z) : Z * Name :=
  if decide (idx < 4) then (idx, "f") else (idx - 4, "g").

Definition twinsSubstrings : Substrings :=
  [ {| Length := 2; StartIndices := [1; 5] |} ].

(** Stack signatures are kept as the list of the expressions composed. *)
Definition twinsFunctions : Functions (list Expr) :=
  [ Some {| name := "f"; signature := []; body := Some 6%positive |};
    Some {| name := "g"; signature := []; body := Some 7%positive |} ].

Definition twinsCallee : Function (list Expr) :=
  {| name := "outline$0"; signature := [1; 2]%positive; body := None |}.

Definition twinsSequences : gmap Name (list OutliningSequence) :=
  {[ "f" := [ {| startIdx := 1; endIdx := 3; func := "outline$0";
                 endsTypeUnreachable := true |} ];
     "g" := [ {| startIdx := 1; endIdx := 3; func := "outline$0";
                 endsTypeUnreachable := true |} ] ]}.

(** The first of [outline$0], [outline$1], ... that is not in use. *)
Definition freshName (names : list Name) : Name :=
  default "outline$"
    (head (filter (fun n => n ∉ names)
                  ["outline$0"; "outline$1"; "outline$2"])).

(** An allocation kept in a local and then used in every way the
    rewriter of structs handles:
    [(local.set 0 (struct.new_default $1))
     (ref.is_null (local.get 0))
     (ref.as_non_null (local.get 0))
     (ref.test (ref $1) (local.get 0))
     (ref.cast (ref $1) (local.get 0))
     (struct.set $1 0 (local.get 0) (i32.const 7))
     (struct.get $1 0 (local.get 0))
     (ref.cast (ref $3) (local.get 0))
     (block (result (ref $1)) (local.get 0))
     (nop)]. *)
Definition usesArena : Arena :=
  list_to_map
    [ (1%positive, expression (StructNew [] None) (Tref 1 NonNullable));
      (2%positive, expression (LocalSet 0 1) Tnone);
      (3%positive, expression (LocalGet 0) (Tref 1 Nullable));
      (4%positive, expression (RefIsNull 3) Ti32);
      (5%positive, expression (LocalGet 0) (Tref 1 Nullable));
      (6%positive, expression (RefAs RefAsNonNull 5) (Tref 1 NonNullable));
      (7%positive, expression (LocalGet 0) (Tref 1 Nullable));
      (8%positive, expression (RefTest 7 (Tref 1 NonNullable)) Ti32);
      (9%positive, expression (LocalGet 0) (Tref 1 Nullable));
      (10%positive, expression (RefCast 9 None) (Tref 1 NonNullable));
      (11%positive, expression (LocalGet 0) (Tref 1 Nullable));
      (12%positive, expression (Const (LitI32 7)) Ti32);
      (13%positive, expression (StructSet 0 11 12) Tnone);
      (14%positive, expression (LocalGet 0) (Tref 1 Nullable));
      (15%positive, expression (StructGet 0 14 false) Ti32);
      (16%positive, expression (LocalGet 0) (Tref 1 Nullable));
      (17%positive, expression (RefCast 16 None) (Tref 3 NonNullable));
      (18%positive, expression (LocalGet 0) (Tref 1 Nullable));
      (19%positive, expression (Block "" [18]%positive)
                               (Tref 1 NonNullable));
      (20%positive, expression Nop Tnone) ].

Definition usesAnalyzer : EscapeAnalyzer.Analyzer :=
  {| EscapeAnalyzer.sets := {[ 2%positive ]};
     EscapeAnalyzer.reachedInteractions :=
       list_to_map
         [ (1%positive, ParentChildInteraction.Flows);
           (2%positive, ParentChildInteraction.FullyConsumes);
           (3%positive, ParentChildInteraction.Flows);
           (4%positive, ParentChildInteraction.FullyConsumes);
           (5%positive, ParentChildInteraction.Flows);
           (6%positive, ParentChildInteraction.Flows);
           (7%positive, ParentChildInteraction.Flows);
           (8%positive, ParentChildInteraction.FullyConsumes);
           (9%positive, ParentChildInteraction.Flows);
           (10%positive, ParentChildInteraction.Flows);
           (11%positive, ParentChildInteraction.Flows);
           (13%positive, ParentChildInteraction.FullyConsumes);
           (14%positive, ParentChildInteraction.Flows);
           (15%positive, ParentChildInteraction.FullyConsumes);
           (16%positive, ParentChildInteraction.Flows);
           (17%positive, ParentChildInteraction.Flows);
           (18%positive, ParentChildInteraction.Flows);
           (19%positive, ParentChildInteraction.Flows) ] |}.

(** The rewriter of that allocation: local 1 stands for its field. *)
Definition usesSelf : Struct2Local.t :=
  {| Struct2Local.allocation := 1;
     Struct2Local.fields :=
       [ {| ftype := Ti32; fpacked := false; fmutable := true |} ];
     Struct2Local.localIndexes := [1] |}.

(** The state in which the walk reaches an expression of [usesArena]. *)
Definition usesAt (curr : Expr) : Rewriter.Rewrite :=
  {| Rewriter.arena := usesArena;
     Rewriter.nextExpr := 21;
     Rewriter.function :=
       {| Rewriter.params := [];
          Rewriter.vars := [Tref 1 Nullable; Ti32] |};
     Rewriter.analyzer := usesAnalyzer;
     Rewriter.refinalize := false;
     Rewriter.current := curr |}.

(** The least upper bound of a type with itself, and a packed field read
    left as it is: enough for code without packed fields or descriptor
    casts. *)
Definition sameType (t1 t2 : WType) : WType := t1.

Definition noUnpack (value : Expr) (field : Field) (signed : bool)
  : Rewriter.M Expr := Rewriter.ret value.

(** An array of four slots, read and written within bounds, tested and
    cast:
    [(array.get $2 (array.new_default $2 (i32.const 4)) (i32.const 3))
     (array.set $2 (..) (i32.const 3) (i32.const 9))
     (ref.test (ref $2) (..))
     (ref.cast (ref $2) (..))
     (ref.cast (ref $1) (..))]. *)
Definition arrayUsesArena : Arena :=
  list_to_map
    [ (1%positive, expression (Const (LitI32 4)) Ti32);
      (2%positive, expression (ArrayNew None 1) (Tref 2 NonNullable));
      (3%positive, expression (Const (LitI32 3)) Ti32);
      (4%positive, expression (ArrayGet 2 3 false) Ti32);
      (5%positive, expression (Const (LitI32 9)) Ti32);
      (6%positive, expression (ArraySet 2 3 5) Tnone);
      (7%positive, expression (RefTest 2 (Tref 2 NonNullable)) Ti32);
      (8%positive, expression (RefCast 2 None) (Tref 2 NonNullable));
      (9%positive, expression (RefCast 2 None) (Tref 1 NonNullable)) ].

Definition arrayUsesAt (curr : Expr) : Rewriter.Rewrite :=
  {| Rewriter.arena := arrayUsesArena;
     Rewriter.nextExpr := 10;
     Rewriter.function := {| Rewriter.params := []; Rewriter.vars := [] |};
     Rewriter.analyzer :=
       {| EscapeAnalyzer.sets := ∅;
          EscapeAnalyzer.reachedInteractions :=
            list_to_map
              [ (2%positive, ParentChildInteraction.Flows);
                (4%positive, ParentChildInteraction.FullyConsumes);
                (6%positive, ParentChildInteraction.FullyConsumes);
                (7%positive, ParentChildInteraction.FullyConsumes);
                (8%positive, ParentChildInteraction.Flows);
                (9%positive, ParentChildInteraction.Flows) ] |};
     Rewriter.refinalize := false;
     Rewriter.current := curr |}.


(** The walk over [descArena]: of its expressions, the allocation is the
    one with a visit that changes anything. *)
Definition descWalk (self : Struct2Local.t) : Rewriter.M unit :=
  Struct2Local.visitStructNew (H := descTables) self 3.

End Samples.

(** * Properties *)

(** ** Outlining *)

Section OutliningProperties.

Import Outlining.

Lemma wrap32_range z : 0 <= wrap32 z < 2 ^ 32.
Proof. unfold wrap32. apply Z.mod_pos_bound. lia. Qed.

Lemma wrap32_small z : 0 <= z < 2 ^ 32 -> wrap32 z = z.
Proof. intros Hz. unfold wrap32. apply Z.mod_small. exact Hz. Qed.

Lemma resize_shrink {A} (n : nat) (l1 l2 : list (option A)) :
  length l1 = n -> resize n (l1 ++ l2) = l1.
Proof.
  intros Hn. unfold resize.
  rewrite take_app_length' by done.
  rewrite length_app.
  replace (n - (length l1 + length l2))%nat with 0%nat by lia.
  simpl. apply app_nil_r.
Qed.

(** C10.  For a count no larger than the number of functions,
    [moveOutlinedFunctions] splits the function list into the leading
    functions and the last [outlinedCount] ones, and returns the last ones
    followed by the leading ones, each group in its order; the list keeps
    its length. *)
Theorem moveOutlinedFunctions_moves_tail_to_front {A}
    (functions : list (option A)) (outlinedCount : Z) :
  0 <= outlinedCount <= Z.of_nat (length functions) ->
  exists rest moved result,
    functions = rest ++ moved
    /\ Z.of_nat (length moved) = outlinedCount
    /\ moveOutlinedFunctions functions outlinedCount = Some result
    /\ result = moved ++ rest
    /\ length result = length functions.
Proof.
  intros Hk.
  set (n := length functions).
  set (k := Z.to_nat outlinedCount).
  exists (take (n - k) functions), (drop (n - k) functions),
         (drop (n - k) functions ++ take (n - k) functions).
  assert (Hlen : length (drop (n - k) functions) = k).
  { rewrite length_drop. subst n k. lia. }
  repeat split.
  - symmetry. apply take_drop.
  - rewrite Hlen. subst k. lia.
  - unfold moveOutlinedFunctions. fold n.
    destruct (decide (0 <= outlinedCount <= Z.of_nat n)) as [_|Hn];
      [|contradiction].
    unfold moveRange. fold k. f_equal.
    rewrite (assoc_L (++)).
    apply resize_shrink.
    rewrite length_app, Hlen, length_take. subst n k. lia.
  - rewrite !length_app, Hlen, length_take. subst n k. lia.
Qed.

Lemma moveOutlinedFunctions_moves_tail_to_front_witness :
  0 <= 2 <= Z.of_nat (length [Some 1; Some 2; Some 3; Some 4; Some 5])
  /\ exists rest moved result,
       [Some 1; Some 2; Some 3; Some 4; Some 5] = rest ++ moved
       /\ Z.of_nat (length moved) = 2
       /\ moveOutlinedFunctions [Some 1; Some 2; Some 3; Some 4; Some 5] 2
          = Some result
       /\ result = moved ++ rest
       /\ length result = length [Some 1; Some 2; Some 3; Some 4; Some 5].
Proof.
  split; [simpl; lia|].
  apply (moveOutlinedFunctions_moves_tail_to_front
           [Some 1; Some 2; Some 3; Some 4; Some 5] 2).
  simpl; lia.
Defined.

Example moveOutlinedFunctions_five :
  moveOutlinedFunctions [Some 1; Some 2; Some 3; Some 4; Some 5] 2
  = Some [Some 4; Some 5; Some 1; Some 2; Some 3].
Proof. reflexivity. Qed.

(** C8.  [Outlining::run] calls the processor six times, in this order:
    repeated substrings of the hash string, dedupe, overlap filter, branch
    filter, local.set filter, local.get filter; each stage after the first
    is given what the stage before it returned, and the substrings that
    are outlined are what the last stage returned. *)
Theorem runSubstrings_pipeline_order `{StringifyProcessor}
    (hashString : list Z) (exprs : list (option Expr)) :
  let s0 := repeatSubstrings hashString in
  let s1 := dedupe s0 in
  let s2 := filterOverlaps s1 in
  let s3 := filterBranches s2 exprs in
  let s4 := filterLocalSets s3 exprs in
  let s5 := filterLocalGets s4 exprs in
  runSubstrings hashString exprs
  = (s5,
     [ {| stage := RepeatSubstrings; given := None; returned := s0 |};
       {| stage := Dedupe; given := Some s0; returned := s1 |};
       {| stage := FilterOverlaps; given := Some s1; returned := s2 |};
       {| stage := FilterBranches; given := Some s2; returned := s3 |};
       {| stage := FilterLocalSets; given := Some s3; returned := s4 |};
       {| stage := FilterLocalGets; given := Some s4; returned := s5 |} ])
  /\ map stage (snd (runSubstrings hashString exprs))
     = [RepeatSubstrings; Dedupe; FilterOverlaps; FilterBranches;
        FilterLocalSets; FilterLocalGets].
Proof. split; reflexivity. Qed.

(** C9 (as amended).  When a sequence is active and the instruction counter
    reaches [endIdx - 1], [maybeEndSeq] leaves the walker in [NotInSeq]
    with [seqCounter] incremented, from [InSeq] and from [InSkipSeq]
    alike; from [InSeq] it makes one builder call, [visitEnd] on the
    outlined builder, and from [InSkipSeq] it makes none. *)
Theorem maybeEndSeq_at_end (w : Walker) (seq : OutliningSequence) :
  state w = InSeq \/ state w = InSkipSeq ->
  currentSeq w = Some seq ->
  wrap32 (instrCounter w + 1) = endIdx seq ->
  exists w',
    maybeEndSeq w = Some w'
    /\ state w' = NotInSeq
    /\ seqCounter w' = wrap32 (seqCounter w + 1)
    /\ calls w' = calls w ++ (if decide (state w = InSeq)
                              then [(outlinedBuilder, visitEnd)] else [])
    /\ instrCounter w' = instrCounter w
    /\ sequences w' = sequences w.
Proof.
  intros Hstate Hseq Hend.
  unfold maybeEndSeq. rewrite Hseq. simpl.
  destruct (decide (wrap32 (instrCounter w + 1) = endIdx seq)) as [_|Hne];
    [|contradiction].
  eexists. split; [reflexivity|].
  unfold transitionToNotInSeq.
  destruct (decide (state w = InSeq)) as [Hin|Hout]; simpl.
  - repeat split; reflexivity.
  - repeat split; try reflexivity. symmetry. apply app_nil_r.
Qed.

Lemma maybeEndSeq_at_end_witness :
  (state Samples.skippedSequence = InSeq
   \/ state Samples.skippedSequence = InSkipSeq)
  /\ exists w',
       maybeEndSeq Samples.skippedSequence = Some w'
       /\ state w' = NotInSeq
       /\ seqCounter w' = wrap32 (seqCounter Samples.skippedSequence + 1)
       /\ calls w'
          = calls Samples.skippedSequence
            ++ (if decide (state Samples.skippedSequence = InSeq)
                then [(outlinedBuilder, visitEnd)] else [])
       /\ instrCounter w' = instrCounter Samples.skippedSequence
       /\ sequences w' = sequences Samples.skippedSequence.
Proof.
  split; [right; reflexivity|].
  apply (maybeEndSeq_at_end Samples.skippedSequence
           {| startIdx := 1; endIdx := 3; func := "outline$0";
              endsTypeUnreachable := false |}).
  - right; reflexivity.
  - reflexivity.
  - reflexivity.
Defined.

(** C9, the claim as stated fails: at the last instruction of a sequence
    being outlined, the walker ends the callee with [visitEnd] alone; no
    [build] is called on the outlined builder, neither there nor anywhere
    in the walk over the sequence. *)
Lemma maybeEndSeq_calls_no_build :
  state Samples.insideSequence = InSeq
  /\ wrap32 (instrCounter Samples.insideSequence + 1) = 2
  /\ exists w',
       visitExpression (VPlain 2%positive) Samples.insideSequence = Some w'
       /\ state w' = NotInSeq
       /\ calls w'
          = [ (outlinedBuilder, visitFunctionStart "outline$0");
              (existingBuilder, makeCall "outline$0" false);
              (outlinedBuilder, visit 1%positive);
              (outlinedBuilder, visit 2%positive);
              (outlinedBuilder, visitEnd) ]
       /\ (outlinedBuilder, build) ∉ calls w'.
Proof.
  split; [reflexivity|]. split; [reflexivity|].
  eexists. split; [vm_compute; reflexivity|].
  split; [reflexivity|]. split; [reflexivity|].
  intros Hin. simpl in Hin.
  repeat (apply elem_of_cons in Hin as [Hin|Hin]; [discriminate Hin|]).
  by apply elem_of_nil in Hin.
Qed.

End OutliningProperties.

(** ** The escape analysis *)

Section EscapeProperties.

Import EscapeAnalyzer.

(** C3 (as amended).  When the parent is an [if], the interaction is
    [Escapes], whatever the child, the allocation and the type of the
    [if]: the checker has no case for [if] and keeps its initial verdict.
    In particular it is never [Flows] and never [Mixes]. *)
Theorem if_parent_escapes `{Collaborators} (a : Arena)
    (allocation parent child condition ifTrue : Expr)
    (ifFalse : option Expr) :
  kindOf a parent = If condition ifTrue ifFalse ->
  getParentChildInteraction a allocation (Some parent) child
  = ParentChildInteraction.Escapes.
Proof.
  intros Hk. unfold getParentChildInteraction, Checker.visit.
  rewrite Hk. reflexivity.
Qed.

Lemma if_parent_escapes_witness :
  kindOf Samples.ifArena 4%positive = If 2 1 (Some 3%positive)
  /\ getParentChildInteraction (H := Samples.ifTables) Samples.ifArena
       1%positive (Some 4%positive) 1%positive
     = ParentChildInteraction.Escapes.
Proof.
  split; [reflexivity|].
  apply (if_parent_escapes (H := Samples.ifTables) Samples.ifArena
           1 4 1 2 1 (Some 3%positive)).
  reflexivity.
Defined.

(** C3, the claim as stated fails: an [if] of reference type, whose type
    does not show that the value stops there, with the allocation as one
    arm, is classified [Escapes], not [Mixes]. *)
Lemma if_parent_is_not_mixes :
  kindOf Samples.ifArena 4%positive = If 2 1 (Some 3%positive)
  /\ isRef (typeOf Samples.ifArena 4%positive) = true
  /\ getParentChildInteraction (H := Samples.ifTables) Samples.ifArena
       1%positive (Some 4%positive) 1%positive
     <> ParentChildInteraction.Mixes.
Proof.
  split; [reflexivity|]. split; [reflexivity|].
  vm_compute. discriminate.
Qed.

Section AnalysisProperties.
Context `{Collaborators}.

Local Set Warnings "-clear-no-such-hyp".
Variable a : Arena.

Lemma getsAreExclusiveToSets_spec (an : Analyzer) :
  getsAreExclusiveToSets an = true <-> getsExclusive an.
Proof.
  unfold getsAreExclusiveToSets, getsExclusive.
  rewrite forallb_forall. split.
  - intros Hall set get other Hset Hget Hother.
    assert (Hin : In get (elements (list_to_set
               (flat_map getSetInfluences (elements (sets an)))
               : gset Expr))).
    { apply list_elem_of_In, elem_of_elements, elem_of_list_to_set.
      apply list_elem_of_In, in_flat_map. exists set. split.
      - by apply list_elem_of_In, elem_of_elements.
      - by apply list_elem_of_In. }
    specialize (Hall get Hin). rewrite forallb_forall in Hall.
    specialize (Hall other (proj1 (list_elem_of_In _ _) Hother)).
    destruct other as [s|]; [|discriminate].
    exists s. split; [done|]. by apply bool_decide_eq_true in Hall.
  - intros Hex get Hin. rewrite forallb_forall. intros other Hother.
    apply list_elem_of_In, elem_of_elements, elem_of_list_to_set in Hin.
    apply list_elem_of_In, in_flat_map in Hin as (set & Hset & Hget).
    apply list_elem_of_In, elem_of_elements in Hset.
    apply list_elem_of_In in Hget, Hother.
    destruct (Hex set get other Hset Hget Hother) as (s & -> & Hs).
    by apply bool_decide_eq_true.
Qed.

Lemma processed_push (item : ChildAndParent) (q : FlowQueue) :
  processed (push item q) = processed q.
Proof. unfold push. by case_decide. Qed.

Lemma processed_pushAll (items : list ChildAndParent) (q : FlowQueue) :
  processed (pushAll items q) = processed q.
Proof.
  unfold pushAll. revert q.
  induction items as [|item items IH]; intros q; simpl; [done|].
  by rewrite IH, processed_push.
Qed.

Lemma data_push (item : ChildAndParent) (q : FlowQueue) :
  data q ⊆ data (push item q).
Proof.
  unfold push. case_decide; [done|]. simpl.
  intros x Hx. apply elem_of_app. by left.
Qed.

Lemma data_pushAll (items : list ChildAndParent) (q : FlowQueue) :
  data q ⊆ data (pushAll items q).
Proof.
  unfold pushAll. revert q.
  induction items as [|item items IH]; intros q; simpl; [done|].
  etrans; [apply data_push|apply IH].
Qed.

Lemma processed_pop (q q' : FlowQueue) (item : ChildAndParent) :
  pop q = Some (item, q') -> processed q' = {[ item ]} ∪ processed q.
Proof.
  unfold pop. destruct (popData (data q)) as [[i rest]|]; [|discriminate].
  by intros [= <- <-].
Qed.

Lemma empty_data (q : FlowQueue) : empty q = true -> data q = [].
Proof. unfold empty. by destruct (data q). Qed.

Lemma getParentChildInteraction_cases (allocation : Expr)
    (parent : option Expr) (child : Expr) :
  let i := getParentChildInteraction a allocation parent child in
  i = ParentChildInteraction.Escapes \/ i = ParentChildInteraction.Mixes
  \/ ((i = ParentChildInteraction.Flows
       \/ i = ParentChildInteraction.FullyConsumes)
      /\ is_Some parent).
Proof.
  unfold getParentChildInteraction.
  destruct parent as [parent|]; [|by left].
  repeat case_match; eauto 6.
Qed.

(** What a turn of the loop that does not return has done. *)
Lemma flowStep_inr (allocation child : Expr) (parent : option Expr)
    (an an' : Analyzer) (q q' : FlowQueue) :
  flowStep a allocation (child, parent) an q = inr (an', q') ->
  exists p i,
    parent = Some p
    /\ (i = ParentChildInteraction.Flows
        \/ i = ParentChildInteraction.FullyConsumes)
    /\ reachedInteractions an'
       = <[p := i]> (<[child := ParentChildInteraction.Flows]>
                       (reachedInteractions an))
    /\ processed q' = processed q
    /\ sets an ⊆ sets an'
    /\ data q ⊆ data q'.
Proof.
  unfold flowStep.
  pose proof (getParentChildInteraction_cases allocation parent child)
    as Hcases. simpl in Hcases.
  set (interaction := getParentChildInteraction a allocation parent child)
    in *.
  destruct (decide (interaction = ParentChildInteraction.Escapes
                    \/ interaction = ParentChildInteraction.Mixes))
    as [|Hok]; [discriminate|].
  destruct parent as [parent|]; [|discriminate].
  assert (Hi : interaction = ParentChildInteraction.Flows
               \/ interaction = ParentChildInteraction.FullyConsumes)
    by tauto.
  destruct (kindOf a parent); intros [= <- <-];
    exists parent, interaction; simpl;
    rewrite ?processed_pushAll;
    (destruct (decide (interaction = ParentChildInteraction.Flows));
     rewrite ?processed_push);
    repeat split; auto; try set_solver;
    repeat (etrans; [|apply data_pushAll]); try apply data_push; done.
Qed.

(** One turn of the loop that does not return keeps the reached map and
    the worklist well formed. *)
Lemma flowStep_reachedWellFormed (allocation : Expr)
    (flow : ChildAndParent) (an an' : Analyzer) (q q0 q' : FlowQueue) :
  reachedWellFormed an q0 ->
  processed q = {[ flow ]} ∪ processed q0 ->
  flowStep a allocation flow an q = inr (an', q') ->
  reachedWellFormed an' q'.
Proof.
  intros [Hvals Hkeys] Hq. destruct flow as [child parent].
  intros (p & i & -> & Hi & Hreached & Hproc & _)%flowStep_inr.
  split; rewrite Hreached.
  - intros e j.
    rewrite !lookup_insert. repeat case_decide; naive_solver.
  - intros c p'. rewrite Hproc, Hq.
    intros [Hin%elem_of_singleton|Hin]%elem_of_union.
    + injection Hin as -> ->. split.
      * rewrite !lookup_insert_is_Some'. tauto.
      * exists p. split; [done|]. rewrite lookup_insert_is_Some'. tauto.
    + destruct (Hkeys c p' Hin) as [Hc (p0 & -> & Hp)]. split.
      * rewrite !lookup_insert_is_Some'. tauto.
      * exists p0. split; [done|]. rewrite !lookup_insert_is_Some'. tauto.
Qed.

Lemma flowLoop_reachedWellFormed (fuel : nat) (allocation : Expr) :
  forall (an an' : Analyzer) (q q' : FlowQueue),
    reachedWellFormed an q ->
    flowLoop a fuel allocation an q = Some (false, an', q') ->
    reachedWellFormed an' q' /\ data q' = []
    /\ processed q ⊆ processed q'.
Proof.
  induction fuel as [|fuel IH]; intros an an' q q' Hwf; simpl.
  - destruct (empty q) eqn:He; [|discriminate].
    intros [= <- <-]. by split; [|split; [apply empty_data|]].
  - destruct (empty q) eqn:He.
    { intros [= <- <-]. by split; [|split; [apply empty_data|]]. }
    destruct (pop q) as [[flow q1]|] eqn:Hpop; [|discriminate].
    destruct (flowStep a allocation flow an q1) as [[an1 q2]|[an1 q2]]
      eqn:Hstep; [discriminate|].
    intros Hloop.
    pose proof (processed_pop _ _ _ Hpop) as Hproc.
    pose proof (flowStep_reachedWellFormed _ _ _ _ _ _ _ Hwf Hproc Hstep)
      as Hwf1.
    destruct (IH _ _ _ _ Hwf1 Hloop) as (Hwf' & Hdata & Hsub).
    split; [done|]. split; [done|].
    destruct flow as [child parent].
    apply flowStep_inr in Hstep as (_ & _ & _ & _ & _ & Hq2 & _).
    set_solver.
Qed.

Lemma popData_elem (l rest : list ChildAndParent) (item : ChildAndParent) :
  popData l = Some (item, rest) ->
  forall x, x ∈ l -> x = item \/ x ∈ rest.
Proof.
  revert rest. induction l as [|y l IH]; intros rest; simpl; [done|].
  destruct (decide (y ∈ l)) as [Hy|Hy].
  - intros Hpop x [->|Hx]%elem_of_cons; eauto.
  - intros [= <- <-] x [->|Hx]%elem_of_cons; eauto.
Qed.

(** When the loop runs to its end, every flow that was pending has been
    handled. *)
Lemma flowLoop_drains (fuel : nat) (allocation : Expr) :
  forall (an an' : Analyzer) (q q' : FlowQueue),
    flowLoop a fuel allocation an q = Some (false, an', q') ->
    forall x, x ∈ data q \/ x ∈ processed q -> x ∈ processed q'.
Proof.
  induction fuel as [|fuel IH]; intros an an' q q'; simpl.
  - destruct (empty q) eqn:He; [|discriminate].
    intros [= <- <-] x [Hx|Hx]; [|done].
    rewrite (empty_data _ He) in Hx. by apply elem_of_nil in Hx.
  - destruct (empty q) eqn:He.
    { intros [= <- <-] x [Hx|Hx]; [|done].
      rewrite (empty_data _ He) in Hx. by apply elem_of_nil in Hx. }
    destruct (pop q) as [[flow q1]|] eqn:Hpop; [|discriminate].
    destruct (flowStep a allocation flow an q1) as [[an1 q2]|[an1 q2]]
      eqn:Hstep; [discriminate|].
    intros Hloop x Hx. apply (IH _ _ _ _ Hloop).
    pose proof (processed_pop _ _ _ Hpop) as Hproc.
    destruct flow as [child parent].
    apply flowStep_inr in Hstep as (_ & _ & _ & _ & _ & Hq2 & _ & Hdata).
    rewrite Hq2, Hproc.
    destruct Hx as [Hx|Hx]; [|set_solver].
    unfold pop in Hpop.
    destruct (popData (data q)) as [[i rest]|] eqn:Hd; [|discriminate].
    injection Hpop as <- <-.
    destruct (popData_elem _ _ _ Hd x Hx) as [->|Hrest]; [set_solver|].
    left. by apply Hdata.
Qed.

(** The result of the loop does not depend on the fuel, once there is
    enough of it. *)
Lemma flowLoop_more_fuel (fuel : nat) (allocation : Expr) :
  forall (an : Analyzer) (q : FlowQueue) r,
    flowLoop a fuel allocation an q = Some r ->
    flowLoop a (S fuel) allocation an q = Some r.
Proof.
  induction fuel as [|fuel IH]; intros an q r.
  - simpl. by destruct (empty q).
  - intros Hrun. simpl in Hrun. change (flowLoop a (S (S fuel)) allocation an q)
      with (if empty q then Some (false, an, q)
            else match pop q with
                 | Datatypes.None => Datatypes.None
                 | Some (flow, flows) =>
                     match flowStep a allocation flow an flows with
                     | inl (an, flows) => Some (true, an, flows)
                     | inr (an, flows) =>
                         flowLoop a (S fuel) allocation an flows
                     end
                 end).
    destruct (empty q); [done|].
    destruct (pop q) as [[flow q1]|]; [|done].
    destruct (flowStep a allocation flow an q1) as [[an1 q2]|[an1 q2]];
      [done|].
    by apply IH.
Qed.

(** C1.  When the worklist drains, [escapes] returns false exactly when
    the gets are exclusive to the recorded sets, and true exactly when
    some get influenced by a recorded set may read something else: a set
    that is not recorded, or the value the local holds before any set. *)
Theorem escapes_iff_gets_exclusive (fuel : nat) (allocation : Expr)
    (an : Analyzer) (flows : FlowQueue) :
  flowsOf a fuel allocation = Some (false, an, flows) ->
  (escapes a fuel allocation = Some (false, an) <-> getsExclusive an)
  /\ (escapes a fuel allocation = Some (true, an) <-> ~ getsExclusive an)
  /\ ((exists set get other,
         set ∈ sets an /\ get ∈ getSetInfluences set
         /\ other ∈ getSets get
         /\ forall s, other = Some s -> s ∉ sets an) ->
      escapes a fuel allocation = Some (true, an)).
Proof.
  intros Hflows.
  assert (Hnot : (exists set get other,
                    set ∈ sets an /\ get ∈ getSetInfluences set
                    /\ other ∈ getSets get
                    /\ forall s, other = Some s -> s ∉ sets an) ->
                 ~ getsExclusive an).
  { intros (set & get & other & Hset & Hget & Hother & Hout) Hex.
    destruct (Hex set get other Hset Hget Hother) as (s & Hs & Hin).
    by apply (Hout s). }
  revert Hnot. unfold escapes. rewrite Hflows.
  rewrite <- getsAreExclusiveToSets_spec.
  destruct (getsAreExclusiveToSets an); simpl; intros Hnot;
    repeat split; try done; try congruence.
  intros Hbad. by destruct (Hnot Hbad).
Qed.

(** C2.  When [escapes] returns false, the loop ran to its end over some
    worklist; every entry of the reached map is [Flows] or
    [FullyConsumes]; the child and the parent of every flow the loop
    handled have an entry, and the flow out of the allocation is one of
    those. *)
Theorem escapes_false_reached_well_formed (fuel : nat) (allocation : Expr)
    (an : Analyzer) :
  escapes a fuel allocation = Some (false, an) ->
  exists flows,
    flowsOf a fuel allocation = Some (false, an, flows)
    /\ reachedWellFormed an flows
    /\ (allocation, getParent allocation) ∈ processed flows
    /\ is_Some (reachedInteractions an !! allocation).
Proof.
  unfold escapes.
  destruct (flowsOf a fuel allocation) as [[[early an'] flows]|] eqn:Hflows;
    [|discriminate].
  destruct early; [by intros [= ?]|].
  destruct (negb (getsAreExclusiveToSets an')); intros [= <-].
  exists flows. split; [done|].
  unfold flowsOf in Hflows.
  assert (Hinit : reachedWellFormed newAnalyzer
            (push (allocation, getParent allocation) emptyQueue)).
  { split; simpl.
    - intros e i. by rewrite lookup_empty.
    - intros c p. rewrite processed_push. simpl. set_solver. }
  destruct (flowLoop_reachedWellFormed _ _ _ _ _ _ Hinit Hflows)
    as (Hwf & _ & _).
  assert (Hin : (allocation, getParent allocation) ∈ processed flows).
  { apply (flowLoop_drains _ _ _ _ _ _ Hflows). left.
    unfold push. simpl. rewrite decide_False by set_solver.
    simpl. apply list_elem_of_here. }
  split; [done|]. split; [done|].
  by destruct (proj2 Hwf _ _ Hin).
Qed.

End AnalysisProperties.

Lemma escapes_iff_gets_exclusive_witness :
  flowsOf (H := Samples.boxedTables) Samples.boxedArena 10 1%positive
  = Some (false, Samples.boxedAnalyzer, Samples.boxedQueue)
  /\ (escapes (H := Samples.boxedTables) Samples.boxedArena 10 1%positive
      = Some (false, Samples.boxedAnalyzer)
      <-> getsExclusive (H := Samples.boxedTables) Samples.boxedAnalyzer)
  /\ (escapes (H := Samples.boxedTables) Samples.boxedArena 10 1%positive
      = Some (true, Samples.boxedAnalyzer)
      <-> ~ getsExclusive (H := Samples.boxedTables) Samples.boxedAnalyzer)
  /\ ((exists set get other,
         set ∈ sets Samples.boxedAnalyzer
         /\ get ∈ getSetInfluences (Collaborators := Samples.boxedTables) set
         /\ other ∈ getSets (Collaborators := Samples.boxedTables) get
         /\ forall s, other = Some s -> s ∉ sets Samples.boxedAnalyzer) ->
      escapes (H := Samples.boxedTables) Samples.boxedArena 10 1%positive
      = Some (true, Samples.boxedAnalyzer)).
Proof.
  split; [vm_compute; reflexivity|].
  apply (escapes_iff_gets_exclusive (H := Samples.boxedTables)
           Samples.boxedArena 10 1%positive
           Samples.boxedAnalyzer Samples.boxedQueue).
  vm_compute; reflexivity.
Defined.

Example boxed_allocation_does_not_escape :
  escapes (H := Samples.boxedTables) Samples.boxedArena 10 1%positive
  = Some (false, Samples.boxedAnalyzer).
Proof. vm_compute. reflexivity. Qed.

(** The same allocation when a get of its local may also read the value
    the local had on entry: the worklist drains as before, and the
    analysis fails on get-exclusivity. *)
Example shared_local_escapes :
  flowsOf (H := Samples.sharedTables) Samples.boxedArena 10 1%positive
  = Some (false, Samples.boxedAnalyzer, Samples.boxedQueue)
  /\ escapes (H := Samples.sharedTables) Samples.boxedArena 10 1%positive
     = Some (true, Samples.boxedAnalyzer).
Proof. split; vm_compute; reflexivity. Qed.

Lemma escapes_false_reached_well_formed_witness :
  escapes (H := Samples.boxedTables) Samples.boxedArena 10 1%positive
  = Some (false, Samples.boxedAnalyzer)
  /\ exists flows,
       flowsOf (H := Samples.boxedTables) Samples.boxedArena 10 1%positive
       = Some (false, Samples.boxedAnalyzer, flows)
       /\ reachedWellFormed Samples.boxedAnalyzer flows
       /\ (1%positive, getParent (Collaborators := Samples.boxedTables)
                         1%positive) ∈ processed flows
       /\ is_Some (reachedInteractions Samples.boxedAnalyzer !! 1%positive).
Proof.
  split; [vm_compute; reflexivity|].
  apply (escapes_false_reached_well_formed (H := Samples.boxedTables)
           Samples.boxedArena 10 1%positive Samples.boxedAnalyzer).
  vm_compute; reflexivity.
Defined.

End EscapeProperties.

(** ** The allocations the pass considers *)

Section FinderProperties.

Import AllocationFinder.

Lemma wrap32_idem z : wrap32 (wrap32 z) = wrap32 z.
Proof. unfold wrap32. apply Z.mod_mod. lia. Qed.

Lemma isValidSizeExpr_true (a : Arena) (size : Expr) :
  isValidSizeExpr a size = true ->
  exists c u, asConst a size = Some c /\ getUnsigned c = Some u
              /\ wrap32 u < 20
              /\ (forall z, c = LitI32 z -> wrap32 z < 20).
Proof.
  unfold isValidSizeExpr, isValidSize.
  destruct (asConst a size) as [c|]; [|discriminate].
  destruct (getUnsigned c) as [u|] eqn:Hu; [|discriminate].
  intros Hlt%bool_decide_eq_true.
  exists c, u. repeat split; try done.
  intros z ->. simpl in Hu. injection Hu as <-.
  by rewrite wrap32_idem in Hlt.
Qed.

Lemma visit_arrayNews (a : Arena) (curr : Expr) (f : t) (e : Expr) :
  e ∈ arrayNews (visit a curr f) ->
  e ∈ arrayNews f \/ (e = curr /\ validArrayNew a curr).
Proof.
  unfold visit.
  destruct (kindOf a curr) as [| | | | | | | | | | | | | | | | | | | |
    | | | | |ini size|values| | | | |] eqn:Hk; simpl; auto.
  - unfold visitStructNew. case_decide; simpl; auto.
  - unfold visitArrayNew.
    destruct (bool_decide _ && _) eqn:Hc; simpl; auto.
    apply andb_prop in Hc as [Hty%bool_decide_eq_true Hsize].
    intros [Hin|Hin%list_elem_of_singleton]%elem_of_app; auto.
    right. split; [done|]. split; [done|]. left.
    destruct (isValidSizeExpr_true _ _ Hsize) as (c & u & ? & ? & ? & ?).
    exists ini, size, c, u. done.
  - unfold visitArrayNewFixed.
    destruct (bool_decide _ && _) eqn:Hc; simpl; auto.
    apply andb_prop in Hc as [Hty%bool_decide_eq_true Hsize].
    intros [Hin|Hin%list_elem_of_singleton]%elem_of_app; auto.
    right. split; [done|]. split; [done|]. right.
    exists values. split; [done|].
    by apply bool_decide_eq_true in Hsize.
Qed.

Lemma foldl_visit_arrayNews (a : Arena) (order : list Expr) (f : t) :
  (forall e, e ∈ arrayNews f -> validArrayNew a e) ->
  forall e, e ∈ arrayNews (foldl (fun f curr => visit a curr f) f order) ->
            validArrayNew a e.
Proof.
  revert f. induction order as [|curr order IH]; intros f Hf e; simpl.
  - apply Hf.
  - apply IH. intros e' [Hin|[-> Hv]]%visit_arrayNews; auto.
Qed.

(** C7.  An array allocation the pass analyses was collected by the
    finder, and an array allocation the finder collects has a type other
    than unreachable and a size known and below 20: an [array.new] has as
    its size a constant whose unsigned value is below 20, an
    [array.new_fixed] has fewer than 20 values.  So an [array.new] whose
    size is not a constant, or is a constant of 20 or more, is never a
    candidate. *)
Theorem array_candidates_have_small_constant_size `{Collaborators}
    (a : Arena) (order : list Expr) (e : Expr) :
  e ∈ Heap2Local.arrayCandidates a order ->
  e ∈ arrayNews (walk a order) /\ validArrayNew a e.
Proof.
  unfold Heap2Local.arrayCandidates.
  intros [_ Hin]%list_elem_of_filter. split; [done|].
  revert e Hin. apply foldl_visit_arrayNews.
  intros e Hin. simpl in Hin. by apply elem_of_nil in Hin.
Qed.

Lemma array_candidates_have_small_constant_size_witness :
  2%positive ∈ Heap2Local.arrayCandidates (H := Samples.noTables)
                 Samples.arraysArena Samples.arraysOrder
  /\ 2%positive ∈ arrayNews (walk Samples.arraysArena Samples.arraysOrder)
  /\ validArrayNew Samples.arraysArena 2%positive.
Proof.
  assert (Hin : 2%positive ∈ Heap2Local.arrayCandidates
                  (H := Samples.noTables)
                  Samples.arraysArena Samples.arraysOrder).
  { vm_compute. apply list_elem_of_here. }
  split; [exact Hin|].
  exact (array_candidates_have_small_constant_size
           (H := Samples.noTables) _ _ _ Hin).
Defined.

Example arrayNews_of_sample :
  arrayNews (walk Samples.arraysArena Samples.arraysOrder)
  = [2; 7]%positive.
Proof. vm_compute. reflexivity. Qed.

End FinderProperties.

(** ** The rewriters *)

Section RewriterProperties.

Import EscapeAnalyzer Rewriter.
Local Open Scope rewrite_scope.

Lemma wp_elim {A} (m : M A) (s : Rewrite) (Q : A -> Rewrite -> Prop) :
  wp m s Q -> exists x s', m s = Some (x, s') /\ Q x s'.
Proof.
  unfold wp. destruct (m s) as [[x s']|]; [eauto|done].
Qed.

Lemma wp_mono {A} (m : M A) (s : Rewrite) (Q Q' : A -> Rewrite -> Prop) :
  wp m s Q -> (forall x s', Q x s' -> Q' x s') -> wp m s Q'.
Proof.
  unfold wp. destruct (m s) as [[x s']|]; [eauto|done].
Qed.

Lemma wp_ret {A} (x : A) (s : Rewrite) (Q : A -> Rewrite -> Prop) :
  Q x s -> wp (ret x) s Q.
Proof. done. Qed.

Lemma wp_bind {A B} (m : M A) (k : A -> M B) (s : Rewrite)
    (Q : B -> Rewrite -> Prop) :
  wp m s (fun x s' => wp (k x) s' Q) -> wp (bind m k) s Q.
Proof.
  unfold wp, bind. by destruct (m s) as [[x s']|].
Qed.

Lemma wp_gets {A} (f : Rewrite -> A) (s : Rewrite)
    (Q : A -> Rewrite -> Prop) :
  Q (f s) s -> wp (gets f) s Q.
Proof. done. Qed.

Lemma wp_lift {A} (o : option A) (x : A) (s : Rewrite)
    (Q : A -> Rewrite -> Prop) :
  o = Some x -> Q x s -> wp (lift o) s Q.
Proof. by intros ->. Qed.

Lemma wp_assert (b : bool) (s : Rewrite) (Q : unit -> Rewrite -> Prop) :
  b = true -> Q tt s -> wp (assert b) s Q.
Proof. by intros ->. Qed.

Lemma grows_refl (s : Rewrite) : grows s s.
Proof. by split. Qed.

Lemma grows_trans (s1 s2 s3 : Rewrite) :
  grows s1 s2 -> grows s2 s3 -> grows s1 s3.
Proof.
  intros [] []. split; try congruence.
  - by etrans.
  - intros e He. rewrite grows_arena1 by lia. by apply grows_arena0.
  - by etrans.
Qed.

Lemma placed_grows (s s' : Rewrite) (x : Expr) (e : Expression) :
  grows s s' -> placed s x e -> placed s' x e.
Proof.
  intros Hg [Hlt He]. split.
  - pose proof (grows_next _ _ Hg). lia.
  - by rewrite (grows_arena _ _ Hg).
Qed.

Lemma deref_grows (s s' : Rewrite) (x : Expr) :
  grows s s' -> (x < nextExpr s)%positive ->
  typeOf (arena s') x = typeOf (arena s) x
  /\ kindOf (arena s') x = kindOf (arena s) x.
Proof.
  intros Hg Hx. unfold typeOf, kindOf.
  by rewrite (grows_arena _ _ Hg).
Qed.

(** [alloc] places the expression at a fresh address and leaves the rest
    of the state alone. *)
Lemma wp_alloc (e : Expression) (s : Rewrite) (Q : Expr -> Rewrite -> Prop) :
  (forall s', grows s s' -> placed s' (nextExpr s) e ->
              nextExpr s' = Pos.succ (nextExpr s) ->
              function s' = function s ->
              Q (nextExpr s) s') ->
  wp (alloc e) s Q.
Proof.
  intros HQ. unfold wp, alloc. apply HQ; simpl; try done.
  - split; simpl; try done; [lia|].
    intros x Hx. unfold deref.
    rewrite lookup_total_insert_ne by lia. done.
  - split; simpl; [lia|]. unfold deref. by rewrite lookup_total_insert_eq.
Qed.

Lemma wp_modify (f : Rewrite -> Rewrite) (s : Rewrite)
    (Q : unit -> Rewrite -> Prop) :
  Q tt (f s) -> wp (modify f) s Q.
Proof. done. Qed.

(** [replaceCurrent] needs the expression it replaces to be in the
    reached map; it hands the interaction over unless the replacement is
    unreachable, and puts the replacement in the slot. *)
Lemma wp_replaceCurrent (expression : Expr) (i : Interaction) (s : Rewrite)
    (Q : Expr -> Rewrite -> Prop) :
  reachedInteractions (analyzer s) !! current s = Some i ->
  (forall s',
     nextExpr s' = nextExpr s ->
     arena s' = arena s ->
     function s' = function s ->
     refinalize s' = refinalize s ->
     current s' = expression ->
     sets (analyzer s') = sets (analyzer s) ->
     reachedInteractions (analyzer s')
     = (if decide (typeOf (arena s) expression = Tunreachable)
        then reachedInteractions (analyzer s)
        else <[expression := i]> (reachedInteractions (analyzer s))) ->
     Q expression s') ->
  wp (replaceCurrent expression) s Q.
Proof.
  intros Hi HQ.
  unfold replaceCurrent, applyOldInteractionToReplacement, typeOfM,
    setReached.
  apply wp_bind, wp_gets, wp_bind, wp_bind, wp_gets.
  apply wp_bind, (wp_lift _ i); [done|].
  apply wp_bind, wp_gets.
  destruct (decide (typeOf (arena s) expression = Tunreachable)) as [Hu|Hu].
  - apply wp_ret, wp_bind, wp_modify, wp_ret.
    apply HQ; simpl; done.
  - apply wp_modify, wp_bind, wp_modify, wp_ret.
    apply HQ; simpl; done.
Qed.

Lemma placed_same (s s' : Rewrite) (x : Expr) (e : Expression) :
  nextExpr s' = nextExpr s -> arena s' = arena s ->
  placed s x e -> placed s' x e.
Proof. unfold placed. by intros -> ->. Qed.

(** A reached [ref.eq] whose type is not unreachable is replaced by a
    block of two drops and a constant. *)
Lemma visitRefEq_reachable (s : Rewrite)
    (curr lhs rhs : Expr) :
  getInteraction (analyzer s) curr <> ParentChildInteraction.None ->
  typeOf (arena s) curr <> Tunreachable ->
  kindOf (arena s) curr = RefEq lhs rhs ->
  current s = curr ->
  exists s' dropLeft dropRight const result,
    Struct2Local.visitRefEq curr s = Some (tt, s')
    /\ kindOf (arena s') (current s') = Block "" [dropLeft; dropRight; const]
    /\ typeOf (arena s') (current s') = Ti32
    /\ kindOf (arena s') dropLeft = Drop lhs
    /\ kindOf (arena s') dropRight = Drop rhs
    /\ kindOf (arena s') const = Const (LitI32 result)
    /\ (result = 1 <-> Struct2Local.bothFlow (analyzer s) lhs rhs)
    /\ (result = 0 <-> ~ Struct2Local.bothFlow (analyzer s) lhs rhs)
    /\ getInteraction (analyzer s') (current s')
       = getInteraction (analyzer s) curr.
Proof.
  intros Hi Hty Hk Hcur.
  assert (Hreached : exists i,
            reachedInteractions (analyzer s) !! current s = Some i
            /\ getInteraction (analyzer s) curr = i).
  { rewrite Hcur. unfold getInteraction in *.
    destruct (reachedInteractions (analyzer s) !! curr); [eauto|done]. }
  destruct Hreached as (i & Hlookup & Hgi).
  set (result := if decide (Struct2Local.bothFlow (analyzer s) lhs rhs) then 1 else 0).
  cut (wp (Struct2Local.visitRefEq curr) s (fun _ s' =>
         exists dropLeft dropRight const,
           kindOf (arena s') (current s')
           = Block "" [dropLeft; dropRight; const]
           /\ typeOf (arena s') (current s') = Ti32
           /\ kindOf (arena s') dropLeft = Drop lhs
           /\ kindOf (arena s') dropRight = Drop rhs
           /\ kindOf (arena s') const = Const (LitI32 result)
           /\ getInteraction (analyzer s') (current s') = i)).
  { intros ([] & s' & Hrun & dl & dr & c & ?)%wp_elim.
    exists s', dl, dr, c, result. rewrite Hgi.
    split; [done|]. repeat (split; [tauto|]).
    subst result. split; [|split; [|tauto]]; case_decide; split;
      done || lia. }
  unfold Struct2Local.visitRefEq, getInteractionM, typeOfM, kindOfM,
    makeDrop, makeConst, makeBlock, typeOfM.
  apply wp_bind, wp_gets. rewrite decide_False by done.
  apply wp_bind, wp_gets. rewrite decide_False by done.
  apply wp_bind, wp_gets. rewrite Hk.
  apply wp_bind, wp_gets, wp_bind, wp_gets.
  apply wp_bind, wp_bind, wp_gets, wp_alloc.
  intros s1 Hg1 Hp1 Hn1 _.
  apply wp_bind, wp_bind, wp_gets, wp_alloc.
  intros s2 Hg2 Hp2 Hn2 _.
  apply wp_bind, wp_alloc.
  intros s3 Hg3 Hp3 Hn3 _.
  apply wp_bind, wp_bind, wp_gets, wp_alloc.
  intros s4 Hg4 Hp4 Hn4 _.
  assert (Hblock : blockType (arena s3)
            [nextExpr s; nextExpr s1; nextExpr s2] = Ti32).
  { unfold blockType. simpl. unfold typeOf. by rewrite (proj2 Hp3). }
  rewrite Hblock in Hp4.
  pose proof (grows_trans _ _ _ Hg1 (grows_trans _ _ _ Hg2
                (grows_trans _ _ _ Hg3 Hg4))) as Hg.
  apply wp_bind, (wp_replaceCurrent _ i).
  { by rewrite (grows_current _ _ Hg), (grows_analyzer _ _ Hg). }
  intros s5 Hn5 Ha5 _ _ Hc5 _ Hr5. apply wp_ret.
  exists (nextExpr s), (nextExpr s1), (nextExpr s2).
  rewrite Hc5.
  apply (placed_grows _ _ _ _ (grows_trans _ _ _ Hg2
           (grows_trans _ _ _ Hg3 Hg4))) in Hp1.
  apply (placed_grows _ _ _ _ (grows_trans _ _ _ Hg3 Hg4)) in Hp2.
  apply (placed_grows _ _ _ _ Hg4) in Hp3.
  apply (placed_same _ _ _ _ Hn5 Ha5) in Hp1, Hp2, Hp3.
  pose proof (placed_same _ _ _ _ Hn5 Ha5 Hp4) as Hp5.
  unfold kindOf, typeOf.
  rewrite (proj2 Hp1), (proj2 Hp2), (proj2 Hp3), (proj2 Hp5). simpl.
  repeat (split; [done|]).
  unfold getInteraction. rewrite Hr5.
  unfold typeOf. rewrite (proj2 Hp4). simpl.
  by rewrite lookup_insert_eq.
Qed.

(** A [ref.eq] whose type is unreachable is left as it is, whatever the
    analysis recorded for it: the visit returns with the state it was
    given. *)
Lemma visitRefEq_unreachable (s : Rewrite) (curr : Expr) :
  typeOf (arena s) curr = Tunreachable ->
  Struct2Local.visitRefEq curr s = Some (tt, s).
Proof.
  intros Hty.
  unfold Struct2Local.visitRefEq, getInteractionM, typeOfM, bind, gets.
  destruct (decide (getInteraction (analyzer s) curr
                    = ParentChildInteraction.None)); [done|].
  by rewrite decide_True.
Qed.

(** C6 (as amended).  A reached [ref.eq] whose type is not unreachable is
    replaced by a block of three expressions: a drop of the left operand,
    a drop of the right operand, and the i32 constant 1 when both operands
    have the [Flows] interaction, 0 otherwise; the block has type i32 and
    takes over the interaction of the [ref.eq].  A reached [ref.eq] whose
    type is unreachable is left unchanged: the visit returns with the
    state it was given, nothing allocated, nothing replaced and the
    reached map as it was. *)
Theorem visitRefEq_replaces_reachable (s : Rewrite)
    (curr lhs rhs : Expr) :
  getInteraction (analyzer s) curr <> ParentChildInteraction.None ->
  kindOf (arena s) curr = RefEq lhs rhs ->
  current s = curr ->
  (typeOf (arena s) curr <> Tunreachable ->
   exists s' dropLeft dropRight const result,
     Struct2Local.visitRefEq curr s = Some (tt, s')
     /\ kindOf (arena s') (current s') = Block "" [dropLeft; dropRight; const]
     /\ typeOf (arena s') (current s') = Ti32
     /\ kindOf (arena s') dropLeft = Drop lhs
     /\ kindOf (arena s') dropRight = Drop rhs
     /\ kindOf (arena s') const = Const (LitI32 result)
     /\ (result = 1 <-> Struct2Local.bothFlow (analyzer s) lhs rhs)
     /\ (result = 0 <-> ~ Struct2Local.bothFlow (analyzer s) lhs rhs)
     /\ getInteraction (analyzer s') (current s')
        = getInteraction (analyzer s) curr)
  /\ (typeOf (arena s) curr = Tunreachable ->
      Struct2Local.visitRefEq curr s = Some (tt, s)).
Proof.
  intros Hi Hk Hcur. split.
  - intros Hty. by apply visitRefEq_reachable.
  - apply visitRefEq_unreachable.
Qed.

Lemma wp_getIndex (indexExpr : Expr) (c : Literal) (u : Z) (s : Rewrite)
    (Q : Z -> Rewrite -> Prop) :
  asConst (arena s) indexExpr = Some c ->
  getUnsigned c = Some u ->
  Q (wrap32 u) s ->
  wp (Array2Struct.getIndex indexExpr) s Q.
Proof.
  intros Hc Hu HQ. unfold Array2Struct.getIndex, kindOfM.
  apply wp_bind, wp_gets. unfold asConst in Hc.
  destruct (kindOf (arena s) indexExpr); try discriminate.
  injection Hc as ->.
  by apply wp_bind, (wp_lift _ u); [|apply wp_ret].
Qed.

Lemma getInteraction_reached (an : Analyzer) (e : Expr) :
  getInteraction an e <> ParentChildInteraction.None ->
  exists i, reachedInteractions an !! e = Some i.
Proof.
  unfold getInteraction.
  destruct (reachedInteractions an !! e); [eauto|done].
Qed.

Lemma visitArrayGet_out_of_bounds (self : Array2Struct.t) (s : Rewrite)
    (curr ref indexExpr : Expr) (signed : bool) (c : Literal) (u : Z) :
  getInteraction (analyzer s) curr <> ParentChildInteraction.None ->
  kindOf (arena s) curr = ArrayGet ref indexExpr signed ->
  asConst (arena s) indexExpr = Some c ->
  getUnsigned c = Some u ->
  wrap32 u >= Array2Struct.numFields self ->
  current s = curr ->
  exists s' dropRef trap,
    Array2Struct.visitArrayGet self curr s = Some (tt, s')
    /\ refinalize s' = true
    /\ kindOf (arena s') (current s') = Block "" [dropRef; trap]
    /\ typeOf (arena s') (current s') = Tunreachable
    /\ kindOf (arena s') dropRef = Drop ref
    /\ kindOf (arena s') trap = Unreachable.
Proof.
  intros Hi Hk Hc Hu Hoob Hcur.
  destruct (getInteraction_reached _ _ Hi) as [i Hlookup].
  cut (wp (Array2Struct.visitArrayGet self curr) s (fun _ s' =>
         exists dropRef trap,
           refinalize s' = true
           /\ kindOf (arena s') (current s') = Block "" [dropRef; trap]
           /\ typeOf (arena s') (current s') = Tunreachable
           /\ kindOf (arena s') dropRef = Drop ref
           /\ kindOf (arena s') trap = Unreachable)).
  { intros ([] & s' & Hrun & d & t & ?)%wp_elim. exists s', d, t. tauto. }
  unfold Array2Struct.visitArrayGet, getInteractionM, kindOfM, makeSequence,
    makeDrop, makeUnreachable, makeBlock, typeOfM, setRefinalize.
  apply wp_bind, wp_gets. rewrite decide_False by done.
  apply wp_bind, wp_gets. rewrite Hk.
  apply wp_bind, (wp_getIndex _ c u); [done..|].
  rewrite decide_True by done.
  apply wp_bind, wp_bind, wp_gets, wp_alloc. intros s1 Hg1 Hp1 Hn1 _.
  apply wp_bind, wp_alloc. intros s2 Hg2 Hp2 Hn2 _.
  apply wp_bind, wp_bind, wp_gets, wp_alloc. intros s3 Hg3 Hp3 Hn3 _.
  assert (Hblock : blockType (arena s2) [nextExpr s; nextExpr s1]
                   = Tunreachable).
  { unfold blockType. simpl. unfold typeOf. by rewrite (proj2 Hp2). }
  rewrite Hblock in Hp3.
  pose proof (grows_trans _ _ _ Hg1 (grows_trans _ _ _ Hg2 Hg3)) as Hg.
  apply wp_bind, (wp_replaceCurrent _ i).
  { by rewrite (grows_current _ _ Hg), (grows_analyzer _ _ Hg), Hcur. }
  intros s4 Hn4 Ha4 _ _ Hc4 _ _. apply wp_modify. simpl.
  exists (nextExpr s), (nextExpr s1). rewrite Hc4, Ha4.
  apply (placed_grows _ _ _ _ (grows_trans _ _ _ Hg2 Hg3)) in Hp1.
  apply (placed_grows _ _ _ _ Hg3) in Hp2.
  unfold kindOf, typeOf.
  by rewrite (proj2 Hp1), (proj2 Hp2), (proj2 Hp3).
Qed.

Lemma visitArraySet_out_of_bounds (self : Array2Struct.t) (s : Rewrite)
    (curr ref indexExpr value : Expr) (c : Literal) (u : Z) :
  getInteraction (analyzer s) curr <> ParentChildInteraction.None ->
  kindOf (arena s) curr = ArraySet ref indexExpr value ->
  asConst (arena s) indexExpr = Some c ->
  getUnsigned c = Some u ->
  wrap32 u >= Array2Struct.numFields self ->
  current s = curr ->
  exists s' dropRef dropValue trap,
    Array2Struct.visitArraySet self curr s = Some (tt, s')
    /\ refinalize s' = true
    /\ kindOf (arena s') (current s') = Block "" [dropRef; dropValue; trap]
    /\ typeOf (arena s') (current s') = Tunreachable
    /\ kindOf (arena s') dropRef = Drop ref
    /\ kindOf (arena s') dropValue = Drop value
    /\ kindOf (arena s') trap = Unreachable.
Proof.
  intros Hi Hk Hc Hu Hoob Hcur.
  destruct (getInteraction_reached _ _ Hi) as [i Hlookup].
  cut (wp (Array2Struct.visitArraySet self curr) s (fun _ s' =>
         exists dropRef dropValue trap,
           refinalize s' = true
           /\ kindOf (arena s') (current s')
              = Block "" [dropRef; dropValue; trap]
           /\ typeOf (arena s') (current s') = Tunreachable
           /\ kindOf (arena s') dropRef = Drop ref
           /\ kindOf (arena s') dropValue = Drop value
           /\ kindOf (arena s') trap = Unreachable)).
  { intros ([] & s' & Hrun & d & v & t & ?)%wp_elim.
    exists s', d, v, t. tauto. }
  unfold Array2Struct.visitArraySet, getInteractionM, kindOfM,
    makeDrop, makeUnreachable, makeBlock, typeOfM, setRefinalize.
  apply wp_bind, wp_gets. rewrite decide_False by done.
  apply wp_bind, wp_gets. rewrite Hk.
  apply wp_bind, (wp_getIndex _ c u); [done..|].
  rewrite decide_True by done.
  apply wp_bind, wp_bind, wp_gets, wp_alloc. intros s1 Hg1 Hp1 Hn1 _.
  apply wp_bind, wp_bind, wp_gets, wp_alloc. intros s2 Hg2 Hp2 Hn2 _.
  apply wp_bind, wp_alloc. intros s3 Hg3 Hp3 Hn3 _.
  apply wp_bind, wp_bind, wp_gets, wp_alloc. intros s4 Hg4 Hp4 Hn4 _.
  assert (Hblock : blockType (arena s3)
                     [nextExpr s; nextExpr s1; nextExpr s2]
                   = Tunreachable).
  { unfold blockType. simpl. unfold typeOf. by rewrite (proj2 Hp3). }
  rewrite Hblock in Hp4.
  pose proof (grows_trans _ _ _ Hg1 (grows_trans _ _ _ Hg2
                (grows_trans _ _ _ Hg3 Hg4))) as Hg.
  apply wp_bind, (wp_replaceCurrent _ i).
  { by rewrite (grows_current _ _ Hg), (grows_analyzer _ _ Hg), Hcur. }
  intros s5 Hn5 Ha5 _ _ Hc5 _ _. apply wp_modify. simpl.
  exists (nextExpr s), (nextExpr s1), (nextExpr s2). rewrite Hc5, Ha5.
  apply (placed_grows _ _ _ _ (grows_trans _ _ _ Hg2
           (grows_trans _ _ _ Hg3 Hg4))) in Hp1.
  apply (placed_grows _ _ _ _ (grows_trans _ _ _ Hg3 Hg4)) in Hp2.
  apply (placed_grows _ _ _ _ Hg4) in Hp3.
  unfold kindOf, typeOf.
  by rewrite (proj2 Hp1), (proj2 Hp2), (proj2 Hp3), (proj2 Hp4).
Qed.

(** A loop of steps that each only grow the state only grows the state,
    and yields one result per step. *)
Lemma wp_mapM_grows {A B} (f : A -> M B) (l : list A) (s : Rewrite)
    (Q : list B -> Rewrite -> Prop) :
  (forall x s1, x ∈ l -> grows s s1 ->
                wp (f x) s1 (fun _ s2 => grows s1 s2)) ->
  (forall ys s', grows s s' -> length ys = length l -> Q ys s') ->
  wp (mapM f l) s Q.
Proof.
  revert s Q. induction l as [|x l IH]; intros s Q Hf HQ; simpl.
  - apply wp_ret, HQ; [apply grows_refl|done].
  - apply wp_bind.
    eapply wp_mono; [apply (Hf x s); [left|apply grows_refl]|].
    intros y s1 Hg1. cbv beta. apply wp_bind, IH.
    + intros x' s2 Hx' Hg2. apply Hf; [by right|].
      by apply grows_trans with s1.
    + intros ys s2 Hg2 Hlen. apply wp_ret, HQ.
      * by apply grows_trans with s1.
      * simpl. by rewrite Hlen.
Qed.

Lemma wp_addVar (ty : WType) (s : Rewrite) (Q : Z -> Rewrite -> Prop) :
  isConcrete ty = true ->
  (forall s',
     grows s s' ->
     vars (function s') = vars (function s) ++ [ty] ->
     Q (Z.of_nat (length (params (function s))
                  + length (vars (function s)))) s') ->
  wp (addVar ty) s Q.
Proof.
  intros Hty HQ. unfold addVar.
  apply wp_bind, wp_assert; [done|].
  unfold wp. apply HQ; simpl; [|done].
  split; simpl; try done. by apply prefix_app_r.
Qed.

Lemma wp_makeLocalSet (index : Z) (value : Expr) (s : Rewrite)
    (Q : Expr -> Rewrite -> Prop) :
  (forall s' ty,
     grows s s' ->
     placed s' (nextExpr s) {| kind := LocalSet index value; type := ty |} ->
     Q (nextExpr s) s') ->
  wp (makeLocalSet index value) s Q.
Proof.
  intros HQ. unfold makeLocalSet, typeOfM.
  apply wp_bind, wp_gets, wp_alloc. intros s' Hg Hp _ _. by eapply HQ.
Qed.

Lemma wp_makeLocalGet (index : Z) (ty : WType) (s : Rewrite)
    (Q : Expr -> Rewrite -> Prop) :
  (forall s', grows s s' -> Q (nextExpr s) s') ->
  wp (makeLocalGet index ty) s Q.
Proof.
  intros HQ. unfold makeLocalGet.
  apply wp_alloc. intros s' Hg _ _ _. by apply HQ.
Qed.

Lemma wp_makeZeroExpression `{Collaborators} (ty : WType) (s : Rewrite)
    (Q : Expr -> Rewrite -> Prop) :
  (forall s', grows s s' -> Q (nextExpr s) s') ->
  wp (makeZeroExpression ty) s Q.
Proof.
  intros HQ. unfold makeZeroExpression, makeRefNull, makeConst.
  destruct ty; apply wp_alloc; intros s' Hg _ _ _; by apply HQ.
Qed.

Lemma blockType_snoc (a : Arena) (l : list Expr) (x : Expr) :
  typeOf a x <> Tnone -> blockType a (l ++ [x]) = typeOf a x.
Proof.
  intros Hx. unfold blockType. rewrite last_snoc.
  by destruct (typeOf a x).
Qed.

(** C4.  When the allocation carries a descriptor, [visitStructNew]
    replaces it by a block in which the descriptor is stored into a temp
    local that the visit has just added to the function, typed as the
    descriptor; what is stored is the descriptor itself when its type is
    not nullable and a [ref.as_non_null] of it when it is; the last
    expression of the block is the null reference made for the heap type
    of the allocation, and the block has a reference type. *)
Theorem visitStructNew_stores_descriptor `{Collaborators}
    (self : Struct2Local.t) (s : Rewrite) (curr d : Expr)
    (operands : list Expr) (ht : HeapType) (nl : Nullability) :
  curr = Struct2Local.allocation self ->
  current s = curr ->
  kindOf (arena s) curr = StructNew operands (Some d) ->
  typeOf (arena s) curr = Tref ht nl ->
  is_Some (reachedInteractions (analyzer s) !! curr) ->
  (curr < nextExpr s)%positive ->
  (d < nextExpr s)%positive ->
  isConcrete (typeOf (arena s) d) = true ->
  Forall (fun field => isConcrete (ftype field) = true)
         (Struct2Local.fields self) ->
  operands = [] \/ length operands = length (Struct2Local.fields self) ->
  length (Struct2Local.localIndexes self)
  = S (length (Struct2Local.fields self)) ->
  exists s' before between descSet descValue null tempDesc k,
    Struct2Local.visitStructNew self curr s = Some (tt, s')
    /\ kindOf (arena s') (current s')
       = Block "" (before ++ [descSet] ++ between ++ [null])
    /\ isRef (typeOf (arena s') (current s')) = true
    /\ kindOf (arena s') descSet = LocalSet tempDesc descValue
    /\ tempDesc = Z.of_nat (length (params (function s)) + k)
    /\ (length (vars (function s)) <= k)%nat
    /\ vars (function s') !! k = Some (typeOf (arena s) d)
    /\ (if isNullable (typeOf (arena s) d)
        then deref (arena s') descValue
             = refAs RefAsNonNull d (typeOf (arena s) d)
        else descValue = d)
    /\ deref (arena s') null = refNull ht.
Proof.
  intros Hself Hcur Hk Hty [i Hi] Hcurr Hd Htd Hfields Hops Hlocals.
  cut (wp (Struct2Local.visitStructNew self curr) s (fun _ s' =>
    exists before between descSet descValue null tempDesc k,
      kindOf (arena s') (current s')
      = Block "" (before ++ [descSet] ++ between ++ [null])
      /\ isRef (typeOf (arena s') (current s')) = true
      /\ kindOf (arena s') descSet = LocalSet tempDesc descValue
      /\ tempDesc = Z.of_nat (length (params (function s)) + k)
      /\ (length (vars (function s)) <= k)%nat
      /\ vars (function s') !! k = Some (typeOf (arena s) d)
      /\ (if isNullable (typeOf (arena s) d)
          then deref (arena s') descValue
               = refAs RefAsNonNull d (typeOf (arena s) d)
          else descValue = d)
      /\ deref (arena s') null = refNull ht)).
  { intros ([] & s' & Hrun & b1 & b2 & ds & dv & nu & td & k & ?)%wp_elim.
    by exists s', b1, b2, ds, dv, nu, td, k. }
  unfold Struct2Local.visitStructNew.
  rewrite decide_False by (intros Hne; by apply Hne).
  apply wp_bind, wp_gets. rewrite Hk.
  set (fields := Struct2Local.fields self) in *.
  set (isWithDefault := bool_decide (operands = [])).
  set (td := typeOf (arena s) d) in *.
  cbv zeta.
  (* the temps of the fields *)
  apply wp_bind.
  assert (HA : wp (if isWithDefault then ret []
                   else mapM (fun field => addVar (ftype field)) fields) s
                 (fun ys s1 => grows s s1
                    /\ length ys = if isWithDefault then 0%nat
                                   else length fields)).
  { destruct isWithDefault.
    - apply wp_ret. split; [apply grows_refl|done].
    - apply wp_mapM_grows; [|done].
      intros field s1 Hfield _. apply wp_addVar.
      + rewrite Forall_forall in Hfields. by apply Hfields.
      + by intros s2 Hg2 _. }
  eapply wp_mono; [exact HA|]. clear HA.
  intros fieldTemps s1 [Hg1 Hlen]. cbv beta.
  (* the temp of the descriptor *)
  apply wp_bind, wp_bind, wp_gets.
  rewrite (proj1 (deref_grows _ _ _ Hg1 Hd)). fold td.
  apply wp_bind, wp_addVar; [done|]. intros s2 Hg2 Hvars2. apply wp_ret.
  set (k := length (vars (function s1))) in *.
  set (tempDesc := Z.of_nat (length (params (function s1)) + k)).
  assert (Htemp : (fieldTemps ++ [tempDesc])
                  !! ((if isWithDefault then 0 else length fields) + 1 - 1)%nat
                  = Some tempDesc).
  { rewrite <- Hlen. replace (length fieldTemps + 1 - 1)%nat
      with (length fieldTemps + 0)%nat by lia.
    by rewrite lookup_app_r, Nat.add_0_r, Nat.sub_diag by lia. }
  assert (Hlookup : forall n, (n < length fields)%nat ->
            isWithDefault = false ->
            is_Some ((fieldTemps ++ [tempDesc]) !! n)).
  { intros n Hn Hdef. apply lookup_lt_is_Some_2.
    rewrite length_app, Hlen, Hdef. lia. }
  (* the sets of the operands *)
  apply wp_bind.
  assert (HC : wp (if isWithDefault then ret []
                   else mapM (fun n =>
                          temp <- lift ((fieldTemps ++ [tempDesc]) !! n) ;;
                          operand <- lift (operands !! n) ;;
                          makeLocalSet temp operand)
                        (seq 0 (length fields))) s2
                 (fun _ s3 => grows s2 s3)).
  { destruct isWithDefault eqn:Hdef.
    - apply wp_ret, grows_refl.
    - apply wp_mapM_grows; [|done].
      intros n sx Hn%elem_of_seq _.
      destruct (Hlookup n) as [temp Htn]; [lia|done|].
      assert (Hop : is_Some (operands !! n)).
      { apply lookup_lt_is_Some_2.
        apply bool_decide_eq_false in Hdef. destruct Hops; [done|lia]. }
      destruct Hop as [operand Hop].
      apply wp_bind, (wp_lift _ temp); [done|].
      apply wp_bind, (wp_lift _ operand); [done|].
      apply wp_makeLocalSet. by intros s3 ty Hg3 _. }
  eapply wp_mono; [exact HC|]. clear HC.
  intros operandSets s3 Hg3. cbv beta.
  pose proof (grows_trans _ _ _ Hg1 (grows_trans _ _ _ Hg2 Hg3)) as Hg03.
  (* the set of the descriptor *)
  apply wp_bind.
  assert (HD : wp (td <- typeOfM d ;;
                   desc' <- (if isNullable td
                             then makeRefAs RefAsNonNull d else ret d) ;;
                   temp <- lift ((fieldTemps ++ [tempDesc])
                     !! ((if isWithDefault then 0 else length fields)
                         + 1 - 1)%nat) ;;
                   set <- makeLocalSet temp desc' ;;
                   ret [set]) s3
                 (fun r s5 =>
                    grows s3 s5
                    /\ exists set descValue ty,
                         r = [set]
                         /\ placed s5 set
                              {| kind := LocalSet tempDesc descValue;
                                 type := ty |}
                         /\ (if isNullable td
                             then placed s5 descValue
                                    (refAs RefAsNonNull d td)
                             else descValue = d))).
  { apply wp_bind, wp_gets.
    rewrite (proj1 (deref_grows _ _ _ Hg03 Hd)). fold td.
    apply wp_bind. destruct (isNullable td).
    - unfold makeRefAs, typeOfM. apply wp_bind, wp_gets, wp_alloc.
      intros s4 Hg4 Hp4 _ _.
      rewrite (proj1 (deref_grows _ _ _ Hg03 Hd)) in Hp4. fold td in Hp4.
      apply wp_bind, (wp_lift _ tempDesc); [done|].
      apply wp_bind, wp_makeLocalSet. intros s5 ty Hg5 Hp5. apply wp_ret.
      split; [by apply grows_trans with s4|].
      exists (nextExpr s4), (nextExpr s3), ty.
      split; [done|]. split; [done|]. by apply (placed_grows s4).
    - apply wp_ret.
      apply wp_bind, (wp_lift _ tempDesc); [done|].
      apply wp_bind, wp_makeLocalSet. intros s5 ty Hg5 Hp5. apply wp_ret.
      split; [done|]. by exists (nextExpr s3), d, ty. }
  eapply wp_mono; [exact HD|]. clear HD.
  intros r s5 (Hg5 & descSet & descValue & tySet & -> & Hset & Hvalue).
  cbv beta.
  (* the sets of the field locals *)
  apply wp_bind, wp_mapM_grows.
  { intros n sx Hn%elem_of_seq _.
    destruct (lookup_lt_is_Some_2 fields n) as [field Hfield]; [lia|].
    destruct (lookup_lt_is_Some_2 (Struct2Local.localIndexes self) n)
      as [local Hlocal]; [lia|].
    apply wp_bind, (wp_lift _ field); [done|].
    apply wp_bind.
    assert (Hval : wp (if isWithDefault
                       then makeZeroExpression (ftype field)
                       else temp <- lift ((fieldTemps ++ [tempDesc]) !! n) ;;
                            makeLocalGet temp (ftype field)) sx
                      (fun _ sy => grows sx sy)).
    { destruct isWithDefault eqn:Hdef.
      - by apply wp_makeZeroExpression.
      - destruct (Hlookup n) as [temp Htn]; [lia|done|].
        apply wp_bind, (wp_lift _ temp); [done|].
        by apply wp_makeLocalGet. }
    eapply wp_mono; [exact Hval|]. clear Hval. intros val sy Hgy. cbv beta.
    apply wp_bind, (wp_lift _ local); [done|].
    apply wp_makeLocalSet. intros sz ty Hgz _.
    by apply grows_trans with sy. }
  intros fieldSets s6 Hg6 _.
  pose proof (grows_trans _ _ _ Hg03 (grows_trans _ _ _ Hg5 Hg6)) as Hg06.
  (* the copy of the descriptor *)
  apply wp_bind, wp_bind, wp_gets.
  destruct (lookup_lt_is_Some_2 (Struct2Local.localIndexes self)
              (length fields)) as [local Hlocal]; [lia|].
  apply wp_bind, (wp_lift _ tempDesc); [done|].
  apply wp_bind, wp_makeLocalGet. intros s7 Hg7.
  apply wp_bind, (wp_lift _ local); [done|].
  apply wp_bind, wp_makeLocalSet. intros s8 ty8 Hg8 _. apply wp_ret.
  pose proof (grows_trans _ _ _ Hg06 (grows_trans _ _ _ Hg7 Hg8)) as Hg08.
  (* the null and the block *)
  apply wp_bind, wp_gets.
  rewrite <- Hself, (proj1 (deref_grows _ _ _ Hg08 Hcurr)), Hty.
  apply wp_bind, (wp_lift _ ht); [done|].
  unfold makeRefNull, makeBlock.
  apply wp_bind, wp_alloc. intros s9 Hg9 Hnull _ _.
  apply wp_bind, wp_bind, wp_gets.
  rewrite !(assoc_L (++)), blockType_snoc;
    unfold typeOf; rewrite (proj2 Hnull); [|done].
  apply wp_alloc. intros s10 Hg10 Hblock _ _.
  pose proof (grows_trans _ _ _ Hg08 (grows_trans _ _ _ Hg9 Hg10)) as Hg010.
  apply wp_bind, (wp_replaceCurrent _ i).
  { by rewrite (grows_current _ _ Hg010), (grows_analyzer _ _ Hg010), Hcur. }
  intros s11 Hn11 Ha11 Hf11 _ Hc11 _ _. apply wp_ret.
  pose proof (grows_trans _ _ _ Hg6 (grows_trans _ _ _ Hg7
                (grows_trans _ _ _ Hg8 (grows_trans _ _ _ Hg9 Hg10))))
    as Hg510.
  exists operandSets, (fieldSets ++ [nextExpr s7]), descSet, descValue,
         (nextExpr s8), tempDesc, k.
  rewrite Hc11, Ha11, Hf11.
  apply (placed_grows _ _ _ _ Hg510) in Hset.
  apply (placed_grows _ _ _ _ Hg10) in Hnull.
  unfold kindOf, typeOf.
  rewrite (proj2 Hblock), (proj2 Hset), (proj2 Hnull). simpl.
  split. { f_equal. by rewrite <- !(assoc_L (++)). }
  split; [done|]. split; [done|].
  split. { subst tempDesc. by rewrite (grows_params _ _ Hg1). }
  split. { subst k. apply prefix_length, (grows_vars _ _ Hg1). }
  split.
  { assert (Hpre : vars (function s2) `prefix_of` vars (function s10)).
    { apply (grows_vars s2 s10).
      apply grows_trans with s3; [done|].
      by apply grows_trans with s5. }
    eapply prefix_lookup_Some; [|exact Hpre].
    rewrite Hvars2. subst k. by rewrite lookup_app_r, Nat.sub_diag by lia. }
  split; [|done].
  destruct (isNullable td); [|done].
  apply (placed_grows _ _ _ _ Hg510) in Hvalue. exact (proj2 Hvalue).
Qed.

(** C5.  A reached [array.get] or [array.set] whose constant index is not
    below the number of slots is replaced by a block of type unreachable:
    a drop of the reference, then for a set a drop of the value, then an
    [unreachable]; and the refinalize flag is set. *)
Theorem out_of_bounds_array_access_traps (self : Array2Struct.t)
    (s : Rewrite) (curr ref indexExpr : Expr) (c : Literal) (u : Z) :
  getInteraction (analyzer s) curr <> ParentChildInteraction.None ->
  asConst (arena s) indexExpr = Some c ->
  getUnsigned c = Some u ->
  wrap32 u >= Array2Struct.numFields self ->
  current s = curr ->
  (forall signed,
     kindOf (arena s) curr = ArrayGet ref indexExpr signed ->
     exists s' dropRef trap,
       Array2Struct.visitArrayGet self curr s = Some (tt, s')
       /\ refinalize s' = true
       /\ kindOf (arena s') (current s') = Block "" [dropRef; trap]
       /\ typeOf (arena s') (current s') = Tunreachable
       /\ kindOf (arena s') dropRef = Drop ref
       /\ kindOf (arena s') trap = Unreachable)
  /\ (forall value,
        kindOf (arena s) curr = ArraySet ref indexExpr value ->
        exists s' dropRef dropValue trap,
          Array2Struct.visitArraySet self curr s = Some (tt, s')
          /\ refinalize s' = true
          /\ kindOf (arena s') (current s')
             = Block "" [dropRef; dropValue; trap]
          /\ typeOf (arena s') (current s') = Tunreachable
          /\ kindOf (arena s') dropRef = Drop ref
          /\ kindOf (arena s') dropValue = Drop value
          /\ kindOf (arena s') trap = Unreachable).
Proof.
  intros Hi Hc Hu Hoob Hcur. split.
  - intros signed Hk. by eapply visitArrayGet_out_of_bounds.
  - intros value Hk. by eapply visitArraySet_out_of_bounds.
Qed.

End RewriterProperties.

Section RewriterSamples.

Import EscapeAnalyzer Rewriter.

Example array_sample_analysis :
  escapes (H := Samples.arrayTables) Samples.arrayArena 10 2%positive
  = Some (false, Samples.arrayAnalyzer)
  /\ Array2Struct.getArrayNewSize 2%positive Samples.arrayRewrite
     = Some (Array2Struct.numFields Samples.arraySelf, Samples.arrayRewrite)
  /\ Array2Struct.originalType Samples.arraySelf
     = typeOf (arena Samples.arrayRewrite) 2%positive.
Proof. repeat split; vm_compute; reflexivity. Qed.

Lemma out_of_bounds_array_access_traps_witness :
  (getInteraction (analyzer Samples.arrayRewrite) 4%positive
   <> ParentChildInteraction.None
   /\ asConst (arena Samples.arrayRewrite) 3%positive = Some (LitI32 5)
   /\ wrap32 5 >= Array2Struct.numFields Samples.arraySelf
   /\ kindOf (arena Samples.arrayRewrite) 4%positive = ArrayGet 2 3 false)
  /\ exists s' dropRef trap,
       Array2Struct.visitArrayGet Samples.arraySelf 4%positive
         Samples.arrayRewrite = Some (tt, s')
       /\ refinalize s' = true
       /\ kindOf (arena s') (current s') = Block "" [dropRef; trap]
       /\ typeOf (arena s') (current s') = Tunreachable
       /\ kindOf (arena s') dropRef = Drop 2%positive
       /\ kindOf (arena s') trap = Unreachable.
Proof.
  assert (Hi : getInteraction (analyzer Samples.arrayRewrite) 4%positive
               <> ParentChildInteraction.None) by (vm_compute; discriminate).
  assert (Hoob : wrap32 5 >= Array2Struct.numFields Samples.arraySelf)
    by (vm_compute; discriminate).
  split; [repeat split; [exact Hi|exact Hoob]|].
  apply (proj1 (out_of_bounds_array_access_traps Samples.arraySelf
                  Samples.arrayRewrite 4%positive 2%positive 3%positive
                  (LitI32 5) (wrap32 5) Hi eq_refl eq_refl Hoob eq_refl)
               false).
  reflexivity.
Defined.

Example array_get_out_of_bounds_sample :
  exists s',
    Array2Struct.visitArrayGet Samples.arraySelf 4%positive
      Samples.arrayRewrite = Some (tt, s')
    /\ current s' = 8%positive
    /\ deref (arena s') 8%positive
       = {| kind := Block "" [6; 7]%positive; type := Tunreachable |}
    /\ deref (arena s') 6%positive
       = {| kind := Drop 2; type := Tnone |}
    /\ deref (arena s') 7%positive
       = {| kind := Unreachable; type := Tunreachable |}
    /\ refinalize s' = true.
Proof. eexists. split; [vm_compute; reflexivity|]. by vm_compute. Qed.

Example array_set_out_of_bounds_sample :
  exists s',
    Array2Struct.visitArraySet Samples.arraySelf 5%positive
      Samples.arraySetRewrite = Some (tt, s')
    /\ current s' = 9%positive
    /\ deref (arena s') 9%positive
       = {| kind := Block "" [6; 7; 8]%positive; type := Tunreachable |}
    /\ deref (arena s') 6%positive = {| kind := Drop 2; type := Tnone |}
    /\ deref (arena s') 7%positive = {| kind := Drop 4; type := Tnone |}
    /\ deref (arena s') 8%positive
       = {| kind := Unreachable; type := Tunreachable |}
    /\ refinalize s' = true.
Proof. eexists. split; [vm_compute; reflexivity|]. by vm_compute. Qed.

Lemma visitRefEq_replaces_reachable_witness :
  (getInteraction (analyzer Samples.boxedRewrite) 7%positive
   <> ParentChildInteraction.None
   /\ typeOf (arena Samples.boxedRewrite) 7%positive <> Tunreachable
   /\ kindOf (arena Samples.boxedRewrite) 7%positive = RefEq 3 6)
  /\ exists s' dropLeft dropRight const result,
       Struct2Local.visitRefEq 7%positive
         Samples.boxedRewrite = Some (tt, s')
       /\ kindOf (arena s') (current s')
          = Block "" [dropLeft; dropRight; const]
       /\ typeOf (arena s') (current s') = Ti32
       /\ kindOf (arena s') dropLeft = Drop 3%positive
       /\ kindOf (arena s') dropRight = Drop 6%positive
       /\ kindOf (arena s') const = Const (LitI32 result)
       /\ (result = 1
           <-> Struct2Local.bothFlow (analyzer Samples.boxedRewrite)
                 3%positive 6%positive)
       /\ (result = 0
           <-> ~ Struct2Local.bothFlow (analyzer Samples.boxedRewrite)
                   3%positive 6%positive)
       /\ getInteraction (analyzer s') (current s')
          = getInteraction (analyzer Samples.boxedRewrite) 7%positive.
Proof.
  assert (Hi : getInteraction (analyzer Samples.boxedRewrite) 7%positive
               <> ParentChildInteraction.None) by (vm_compute; discriminate).
  assert (Hty : typeOf (arena Samples.boxedRewrite) 7%positive
                <> Tunreachable) by (vm_compute; discriminate).
  split; [repeat split; [exact Hi|exact Hty]|].
  exact (proj1 (visitRefEq_replaces_reachable
                  Samples.boxedRewrite 7%positive 3%positive 6%positive
                  Hi eq_refl eq_refl) Hty).
Defined.

Example ref_eq_of_allocation_with_itself :
  exists s',
    Struct2Local.visitRefEq 7%positive
      Samples.boxedRewrite = Some (tt, s')
    /\ current s' = 13%positive
    /\ deref (arena s') 13%positive
       = {| kind := Block "" [10; 11; 12]%positive; type := Ti32 |}
    /\ deref (arena s') 12%positive
       = {| kind := Const (LitI32 1); type := Ti32 |}.
Proof. eexists. split; [vm_compute; reflexivity|]. by vm_compute. Qed.

(** C6, the claim as stated fails: a [ref.eq] that the analysis reached
    and whose type is unreachable is left as it is. *)
Lemma visitRefEq_keeps_unreachable :
  escapes (H := Samples.deadTables) Samples.deadArena 10 1%positive
  = Some (false, Samples.deadAnalyzer)
  /\ kindOf (arena Samples.deadRewrite) 3%positive = RefEq 1 2
  /\ getInteraction (analyzer Samples.deadRewrite) 3%positive
     = ParentChildInteraction.FullyConsumes
  /\ Struct2Local.visitRefEq 3%positive
       Samples.deadRewrite = Some (tt, Samples.deadRewrite)
  /\ kindOf (arena Samples.deadRewrite) (current Samples.deadRewrite)
     = RefEq 1 2.
Proof. repeat split; vm_compute; reflexivity. Qed.

Example desc_sample_analysis :
  escapes (H := Samples.descTables) Samples.descArena 10 3%positive
  = Some (false, Samples.descAnalyzer)
  /\ exists s0,
       forall (walk : Struct2Local.t -> M unit) (reFinalize : M unit),
         Struct2Local.create (H := Samples.descTables) walk reFinalize
           3%positive s0
         = bind (walk Samples.descSelf)
             (fun _ =>
                bind (gets refinalize)
                  (fun flag =>
                     bind (if flag then reFinalize else ret tt)
                       (fun _ => ret Samples.descSelf)))
             Samples.descRewrite.
Proof.
  split; [vm_compute; reflexivity|].
  exists {| arena := Samples.descArena; nextExpr := 5;
            function := {| params := []; vars := [Tref 4 Nullable] |};
            analyzer := Samples.descAnalyzer; refinalize := false;
            current := 3 |}.
  intros walk reFinalize. reflexivity.
Qed.

Lemma visitStructNew_stores_descriptor_witness :
  (kindOf (arena Samples.descRewrite) 3%positive
   = StructNew [2]%positive (Some 1%positive)
   /\ typeOf (arena Samples.descRewrite) 3%positive = Tref 1 NonNullable
   /\ isNullable (typeOf (arena Samples.descRewrite) 1%positive) = true)
  /\ exists s' before between descSet descValue null tempDesc k,
       Struct2Local.visitStructNew (H := Samples.descTables)
         Samples.descSelf 3%positive Samples.descRewrite = Some (tt, s')
       /\ kindOf (arena s') (current s')
          = Block "" (before ++ [descSet] ++ between ++ [null])
       /\ isRef (typeOf (arena s') (current s')) = true
       /\ kindOf (arena s') descSet = LocalSet tempDesc descValue
       /\ tempDesc
          = Z.of_nat (length (params (function Samples.descRewrite)) + k)
       /\ (length (vars (function Samples.descRewrite)) <= k)%nat
       /\ vars (function s') !! k
          = Some (typeOf (arena Samples.descRewrite) 1%positive)
       /\ (if isNullable (typeOf (arena Samples.descRewrite) 1%positive)
           then deref (arena s') descValue
                = refAs RefAsNonNull 1%positive
                    (typeOf (arena Samples.descRewrite) 1%positive)
           else descValue = 1%positive)
       /\ deref (arena s') null = refNull (H := Samples.descTables) 1.
Proof.
  split; [repeat split|].
  apply (visitStructNew_stores_descriptor (H := Samples.descTables)
           Samples.descSelf Samples.descRewrite 3%positive 1%positive
           [2]%positive 1%positive NonNullable).
  - reflexivity.
  - reflexivity.
  - reflexivity.
  - reflexivity.
  - exists ParentChildInteraction.Flows. reflexivity.
  - reflexivity.
  - reflexivity.
  - reflexivity.
  - by repeat constructor.
  - by right.
  - reflexivity.
Defined.

Example struct_new_with_nullable_descriptor :
  exists s',
    Struct2Local.visitStructNew (H := Samples.descTables)
      Samples.descSelf 3%positive Samples.descRewrite = Some (tt, s')
    /\ current s' = 13%positive
    /\ deref (arena s') 13%positive
       = {| kind := Block "" [5; 7; 9; 11; 12]%positive;
            type := Tref 1 Nullable |}
    /\ deref (arena s') 7%positive
       = {| kind := LocalSet 4 6; type := Tnone |}
    /\ deref (arena s') 6%positive
       = {| kind := RefAs RefAsNonNull 1; type := Tref 4 NonNullable |}
    /\ deref (arena s') 12%positive
       = {| kind := RefNull; type := Tref 1 Nullable |}
    /\ vars (function s')
       = [Tref 4 Nullable; Ti32; Tref 4 Nullable; Ti32; Tref 4 Nullable].
Proof. eexists. split; [vm_compute; reflexivity|]. by vm_compute. Qed.

End RewriterSamples.

(** ** More on the escape analysis *)

Section FlowProperties.

Import EscapeAnalyzer.
Context `{Collaborators}.
Variable a : Arena.

Local Set Warnings "-clear-no-such-hyp".
Local Arguments getParentChildInteraction : simpl never.
Local Arguments branchesSentByParent : simpl never.

(** A flow is pending when it waits in the worklist or has been handled. *)
Lemma pending_push (item x : ChildAndParent) (q : FlowQueue) :
  x ∈ data q \/ x ∈ processed q ->
  x ∈ data (push item q) \/ x ∈ processed (push item q).
Proof.
  unfold push. case_decide; [done|]. simpl.
  intros [Hx|Hx]; [left|by right]. apply elem_of_app. by left.
Qed.

Lemma pending_push_self (item : ChildAndParent) (q : FlowQueue) :
  item ∈ data (push item q) \/ item ∈ processed (push item q).
Proof.
  unfold push. case_decide; [by right|]. simpl. left.
  apply elem_of_app. right. apply list_elem_of_here.
Qed.

Lemma pending_pushAll (items : list ChildAndParent) (x : ChildAndParent)
    (q : FlowQueue) :
  x ∈ data q \/ x ∈ processed q ->
  x ∈ data (pushAll items q) \/ x ∈ processed (pushAll items q).
Proof.
  unfold pushAll. revert q.
  induction items as [|item items IH]; intros q Hx; simpl; [done|].
  by apply IH, pending_push.
Qed.

Lemma pending_pushAll_self (items : list ChildAndParent)
    (x : ChildAndParent) (q : FlowQueue) :
  x ∈ items ->
  x ∈ data (pushAll items q) \/ x ∈ processed (pushAll items q).
Proof.
  unfold pushAll. revert q.
  induction items as [|item items IH]; intros q Hx; simpl.
  - by apply elem_of_nil in Hx.
  - apply elem_of_cons in Hx as [->|Hx]; [|by apply IH].
    apply (pending_pushAll items), pending_push_self.
Qed.

Lemma pending_pop (q q' : FlowQueue) (item x : ChildAndParent) :
  pop q = Some (item, q') ->
  x ∈ data q \/ x ∈ processed q ->
  x ∈ data q' \/ x ∈ processed q'.
Proof.
  unfold pop.
  destruct (popData (data q)) as [[i rest]|] eqn:Hd; [|discriminate].
  intros [= <- <-]; simpl. intros [Hx|Hx]; [|set_solver].
  destruct (popData_elem _ _ _ Hd x Hx) as [->|Hrest]; [set_solver|by left].
Qed.

(** The state a turn of the loop that does not return leaves, spelled
    out. *)
Lemma flowStep_inr_eq (allocation child p : Expr)
    (an an' : Analyzer) (q q' : FlowQueue) :
  flowStep a allocation (child, Some p) an q = inr (an', q') ->
  let i := getParentChildInteraction a allocation (Some p) child in
  let q1 := if decide (i = ParentChildInteraction.Flows)
            then push (p, getParent p) q else q in
  let q2 := if isLocalSet (kindOf a p)
            then pushAll (map (fun get => (get, getParent get))
                              (getSetInfluences p)) q1
            else q1 in
  (i = ParentChildInteraction.Flows
   \/ i = ParentChildInteraction.FullyConsumes)
  /\ q' = pushAll (map (fun name => (child, getTarget name))
                       (elements (branchesSentByParent child p))) q2
  /\ sets an' = (if isLocalSet (kindOf a p)
                 then {[ p ]} ∪ sets an else sets an)
  /\ reachedInteractions an'
     = <[p := i]> (<[child := ParentChildInteraction.Flows]>
                     (reachedInteractions an)).
Proof.
  unfold flowStep.
  pose proof (getParentChildInteraction_cases a allocation (Some p) child)
    as Hcases. simpl in Hcases.
  set (i := getParentChildInteraction a allocation (Some p) child) in *.
  destruct (decide (i = ParentChildInteraction.Escapes
                    \/ i = ParentChildInteraction.Mixes))
    as [|Hok]; [discriminate|].
  intros Hstep. simpl. split; [tauto|].
  destruct (kindOf a p); injection Hstep as <- <-; done.
Qed.

Lemma flowStep_inr_parent (allocation child : Expr) (parent : option Expr)
    (an an' : Analyzer) (q q' : FlowQueue) :
  flowStep a allocation (child, parent) an q = inr (an', q') ->
  is_Some parent.
Proof.
  intros (p & _ & -> & _)%flowStep_inr. eauto.
Qed.

Lemma flowStep_inr_sets_reached (allocation child : Expr)
    (parent : option Expr) (an an' : Analyzer) (q q' : FlowQueue) :
  flowStep a allocation (child, parent) an q = inr (an', q') ->
  forall e, is_Some (reachedInteractions an !! e) ->
            is_Some (reachedInteractions an' !! e).
Proof.
  intros (p & i & _ & _ & Hr & _)%flowStep_inr e He.
  rewrite Hr, !lookup_insert_is_Some'. tauto.
Qed.

Lemma flowStep_flowsInvariant (allocation : Expr) (flow : ChildAndParent)
    (an an' : Analyzer) (q0 q q' : FlowQueue) :
  flowsInvariant a allocation an q0 ->
  pop q0 = Some (flow, q) ->
  flowStep a allocation flow an q = inr (an', q') ->
  flowsInvariant a allocation an' q'.
Proof.
  intros [Hflows Hsets] Hpop Hstep.
  destruct flow as [child parent].
  destruct (flowStep_inr_parent _ _ _ _ _ _ _ Hstep) as [p ->].
  pose proof (flowStep_inr_sets_reached _ _ _ _ _ _ _ Hstep) as Hmono.
  pose proof (flowStep_inr_eq _ _ _ _ _ _ _ Hstep) as Heq. simpl in Heq.
  destruct Heq as (Hi & Hq' & Hsets' & Hreached).
  pose proof (processed_pop _ _ _ Hpop) as Hproc.
  set (i := getParentChildInteraction a allocation (Some p) child) in *.
  set (q1 := if decide (i = ParentChildInteraction.Flows)
             then push (p, getParent p) q else q) in *.
  set (q2 := if isLocalSet (kindOf a p)
             then pushAll (map (fun get => (get, getParent get))
                               (getSetInfluences p)) q1
             else q1) in *.
  assert (Hq1 : forall x, x ∈ data q \/ x ∈ processed q ->
                          x ∈ data q1 \/ x ∈ processed q1).
  { intros x Hx. subst q1. case_decide; [by apply pending_push|done]. }
  assert (Hq2 : forall x, x ∈ data q1 \/ x ∈ processed q1 ->
                          x ∈ data q2 \/ x ∈ processed q2).
  { intros x Hx. subst q2.
    destruct (isLocalSet _); [by apply pending_pushAll|done]. }
  assert (Hkeep : forall x, x ∈ data q0 \/ x ∈ processed q0 ->
                            x ∈ data q' \/ x ∈ processed q').
  { intros x Hx. rewrite Hq'.
    by apply pending_pushAll, Hq2, Hq1, (pending_pop q0 q (child, Some p)). }
  assert (Hprocessed : processed q' = {[ (child, Some p) ]} ∪ processed q0).
  { rewrite Hq', processed_pushAll. subst q2 q1.
    destruct (isLocalSet _); rewrite ?processed_pushAll;
      case_decide; by rewrite ?processed_push. }
  split.
  - intros c pa Hin. rewrite Hprocessed in Hin.
    apply elem_of_union in Hin as [Hin%elem_of_singleton|Hin].
    + injection Hin as -> ->. exists p. split; [done|]. split; [done|].
      split; [|split].
      * intros Hf. rewrite Hq'. apply pending_pushAll, Hq2. subst q1.
        fold i in Hf. rewrite decide_True by done. apply pending_push_self.
      * intros name Hname. rewrite Hq'. apply pending_pushAll_self.
        apply list_elem_of_fmap. exists name. split; [done|].
        by apply elem_of_elements.
      * intros Hk. rewrite Hsets', Hk. set_solver.
    + destruct (Hflows c pa Hin) as (p0 & -> & Hc & Hup & Hbr & Hset).
      exists p0. split; [done|]. split; [done|].
      split; [|split].
      * intros Hf. by apply Hkeep, Hup.
      * intros name Hname. by apply Hkeep, Hbr.
      * intros Hk. rewrite Hsets'. specialize (Hset Hk).
        destruct (isLocalSet (kindOf a p)); set_solver.
  - intros s. rewrite Hsets'.
    assert (Hold : s ∈ sets an ->
              isLocalSet (kindOf a s) = true
              /\ is_Some (reachedInteractions an' !! s)
              /\ forall get, get ∈ getSetInfluences s ->
                   (get, getParent get) ∈ data q'
                   \/ (get, getParent get) ∈ processed q').
    { intros Hs. destruct (Hsets s Hs) as (Hk & Hr & Hg).
      split; [done|]. split; [by apply Hmono|].
      intros get Hget. by apply Hkeep, Hg. }
    destruct (isLocalSet (kindOf a p)) eqn:Hk; [|done].
    intros [->%elem_of_singleton|Hs]%elem_of_union; [|by apply Hold].
    split; [done|]. split.
    { rewrite Hreached, lookup_insert_is_Some'. by left. }
    intros get Hget. rewrite Hq'. apply pending_pushAll. subst q2.
    apply pending_pushAll_self.
    apply list_elem_of_fmap. by exists get.
Qed.

Lemma flowLoop_flowsInvariant (fuel : nat) (allocation : Expr) :
  forall (an an' : Analyzer) (q q' : FlowQueue),
    flowsInvariant a allocation an q ->
    flowLoop a fuel allocation an q = Some (false, an', q') ->
    flowsInvariant a allocation an' q'.
Proof.
  induction fuel as [|fuel IH]; intros an an' q q' Hinv; simpl.
  - destruct (empty q); [|discriminate]. by intros [= <- <-].
  - destruct (empty q); [by intros [= <- <-]|].
    destruct (pop q) as [[flow q1]|] eqn:Hpop; [|discriminate].
    destruct (flowStep a allocation flow an q1) as [[an1 q2]|[an1 q2]]
      eqn:Hstep; [discriminate|].
    apply IH. by eapply flowStep_flowsInvariant.
Qed.

(** When [escapes] returns false, the worklist it ran over satisfies the
    invariant, is empty, and has handled the flow out of the
    allocation. *)
Lemma escapes_false_flows (fuel : nat) (allocation : Expr) (an : Analyzer) :
  escapes a fuel allocation = Some (false, an) ->
  exists flows,
    flowsOf a fuel allocation = Some (false, an, flows)
    /\ data flows = []
    /\ flowsInvariant a allocation an flows
    /\ reachedWellFormed an flows
    /\ (allocation, getParent allocation) ∈ processed flows.
Proof.
  unfold escapes.
  destruct (flowsOf a fuel allocation) as [[[early an'] flows]|] eqn:Hflows;
    [|discriminate].
  destruct early; [by intros [= ?]|].
  destruct (negb (getsAreExclusiveToSets an')); intros [= <-].
  exists flows. split; [done|].
  unfold flowsOf in Hflows.
  assert (Hinit : flowsInvariant a allocation newAnalyzer
            (push (allocation, getParent allocation) emptyQueue)).
  { split; simpl.
    - intros c p. rewrite processed_push. simpl. set_solver.
    - set_solver. }
  assert (Hwf : reachedWellFormed newAnalyzer
            (push (allocation, getParent allocation) emptyQueue)).
  { split; simpl.
    - intros e i. by rewrite lookup_empty.
    - intros c p. rewrite processed_push. simpl. set_solver. }
  destruct (flowLoop_reachedWellFormed _ _ _ _ _ _ _ Hwf Hflows)
    as (Hwf' & Hdata & _).
  split; [done|].
  split; [by apply (flowLoop_flowsInvariant _ _ _ _ _ _ Hinit Hflows)|].
  split; [done|].
  apply (flowLoop_drains _ _ _ _ _ _ _ Hflows). left.
  unfold push. simpl. rewrite decide_False by set_solver.
  simpl. apply list_elem_of_here.
Qed.


(** A parent that does not let the child escape uses it in one of the
    ways the checker knows. *)
Lemma checker_supported_use (allocation child p : Expr) :
  Checker.escapes (Checker.visit a allocation child p Checker.init) = false ->
  match kindOf a p with
  | If _ _ _ | Call _ _ | Const _ | Unreachable | Nop | Pop | RefNull
  | StructNew _ _ | ArrayNew _ _ | ArrayNewFixed _ | Other _ => False
  | RefAs op _ => op = RefAsNonNull
  | StructSet _ ref _ | StructRMW _ _ ref _ | ArrayRMW _ ref _ _ =>
      ref = child
  | StructCmpxchg _ ref expected _ | ArrayCmpxchg ref _ expected _ =>
      ref = child \/ expected = child
  | ArraySet ref index _ => is_Some (asConst a index) /\ ref = child
  | ArrayGet _ index _ => is_Some (asConst a index)
  | _ => True
  end.
Proof.
  unfold Checker.visit.
  destruct (kindOf a p); simpl; try done;
    unfold Checker.visitRefAs, Checker.visitStructSet, Checker.visitStructRMW,
      Checker.visitStructCmpxchg, Checker.visitArraySet,
      Checker.visitArrayGet, Checker.visitArrayRMW,
      Checker.visitArrayCmpxchg;
    repeat case_match; simpl; try done; eauto.
Qed.

Lemma classified_not_escaping (allocation child p : Expr) :
  getParentChildInteraction a allocation (Some p) child
  = ParentChildInteraction.Flows
  \/ getParentChildInteraction a allocation (Some p) child
     = ParentChildInteraction.FullyConsumes ->
  Checker.escapes (Checker.visit a allocation child p Checker.init) = false.
Proof.
  unfold getParentChildInteraction.
  destruct (Checker.escapes _); [|done]. by intros [|].
Qed.

Lemma flows_needs_reference (allocation child p : Expr) :
  getParentChildInteraction a allocation (Some p) child
  = ParentChildInteraction.Flows ->
  isRef (typeOf a p) = true.
Proof.
  unfold getParentChildInteraction.
  destruct (Checker.escapes _); [done|].
  destruct (isRef (typeOf a p)); [done|].
  by rewrite orb_true_r.
Qed.

(** X1.  When [escapes] returns false, the flows it handled are closed
    under the rules of the analysis: the flow out of the allocation was
    handled; every handled flow has a parent, classified [Flows] or
    [FullyConsumes]; where it is [Flows] the parent has a reference type
    and the flow from the parent to its own parent was handled; and for
    every label on which the parent sends the child, the flow from the
    child to the target of the label was handled. *)
Theorem escapes_false_flows_closed (fuel : nat) (allocation : Expr)
    (an : Analyzer) :
  escapes a fuel allocation = Some (false, an) ->
  exists flows,
    flowsOf a fuel allocation = Some (false, an, flows)
    /\ (allocation, getParent allocation) ∈ processed flows
    /\ forall child parent,
         (child, parent) ∈ processed flows ->
         exists p,
           parent = Some p
           /\ (getParentChildInteraction a allocation (Some p) child
               = ParentChildInteraction.Flows
               \/ getParentChildInteraction a allocation (Some p) child
                  = ParentChildInteraction.FullyConsumes)
           /\ (getParentChildInteraction a allocation (Some p) child
               = ParentChildInteraction.Flows ->
               isRef (typeOf a p) = true
               /\ (p, getParent p) ∈ processed flows)
           /\ (forall name value,
                 (name, value) ∈ scopeNameUsesAndSentValues p ->
                 value = Some child ->
                 (child, getTarget name) ∈ processed flows).
Proof.
  intros (flows & Hflows & Hdata & [Hinv _] & _ & Hstart)%escapes_false_flows.
  exists flows. split; [done|]. split; [done|].
  intros child parent Hin.
  destruct (Hinv child parent Hin) as (p & -> & Hc & Hup & Hbr & _).
  exists p. split; [done|]. split; [done|]. split.
  - intros Hf. split; [by eapply flows_needs_reference|].
    destruct (Hup Hf) as [Hd|]; [|done].
    rewrite Hdata in Hd. by apply elem_of_nil in Hd.
  - intros name value Hname ->.
    destruct (Hbr name) as [Hd|]; [| |done].
    + unfold branchesSentByParent. apply elem_of_list_to_set.
      apply list_elem_of_omap. exists (name, Some child).
      split; [done|]. simpl. by rewrite decide_True.
    + rewrite Hdata in Hd. by apply elem_of_nil in Hd.
Qed.

(** A recorded set is the parent of a flow that has been handled. *)
Lemma flowStep_sets_are_parents (allocation : Expr) (flow : ChildAndParent)
    (an an' : Analyzer) (q0 q q' : FlowQueue) :
  (forall set, set ∈ sets an ->
     exists child, (child, Some set) ∈ processed q0) ->
  pop q0 = Some (flow, q) ->
  flowStep a allocation flow an q = inr (an', q') ->
  forall set, set ∈ sets an' ->
    exists child, (child, Some set) ∈ processed q'.
Proof.
  intros Hsets Hpop Hstep set Hset.
  destruct flow as [child parent].
  destruct (flowStep_inr_parent _ _ _ _ _ _ _ Hstep) as [p ->].
  destruct (flowStep_inr_eq _ _ _ _ _ _ _ Hstep) as (_ & Hq & Hs & _).
  assert (Hprocessed : processed q' = {[ (child, Some p) ]} ∪ processed q0).
  { rewrite Hq, processed_pushAll.
    destruct (isLocalSet (kindOf a p)); rewrite ?processed_pushAll;
      case_decide; rewrite ?processed_push;
      by apply processed_pop. }
  rewrite Hprocessed. rewrite Hs in Hset.
  destruct (isLocalSet (kindOf a p)).
  - apply elem_of_union in Hset as [->%elem_of_singleton|Hset].
    + exists child. set_solver.
    + destruct (Hsets set Hset) as [c Hc]. exists c. set_solver.
  - destruct (Hsets set Hset) as [c Hc]. exists c. set_solver.
Qed.

Lemma flowLoop_sets_are_parents (fuel : nat) (allocation : Expr) :
  forall (an an' : Analyzer) (q q' : FlowQueue),
    (forall set, set ∈ sets an ->
       exists child, (child, Some set) ∈ processed q) ->
    flowLoop a fuel allocation an q = Some (false, an', q') ->
    forall set, set ∈ sets an' ->
      exists child, (child, Some set) ∈ processed q'.
Proof.
  induction fuel as [|fuel IH]; intros an an' q q' Hsets; simpl.
  - destruct (empty q); [|discriminate]. by intros [= <- <-].
  - destruct (empty q); [by intros [= <- <-]|].
    destruct (pop q) as [[flow q1]|] eqn:Hpop; [|discriminate].
    destruct (flowStep a allocation flow an q1) as [[an1 q2]|[an1 q2]]
      eqn:Hstep; [discriminate|].
    apply IH. by eapply flowStep_sets_are_parents.
Qed.

(** X2.  When [escapes] returns false, the recorded sets are exactly the
    [local.set] parents of the flows handled: an expression is a recorded
    set if and only if it is a [local.set] and the parent of a handled
    flow.  Each recorded set has an entry in the reached map, and the
    flow out of every get it influences was handled and has an entry
    too. *)
Theorem escapes_false_sets_are_reached (fuel : nat) (allocation : Expr)
    (an : Analyzer) :
  escapes a fuel allocation = Some (false, an) ->
  exists flows,
    flowsOf a fuel allocation = Some (false, an, flows)
    /\ (forall set,
          set ∈ sets an
          <-> exists child index value,
                (child, Some set) ∈ processed flows
                /\ kindOf a set = LocalSet index value)
    /\ (forall set,
          set ∈ sets an ->
          is_Some (reachedInteractions an !! set)
          /\ forall get, get ∈ getSetInfluences set ->
               (get, getParent get) ∈ processed flows
               /\ is_Some (reachedInteractions an !! get)).
Proof.
  intros (flows & Hflows & Hdata & [Hinv Hsets] & [_ Hwf] & _)
    %escapes_false_flows.
  exists flows. split; [done|]. split.
  - intros set. split.
    + intros Hset. destruct (Hsets set Hset) as (Hk & _).
      destruct (flowLoop_sets_are_parents _ _ _ _ _ _
                  (fun set Hin => False_ind _ (not_elem_of_empty set Hin))
                  Hflows set Hset) as [child Hchild].
      destruct (kindOf a set) eqn:Hkind; try discriminate. eauto.
    + intros (child & index & value & Hin & Hk).
      destruct (Hinv child (Some set) Hin)
        as (p' & [= <-] & _ & _ & _ & Hset).
      apply Hset. by rewrite Hk.
  - intros set Hset. destruct (Hsets set Hset) as (_ & Hr & Hgets).
    split; [done|].
    intros get Hget.
    assert (Hin : (get, getParent get) ∈ processed flows).
    { destruct (Hgets get Hget) as [Hd|]; [|done].
      rewrite Hdata in Hd. by apply elem_of_nil in Hd. }
    split; [done|]. by destruct (Hwf _ _ Hin).
Qed.

(** X3.  When [escapes] returns false, no flow it handled enters an
    expression the checker does not know: an [if], a call, a constant,
    an allocation, or any other class without a case of its own; and a
    [ref.as] it enters is a [ref.as_non_null]. *)
Theorem escapes_false_parents_are_supported (fuel : nat)
    (allocation : Expr) (an : Analyzer) :
  escapes a fuel allocation = Some (false, an) ->
  exists flows,
    flowsOf a fuel allocation = Some (false, an, flows)
    /\ forall child p,
         (child, Some p) ∈ processed flows ->
         match kindOf a p with
         | If _ _ _ | Call _ _ | Const _ | Unreachable | Nop | Pop | RefNull
         | StructNew _ _ | ArrayNew _ _ | ArrayNewFixed _ | Other _ => False
         | RefAs op _ => op = RefAsNonNull
         | _ => True
         end.
Proof.
  intros (flows & Hflows & _ & [Hinv _] & _)%escapes_false_flows.
  exists flows. split; [done|].
  intros child p Hin.
  destruct (Hinv child (Some p) Hin) as (p' & [= <-] & Hc & _).
  pose proof (checker_supported_use _ _ _
                (classified_not_escaping _ _ _ Hc)) as Hs.
  by destruct (kindOf a p).
Qed.

(** X4.  When [escapes] returns false, every [array.get] and [array.set]
    a handled flow enters has a constant index, so that the rewriter can
    read the index off it; and the allocation enters an [array.set] as
    the reference, never as the value stored. *)
Theorem escapes_false_array_indexes_are_constant (fuel : nat)
    (allocation : Expr) (an : Analyzer) :
  escapes a fuel allocation = Some (false, an) ->
  exists flows,
    flowsOf a fuel allocation = Some (false, an, flows)
    /\ (forall child p ref index signed,
          (child, Some p) ∈ processed flows ->
          kindOf a p = ArrayGet ref index signed ->
          exists c, kindOf a index = Const c)
    /\ (forall child p ref index value,
          (child, Some p) ∈ processed flows ->
          kindOf a p = ArraySet ref index value ->
          (exists c, kindOf a index = Const c) /\ ref = child).
Proof.
  intros (flows & Hflows & _ & [Hinv _] & _)%escapes_false_flows.
  assert (Hconst : forall index, is_Some (asConst a index) ->
                                 exists c, kindOf a index = Const c).
  { intros index [c Hc]. unfold asConst in Hc.
    destruct (kindOf a index); try discriminate. eauto. }
  exists flows. split; [done|]. split.
  - intros child p ref index signed Hin Hk.
    destruct (Hinv child (Some p) Hin) as (p' & [= <-] & Hc & _).
    pose proof (checker_supported_use _ _ _
                  (classified_not_escaping _ _ _ Hc)) as Hs.
    rewrite Hk in Hs. by apply Hconst.
  - intros child p ref index value Hin Hk.
    destruct (Hinv child (Some p) Hin) as (p' & [= <-] & Hc & _).
    pose proof (checker_supported_use _ _ _
                  (classified_not_escaping _ _ _ Hc)) as Hs.
    rewrite Hk in Hs. destruct Hs as [Hi ->]. split; [by apply Hconst|done].
Qed.

(** X5.  When [escapes] returns false, the allocation is never what a
    handled flow stores or swaps into memory: it enters a [struct.set],
    a [struct.rmw] or an [array.rmw] as the reference, and a
    [struct.cmpxchg] or an [array.cmpxchg] as the reference or as the
    expected value. *)
Theorem escapes_false_allocation_is_not_stored (fuel : nat)
    (allocation : Expr) (an : Analyzer) :
  escapes a fuel allocation = Some (false, an) ->
  exists flows,
    flowsOf a fuel allocation = Some (false, an, flows)
    /\ forall child p,
         (child, Some p) ∈ processed flows ->
         match kindOf a p with
         | StructSet _ ref _ | StructRMW _ _ ref _ | ArrayRMW _ ref _ _ =>
             ref = child
         | StructCmpxchg _ ref expected _ | ArrayCmpxchg ref _ expected _ =>
             ref = child \/ expected = child
         | _ => True
         end.
Proof.
  intros (flows & Hflows & _ & [Hinv _] & _)%escapes_false_flows.
  exists flows. split; [done|].
  intros child p Hin.
  destruct (Hinv child (Some p) Hin) as (p' & [= <-] & Hc & _).
  pose proof (checker_supported_use _ _ _
                (classified_not_escaping _ _ _ Hc)) as Hs.
  by destruct (kindOf a p).
Qed.

(** X6.  When the parent of the allocation lets it escape or mixes it
    with other values, and in particular when the allocation is the body
    of the function, [escapes] returns true at the first flow and records
    nothing. *)
Theorem escapes_at_first_flow (fuel : nat) (allocation : Expr) :
  getParent allocation = None
  \/ getParentChildInteraction a allocation (getParent allocation)
       allocation = ParentChildInteraction.Escapes
  \/ getParentChildInteraction a allocation (getParent allocation)
       allocation = ParentChildInteraction.Mixes ->
  escapes a (S fuel) allocation = Some (true, newAnalyzer).
Proof.
  intros Hfirst.
  assert (Hi : getParentChildInteraction a allocation (getParent allocation)
                 allocation = ParentChildInteraction.Escapes
               \/ getParentChildInteraction a allocation
                    (getParent allocation) allocation
                  = ParentChildInteraction.Mixes).
  { destruct Hfirst as [Hnone|[|]]; [|tauto..].
    left. by rewrite Hnone. }
  unfold escapes, flowsOf, push. simpl.
  rewrite decide_False by set_solver. simpl.
  by rewrite decide_True.
Qed.

(** *** Termination *)

Lemma data_push_inv (item x : ChildAndParent) (q : FlowQueue) :
  x ∈ data (push item q) ->
  x ∈ data q \/ (x = item /\ item ∉ processed q).
Proof.
  unfold push. case_decide; [by left|]. simpl.
  intros [Hx|Hx%list_elem_of_singleton]%elem_of_app; [by left|by right].
Qed.

Lemma data_pushAll_inv (items : list ChildAndParent) (x : ChildAndParent)
    (q : FlowQueue) :
  x ∈ data (pushAll items q) ->
  x ∈ data q \/ (x ∈ items /\ x ∉ processed q).
Proof.
  unfold pushAll. revert q.
  induction items as [|item items IH]; intros q; simpl; [by left|].
  intros [Hx|[Hx Hnp]]%IH.
  - apply data_push_inv in Hx as [Hx|[-> Hnp]]; [by left|].
    right. split; [left|done].
  - right. rewrite processed_push in Hnp. split; [by right|done].
Qed.

Lemma popData_spec (l rest : list ChildAndParent) (item : ChildAndParent) :
  popData l = Some (item, rest) ->
  item ∈ l /\ (item ∉ rest) /\ rest ⊆ l.
Proof.
  revert rest. induction l as [|y l IH]; intros rest; simpl; [done|].
  destruct (decide (y ∈ l)) as [Hy|Hy].
  - intros (Hin & Hout & Hsub)%IH. split; [by right|]. split; [done|].
    intros x Hx. right. by apply Hsub.
  - intros [= <- <-]. split; [left|]. split; [done|].
    intros x Hx. by right.
Qed.

Lemma popData_is_Some (l : list ChildAndParent) :
  l <> [] -> is_Some (popData l).
Proof.
  induction l as [|y l IH]; [done|]. intros _. simpl.
  destruct (decide (y ∈ l)) as [Hy|Hy]; [|eauto].
  apply IH. intros ->. by apply elem_of_nil in Hy.
Qed.

Lemma flowStep_queueWithin (allocation : Expr) (U : gset ChildAndParent)
    (flow : ChildAndParent) (an an' : Analyzer) (q0 q q' : FlowQueue) :
  closedUnderFlows a allocation U ->
  queueWithin U q0 ->
  pop q0 = Some (flow, q) ->
  flowStep a allocation flow an q = inr (an', q') ->
  queueWithin U q' /\ (flow ∉ processed q0)
  /\ processed q' = {[ flow ]} ∪ processed q0.
Proof.
  intros (Hup & Hgets & Hbr) [Hdata Hproc] Hpop Hstep.
  destruct flow as [child parent].
  destruct (flowStep_inr_parent _ _ _ _ _ _ _ Hstep) as [p ->].
  pose proof (flowStep_inr_eq _ _ _ _ _ _ _ Hstep) as Heq. simpl in Heq.
  destruct Heq as (Hi & Hq' & _ & _).
  pose proof (processed_pop _ _ _ Hpop) as Hprocq.
  unfold pop in Hpop.
  destruct (popData (data q0)) as [[i rest]|] eqn:Hd; [|discriminate].
  injection Hpop as -> Hq. 
  destruct (popData_spec _ _ _ Hd) as (Hin & Hout & Hsub).
  destruct (Hdata _ Hin) as [HinU Hfresh].
  assert (Hrest : data q = rest) by (by subst q).
  set (i := getParentChildInteraction a allocation (Some p) child) in *.
  set (q1 := if decide (i = ParentChildInteraction.Flows)
             then push (p, getParent p) q else q) in *.
  set (q2 := if isLocalSet (kindOf a p)
             then pushAll (map (fun get => (get, getParent get))
                               (getSetInfluences p)) q1
             else q1) in *.
  assert (Hp1 : processed q1 = processed q).
  { subst q1. case_decide; by rewrite ?processed_push. }
  assert (Hp2 : processed q2 = processed q).
  { subst q2. destruct (isLocalSet _); by rewrite ?processed_pushAll. }
  assert (Hp' : processed q' = {[ (child, Some p) ]} ∪ processed q0).
  { by rewrite Hq', processed_pushAll, Hp2. }
  assert (Hd0 : forall x, x ∈ data q -> x ∈ U /\ x ∉ processed q).
  { intros x Hx. rewrite Hrest in Hx.
    destruct (Hdata x (Hsub x Hx)) as [HxU Hxn]. split; [done|].
    rewrite Hprocq. intros [->%elem_of_singleton|]%elem_of_union; done. }
  assert (Hd1 : forall x, x ∈ data q1 -> x ∈ U /\ x ∉ processed q).
  { intros x Hx. subst q1. case_decide as Hf; [|by apply Hd0].
    apply data_push_inv in Hx as [Hx|[-> Hnp]]; [by apply Hd0|].
    split; [by eapply Hup|done]. }
  assert (Hd2 : forall x, x ∈ data q2 -> x ∈ U /\ x ∉ processed q).
  { intros x Hx. subst q2.
    destruct (isLocalSet (kindOf a p)) eqn:Hk; [|by apply Hd1].
    apply data_pushAll_inv in Hx as [Hx|[Hx Hnp]]; [by apply Hd1|].
    rewrite Hp1 in Hnp. split; [|done].
    apply list_elem_of_fmap in Hx as (get & -> & Hget). by eapply Hgets. }
  split; [|done]. split.
  - intros x Hx.
    assert (Hpq : processed q' = processed q)
      by (by rewrite Hq', processed_pushAll, Hp2).
    rewrite Hpq. rewrite Hq' in Hx.
    apply data_pushAll_inv in Hx as [Hx|[Hx Hnp]]; [by apply Hd2|].
    rewrite Hp2 in Hnp. split; [|done].
    apply list_elem_of_fmap in Hx as (name & -> & Hname).
    apply elem_of_elements in Hname. unfold branchesSentByParent in Hname.
    apply elem_of_list_to_set, list_elem_of_omap in Hname
      as ([name' value] & Hname & Hsome).
    simpl in Hsome. case_decide as Hv; [|discriminate].
    injection Hsome as ->. subst value. by eapply Hbr.
  - rewrite Hp'. set_solver.
Qed.

Lemma flowLoop_terminates (allocation : Expr) (U : gset ChildAndParent) :
  closedUnderFlows a allocation U ->
  forall (fuel : nat) (an : Analyzer) (q : FlowQueue),
    queueWithin U q ->
    (size U <= fuel + size (processed q))%nat ->
    is_Some (flowLoop a fuel allocation an q).
Proof.
  intros Hclosed. induction fuel as [|fuel IH]; intros an q Hq Hsize; simpl.
  - destruct (data q) as [|x l] eqn:Hd.
    { unfold empty. rewrite Hd. eauto. }
    exfalso. destruct Hq as [Hdata Hproc].
    destruct (Hdata x) as [HxU Hxn]; [rewrite Hd; left|].
    apply Hxn. rewrite (set_subseteq_size_eq _ _ Hproc); [done|lia].
  - destruct (empty q) eqn:He; [eauto|].
    assert (Hne : data q <> []).
    { intros Hd. unfold empty in He. by rewrite Hd in He. }
    destruct (popData_is_Some _ Hne) as [[item rest] Hd].
    assert (Hpop : pop q = Some (item, {| data := rest;
                     processed := {[ item ]} ∪ processed q |})).
    { unfold pop. by rewrite Hd. }
    rewrite Hpop.
    destruct (flowStep a allocation item an _) as [[an1 q2]|[an1 q2]]
      eqn:Hstep; [eauto|].
    destruct (flowStep_queueWithin _ _ _ _ _ _ _ _ Hclosed Hq Hpop Hstep)
      as (Hq2 & Hfresh & Hp2).
    apply IH; [done|].
    rewrite Hp2, size_union, size_singleton by set_solver. lia.
Qed.

(** X7.  The analysis terminates: when some finite set of flows holds the
    flow out of the allocation and is closed under the rules by which the
    analysis pushes flows, a fuel of the size of that set is enough for
    [escapes] to return, and its result no longer changes with more
    fuel. *)
Theorem escapes_terminates (allocation : Expr) (U : gset ChildAndParent)
    (fuel : nat) :
  (allocation, getParent allocation) ∈ U ->
  closedUnderFlows a allocation U ->
  (size U <= fuel)%nat ->
  exists result,
    escapes a (size U) allocation = Some result
    /\ escapes a fuel allocation = Some result.
Proof.
  intros Hstart Hclosed Hfuel.
  assert (Hq : queueWithin U
                 (push (allocation, getParent allocation) emptyQueue)).
  { unfold push. simpl. rewrite decide_False by set_solver. split; simpl.
    - intros x ->%list_elem_of_singleton. split; [done|set_solver].
    - set_solver. }
  destruct (flowLoop_terminates _ _ Hclosed (size U) newAnalyzer _ Hq)
    as [r Hr]; [lia|].
  assert (Hmore : forall k,
            flowLoop a (k + size U) allocation newAnalyzer
              (push (allocation, getParent allocation) emptyQueue)
            = Some r).
  { induction k as [|k IHk]; [done|]. by apply flowLoop_more_fuel. }
  specialize (Hmore (fuel - size U)%nat).
  replace (fuel - size U + size U)%nat with fuel in Hmore by lia.
  unfold escapes, flowsOf. rewrite Hr, Hmore.
  destruct r as [[[] an] q]; eauto.
  destruct (negb (getsAreExclusiveToSets an)); eauto.
Qed.

End FlowProperties.

Section FlowWitnesses.

Import EscapeAnalyzer.

Lemma escapes_false_flows_closed_witness :
  escapes (H := Samples.boxedTables) Samples.boxedArena 10 1%positive
  = Some (false, Samples.boxedAnalyzer)
  /\ exists flows,
       flowsOf (H := Samples.boxedTables) Samples.boxedArena 10 1%positive
       = Some (false, Samples.boxedAnalyzer, flows)
       /\ (1%positive, getParent (Collaborators := Samples.boxedTables)
                         1%positive) ∈ processed flows
       /\ forall child parent,
            (child, parent) ∈ processed flows ->
            exists p,
              parent = Some p
              /\ (getParentChildInteraction (H := Samples.boxedTables)
                    Samples.boxedArena 1%positive (Some p) child
                  = ParentChildInteraction.Flows
                  \/ getParentChildInteraction (H := Samples.boxedTables)
                       Samples.boxedArena 1%positive (Some p) child
                     = ParentChildInteraction.FullyConsumes)
              /\ (getParentChildInteraction (H := Samples.boxedTables)
                    Samples.boxedArena 1%positive (Some p) child
                  = ParentChildInteraction.Flows ->
                  isRef (typeOf Samples.boxedArena p) = true
                  /\ (p, getParent (Collaborators := Samples.boxedTables) p)
                     ∈ processed flows)
              /\ (forall name value,
                    (name, value)
                    ∈ scopeNameUsesAndSentValues
                        (Collaborators := Samples.boxedTables) p ->
                    value = Some child ->
                    (child, getTarget (Collaborators := Samples.boxedTables)
                              name) ∈ processed flows).
Proof.
  split; [vm_compute; reflexivity|].
  apply (escapes_false_flows_closed (H := Samples.boxedTables)
           Samples.boxedArena 10 1%positive Samples.boxedAnalyzer).
  vm_compute; reflexivity.
Defined.

Lemma escapes_false_sets_are_reached_witness :
  escapes (H := Samples.boxedTables) Samples.boxedArena 10 1%positive
  = Some (false, Samples.boxedAnalyzer)
  /\ exists flows,
       flowsOf (H := Samples.boxedTables) Samples.boxedArena 10 1%positive
       = Some (false, Samples.boxedAnalyzer, flows)
       /\ (forall set,
             set ∈ sets Samples.boxedAnalyzer
             <-> exists child index value,
                   (child, Some set) ∈ processed flows
                   /\ kindOf Samples.boxedArena set = LocalSet index value)
       /\ (forall set,
             set ∈ sets Samples.boxedAnalyzer ->
             is_Some (reachedInteractions Samples.boxedAnalyzer !! set)
             /\ forall get,
                  get ∈ getSetInfluences
                          (Collaborators := Samples.boxedTables) set ->
                  (get, getParent (Collaborators := Samples.boxedTables) get)
                  ∈ processed flows
                  /\ is_Some (reachedInteractions Samples.boxedAnalyzer
                              !! get)).
Proof.
  split; [vm_compute; reflexivity|].
  apply (escapes_false_sets_are_reached (H := Samples.boxedTables)
           Samples.boxedArena 10 1%positive Samples.boxedAnalyzer).
  vm_compute; reflexivity.
Defined.

Lemma escapes_false_parents_are_supported_witness :
  escapes (H := Samples.boxedTables) Samples.boxedArena 10 1%positive
  = Some (false, Samples.boxedAnalyzer)
  /\ exists flows,
       flowsOf (H := Samples.boxedTables) Samples.boxedArena 10 1%positive
       = Some (false, Samples.boxedAnalyzer, flows)
       /\ forall child p,
            (child, Some p) ∈ processed flows ->
            match kindOf Samples.boxedArena p with
            | If _ _ _ | Call _ _ | Const _ | Unreachable | Nop | Pop
            | RefNull | StructNew _ _ | ArrayNew _ _ | ArrayNewFixed _
            | Other _ => False
            | RefAs op _ => op = RefAsNonNull
            | _ => True
            end.
Proof.
  split; [vm_compute; reflexivity|].
  apply (escapes_false_parents_are_supported (H := Samples.boxedTables)
           Samples.boxedArena 10 1%positive Samples.boxedAnalyzer).
  vm_compute; reflexivity.
Defined.

Lemma escapes_false_array_indexes_are_constant_witness :
  escapes (H := Samples.arrayTables) Samples.arrayArena 10 2%positive
  = Some (false, Samples.arrayAnalyzer)
  /\ exists flows,
       flowsOf (H := Samples.arrayTables) Samples.arrayArena 10 2%positive
       = Some (false, Samples.arrayAnalyzer, flows)
       /\ (forall child p ref index signed,
             (child, Some p) ∈ processed flows ->
             kindOf Samples.arrayArena p = ArrayGet ref index signed ->
             exists c, kindOf Samples.arrayArena index = Const c)
       /\ (forall child p ref index value,
             (child, Some p) ∈ processed flows ->
             kindOf Samples.arrayArena p = ArraySet ref index value ->
             (exists c, kindOf Samples.arrayArena index = Const c)
             /\ ref = child).
Proof.
  split; [vm_compute; reflexivity|].
  apply (escapes_false_array_indexes_are_constant (H := Samples.arrayTables)
           Samples.arrayArena 10 2%positive Samples.arrayAnalyzer).
  vm_compute; reflexivity.
Defined.

Lemma escapes_false_allocation_is_not_stored_witness :
  escapes (H := Samples.storedTables) Samples.storedArena 10 1%positive
  = Some (false, Samples.storedAnalyzer)
  /\ exists flows,
       flowsOf (H := Samples.storedTables) Samples.storedArena 10 1%positive
       = Some (false, Samples.storedAnalyzer, flows)
       /\ forall child p,
            (child, Some p) ∈ processed flows ->
            match kindOf Samples.storedArena p with
            | StructSet _ ref _ | StructRMW _ _ ref _ | ArrayRMW _ ref _ _ =>
                ref = child
            | StructCmpxchg _ ref expected _
            | ArrayCmpxchg ref _ expected _ =>
                ref = child \/ expected = child
            | _ => True
            end.
Proof.
  split; [vm_compute; reflexivity|].
  apply (escapes_false_allocation_is_not_stored (H := Samples.storedTables)
           Samples.storedArena 10 1%positive Samples.storedAnalyzer).
  vm_compute; reflexivity.
Defined.

(** The same struct when it is the value a [struct.set] stores: the
    analysis fails at the first flow. *)
Example stored_allocation_escapes :
  escapes (H := Samples.storedTables) Samples.storedArena 10 6%positive
  = Some (true, newAnalyzer).
Proof. vm_compute. reflexivity. Qed.

Lemma escapes_at_first_flow_witness :
  (getParent (Collaborators := Samples.ifTables) 1%positive = None
   \/ getParentChildInteraction (H := Samples.ifTables) Samples.ifArena
        1%positive (getParent (Collaborators := Samples.ifTables) 1%positive)
        1%positive = ParentChildInteraction.Escapes
   \/ getParentChildInteraction (H := Samples.ifTables) Samples.ifArena
        1%positive (getParent (Collaborators := Samples.ifTables) 1%positive)
        1%positive = ParentChildInteraction.Mixes)
  /\ escapes (H := Samples.ifTables) Samples.ifArena 1 1%positive
     = Some (true, newAnalyzer).
Proof.
  assert (Hfirst :
    getParent (Collaborators := Samples.ifTables) 1%positive = None
    \/ getParentChildInteraction (H := Samples.ifTables) Samples.ifArena
         1%positive (getParent (Collaborators := Samples.ifTables) 1%positive)
         1%positive = ParentChildInteraction.Escapes
    \/ getParentChildInteraction (H := Samples.ifTables) Samples.ifArena
         1%positive (getParent (Collaborators := Samples.ifTables) 1%positive)
         1%positive = ParentChildInteraction.Mixes).
  { right; left. vm_compute. reflexivity. }
  split; [exact Hfirst|].
  exact (escapes_at_first_flow (H := Samples.ifTables) Samples.ifArena
           0 1%positive Hfirst).
Defined.

(** The body of a function escapes. *)
Example function_body_escapes :
  escapes (H := Samples.noTables) Samples.arraysArena 1 2%positive
  = Some (true, newAnalyzer).
Proof. vm_compute. reflexivity. Qed.

Lemma boxedFlows_closed :
  closedUnderFlows (H := Samples.boxedTables) Samples.boxedArena 1%positive
    Samples.boxedFlows.
Proof.
  unfold Samples.boxedFlows. repeat split.
  - intros child p Hin Hflows. exfalso.
    set_unfold in Hin.
    destruct Hin as [[Hin|Hin]|Hin]; injection Hin as -> ->;
      vm_compute in Hflows; discriminate.
  - intros child p get Hin Hset Hget.
    set_unfold in Hin.
    destruct Hin as [[Hin|Hin]|Hin]; injection Hin as -> ->;
      try (vm_compute in Hset; discriminate).
    simpl in Hget. set_unfold in Hget.
    destruct Hget as [->|[->|[]]]; set_solver.
  - intros child p name _ Hname. simpl in Hname.
    by apply elem_of_nil in Hname.
Qed.

Lemma escapes_terminates_witness :
  ((1%positive, getParent (Collaborators := Samples.boxedTables) 1%positive)
   ∈ Samples.boxedFlows
   /\ (size Samples.boxedFlows <= 5)%nat)
  /\ exists result,
       escapes (H := Samples.boxedTables) Samples.boxedArena
         (size Samples.boxedFlows) 1%positive = Some result
       /\ escapes (H := Samples.boxedTables) Samples.boxedArena 5 1%positive
          = Some result.
Proof.
  assert (Hstart : (1%positive,
                    getParent (Collaborators := Samples.boxedTables)
                      1%positive) ∈ Samples.boxedFlows).
  { unfold Samples.boxedFlows. simpl. set_solver. }
  assert (Hsize : (size Samples.boxedFlows <= 5)%nat).
  { vm_compute. lia. }
  split; [by split|].
  exact (escapes_terminates (H := Samples.boxedTables) Samples.boxedArena
           1%positive Samples.boxedFlows 5 Hstart boxedFlows_closed Hsize).
Defined.

End FlowWitnesses.

(** ** More on the allocations the pass considers *)

Section FinderMoreProperties.

Local Set Warnings "-clear-no-such-hyp".

Import AllocationFinder Rewriter.

Lemma isValidSizeExpr_of_valid (a : Arena) (size : Expr) (c : Literal)
    (u : Z) :
  asConst a size = Some c -> getUnsigned c = Some u -> wrap32 u < 20 ->
  isValidSizeExpr a size = true.
Proof.
  intros Hc Hu Hlt. unfold isValidSizeExpr, isValidSize.
  rewrite Hc, Hu. by apply bool_decide_eq_true.
Qed.

(** What one visit adds to the three results of the finder. *)
Lemma visit_collects (a : Arena) (curr : Expr) (f : t) :
  (forall e, e ∈ arrayNews (visit a curr f)
             <-> e ∈ arrayNews f \/ (e = curr /\ validArrayNew a curr))
  /\ (forall e, e ∈ structNews (visit a curr f)
                <-> e ∈ structNews f
                    \/ (e = curr
                        /\ (exists operands desc,
                              kindOf a curr = StructNew operands desc)
                        /\ typeOf a curr <> Tunreachable))
  /\ (hasPop (visit a curr f) = true
      <-> hasPop f = true \/ kindOf a curr = Pop).
Proof.
  unfold visit, validArrayNew.
  destruct (kindOf a curr) as [| | | | | | | | | | | | | | | | | | | |
    operands desc| | | | |ini size|values| | | | |] eqn:Hk; simpl;
    try (split; [|split]; naive_solver).
  - (* StructNew *)
    unfold visitStructNew. case_decide as Hty; simpl.
    + split; [naive_solver|]. split; [|naive_solver].
      intros e. rewrite elem_of_app, list_elem_of_singleton. naive_solver.
    + split; [|split]; naive_solver.
  - (* ArrayNew *)
    unfold visitArrayNew.
    destruct (bool_decide _ && _) eqn:Hc; simpl.
    + apply andb_prop in Hc as [Hty%bool_decide_eq_true Hsize].
      split; [|split; naive_solver].
      intros e. rewrite elem_of_app, list_elem_of_singleton. split.
      * intros [Hin| ->]; [by left|]. right. split; [done|].
        split; [done|]. left.
        unfold isValidSizeExpr, isValidSize in Hsize.
        destruct (asConst a size) as [c|] eqn:Hcst; [|done].
        destruct (getUnsigned c) as [u|] eqn:Hu; [|done].
        apply bool_decide_eq_true in Hsize.
        exists ini, size, c, u. repeat (split; [done|]).
        intros z ->. simpl in Hu. injection Hu as <-.
        unfold wrap32 in *. by rewrite Z.mod_mod in Hsize by lia.
      * intros [|[-> _]]; [by left|by right].
    + split; [|split; naive_solver].
      intros e. split; [by left|]. intros [|[-> [Hty Hv]]]; [done|].
      exfalso. destruct Hv as [(ini' & size' & c & u & Heq & Hcst
                                & Hu & Hlt & _)|(vs & Heq & _)];
        [|discriminate].
      injection Heq as <- <-.
      rewrite (isValidSizeExpr_of_valid _ _ _ _ Hcst Hu Hlt) in Hc.
      rewrite andb_true_r in Hc. by apply bool_decide_eq_false in Hc.
  - (* ArrayNewFixed *)
    unfold visitArrayNewFixed.
    destruct (bool_decide _ && _) eqn:Hc; simpl.
    + apply andb_prop in Hc as [Hty%bool_decide_eq_true
                                 Hsize%bool_decide_eq_true].
      split; [|split; naive_solver].
      intros e. rewrite elem_of_app, list_elem_of_singleton. naive_solver.
    + split; [|split; naive_solver].
      intros e. split; [by left|]. intros [|[-> [Hty Hv]]]; [done|].
      exfalso. destruct Hv as [(? & ? & ? & ? & Heq & _)
                               |(vs & Heq & Hlt)]; [discriminate|].
      injection Heq as <-.
      apply andb_false_iff in Hc as [Hc%bool_decide_eq_false
                                    |Hc%bool_decide_eq_false]; done.
Qed.

Lemma foldl_visit_collects (a : Arena) (order : list Expr) (f : t) :
  let f' := foldl (fun f curr => visit a curr f) f order in
  (forall e, e ∈ arrayNews f'
             <-> e ∈ arrayNews f \/ (e ∈ order /\ validArrayNew a e))
  /\ (forall e, e ∈ structNews f'
                <-> e ∈ structNews f
                    \/ (e ∈ order
                        /\ (exists operands desc,
                              kindOf a e = StructNew operands desc)
                        /\ typeOf a e <> Tunreachable))
  /\ (hasPop f' = true
      <-> hasPop f = true \/ exists e, e ∈ order /\ kindOf a e = Pop).
Proof.
  revert f. induction order as [|curr order IH]; intros f; simpl.
  - split; [|split].
    + intros e. split; [by left|].
      intros [|[Hin _]]; [done|]. by apply elem_of_nil in Hin.
    + intros e. split; [by left|].
      intros [|[Hin _]]; [done|]. by apply elem_of_nil in Hin.
    + split; [by left|].
      intros [|(e & Hin & _)]; [done|]. by apply elem_of_nil in Hin.
  - destruct (IH (visit a curr f)) as (Ha & Hs & Hp).
    destruct (visit_collects a curr f) as (Ha1 & Hs1 & Hp1).
    split; [|split].
    + intros e. rewrite Ha, Ha1, elem_of_cons. naive_solver.
    + intros e. rewrite Hs, Hs1, elem_of_cons. naive_solver.
    + rewrite Hp, Hp1. split.
      * intros [[|]|(e & He & Hk)]; [by left| |].
        -- right. exists curr. split; [left|done].
        -- right. exists e. split; [by right|done].
      * intros [|(e & [->|He]%elem_of_cons & Hk)]; [by left; left| |].
        -- by left; right.
        -- right. eauto.
Qed.

(** X8.  The finder collects exactly the allocations it is after: an
    array allocation is collected if and only if the walk visits it, its
    type is not unreachable, and its size is a constant below 20 (for an
    [array.new]) or it has fewer than 20 values (for an
    [array.new_fixed]); a [struct.new] is collected if and only if the
    walk visits it and its type is not unreachable; and the finder
    reports a pop if and only if the walk visits one. *)
Theorem finder_collects_exactly (a : Arena) (order : list Expr) :
  (forall e, e ∈ arrayNews (walk a order)
             <-> e ∈ order /\ validArrayNew a e)
  /\ (forall e, e ∈ structNews (walk a order)
                <-> e ∈ order
                    /\ (exists operands desc,
                          kindOf a e = StructNew operands desc)
                    /\ typeOf a e <> Tunreachable)
  /\ (hasPop (walk a order) = true
      <-> exists e, e ∈ order /\ kindOf a e = Pop).
Proof.
  destruct (foldl_visit_collects a order init) as (Ha & Hs & Hp).
  unfold walk. split; [|split].
  - intros e. rewrite Ha. simpl. split; [|by right].
    intros [Hin|]; [|done]. by apply elem_of_nil in Hin.
  - intros e. rewrite Hs. simpl. split; [|by right].
    intros [Hin|]; [|done]. by apply elem_of_nil in Hin.
  - rewrite Hp. simpl. split; [|by right]. intros [|]; done.
Qed.

(** X9.  [getArrayNewSize] can read the size of every array allocation
    the finder collected: it does not abort on it, it changes nothing,
    and the size it returns is below 20; for an [array.new] it is the
    unsigned value of the constant size, narrowed to an index, and for an
    [array.new_fixed] the number of values. *)
Theorem getArrayNewSize_reads_candidates (s : Rewrite) (order : list Expr)
    (e : Expr) :
  e ∈ arrayNews (walk (arena s) order) ->
  exists size,
    Array2Struct.getArrayNewSize e s = Some (size, s)
    /\ 0 <= size < 20
    /\ match kindOf (arena s) e with
       | ArrayNew _ sizeExpr =>
           exists c u,
             asConst (arena s) sizeExpr = Some c
             /\ getUnsigned c = Some u
             /\ size = wrap32 u
       | ArrayNewFixed values => size = wrap32 (Z.of_nat (length values))
       | _ => False
       end.
Proof.
  intros Hin.
  destruct (foldl_visit_collects (arena s) order init) as (Hcollects & _).
  apply (proj1 (Hcollects e)) in Hin as [Hin|[_ [Hty Hv]]];
    [by apply elem_of_nil in Hin|].
  assert (Hrange : forall z, 0 <= wrap32 z).
  { intros z. unfold wrap32. apply Z.mod_pos_bound. lia. }
  unfold Array2Struct.getArrayNewSize, Array2Struct.getIndex, kindOfM,
    bind, gets, ret, lift.
  destruct Hv as [(ini & size & c & u & Hk & Hc & Hu & Hlt & _)
                 |(values & Hk & Hlt)]; rewrite Hk.
  - pose proof Hc as Hconst. unfold asConst in Hc.
    destruct (kindOf (arena s) size) eqn:Hks; try discriminate.
    injection Hc as ->. rewrite Hu.
    eexists. split; [reflexivity|]. split; [auto|]. by exists c, u.
  - eexists. split; [reflexivity|]. auto.
Qed.

Lemma getArrayNewSize_reads_candidates_witness :
  2%positive ∈ arrayNews (walk (arena Samples.arrayRewrite)
                            [1; 2; 3; 4; 5]%positive)
  /\ exists size,
       Array2Struct.getArrayNewSize 2%positive Samples.arrayRewrite
       = Some (size, Samples.arrayRewrite)
       /\ 0 <= size < 20
       /\ match kindOf (arena Samples.arrayRewrite) 2%positive with
          | ArrayNew _ sizeExpr =>
              exists c u,
                asConst (arena Samples.arrayRewrite) sizeExpr = Some c
                /\ getUnsigned c = Some u
                /\ size = wrap32 u
          | ArrayNewFixed values =>
              size = wrap32 (Z.of_nat (length values))
          | _ => False
          end.
Proof.
  assert (Hin : 2%positive ∈ arrayNews (walk (arena Samples.arrayRewrite)
                                          [1; 2; 3; 4; 5]%positive)).
  { vm_compute. apply list_elem_of_here. }
  split; [exact Hin|].
  exact (getArrayNewSize_reads_candidates Samples.arrayRewrite
           [1; 2; 3; 4; 5]%positive 2%positive Hin).
Defined.

End FinderMoreProperties.

(** ** More on Outlining *)

Section OutliningMoreProperties.

Import Outlining.

(** *** The function list *)

(** X10.  Moving the last [k] functions to the front and then the last
    [n - k] restores the list, for a list of [n] functions; moving none
    or all of them changes nothing; and the functions moved are the same
    functions, none lost, none null that was not. *)
Theorem moveOutlinedFunctions_round_trip {A} (functions : list (option A))
    (k : Z) :
  0 <= k <= Z.of_nat (length functions) ->
  exists moved,
    moveOutlinedFunctions functions k = Some moved
    /\ moveOutlinedFunctions moved (Z.of_nat (length functions) - k)
       = Some functions
    /\ moved ≡ₚ functions
    /\ (k = 0 \/ k = Z.of_nat (length functions) -> moved = functions).
Proof.
  intros Hk.
  set (n := length functions).
  assert (Hmove : forall (l : list (option A)) (j : nat),
            (j <= length l)%nat ->
            moveOutlinedFunctions l (Z.of_nat j)
            = Some (drop (length l - j) l ++ take (length l - j) l)).
  { intros l j Hj. unfold moveOutlinedFunctions.
    rewrite decide_True by lia. unfold moveRange.
    rewrite Nat2Z.id. f_equal.
    rewrite (assoc_L (++)). apply resize_shrink.
    rewrite length_app, length_drop, length_take. lia. }
  set (j := Z.to_nat k).
  exists (drop (n - j) functions ++ take (n - j) functions).
  assert (Hj : (j <= n)%nat) by (subst j n; lia).
  split. { replace k with (Z.of_nat j) by (subst j; lia). by apply Hmove. }
  split.
  { replace (Z.of_nat n - k) with (Z.of_nat (n - j)) by (subst j n; lia).
    assert (Hlen : length (drop (n - j) functions) = j)
      by (rewrite length_drop; fold n; lia).
    assert (Hall : length (drop (n - j) functions
                           ++ take (n - j) functions) = n)
      by (rewrite length_app, Hlen, length_take; fold n; lia).
    rewrite Hmove by lia. f_equal. rewrite Hall.
    replace (n - (n - j))%nat with j by lia.
    rewrite (drop_app_length' _ _ j), (take_app_length' _ _ j) by done.
    apply take_drop. }
  split.
  { rewrite Permutation_app_comm. by rewrite take_drop. }
  intros [->| ->].
  - subst j n. simpl. rewrite Nat.sub_0_r.
    by rewrite drop_all, take_ge by lia.
  - subst j n. rewrite Nat2Z.id, Nat.sub_diag. simpl. apply app_nil_r.
Qed.

Lemma moveOutlinedFunctions_round_trip_witness :
  0 <= 2 <= Z.of_nat (length [Some 1; Some 2; Some 3; Some 4; Some 5])
  /\ exists moved,
       moveOutlinedFunctions [Some 1; Some 2; Some 3; Some 4; Some 5] 2
       = Some moved
       /\ moveOutlinedFunctions moved
            (Z.of_nat (length [Some 1; Some 2; Some 3; Some 4; Some 5]) - 2)
          = Some [Some 1; Some 2; Some 3; Some 4; Some 5]
       /\ moved ≡ₚ [Some 1; Some 2; Some 3; Some 4; Some 5]
       /\ (2 = 0
           \/ 2 = Z.of_nat (length [Some 1; Some 2; Some 3; Some 4; Some 5])
           -> moved = [Some 1; Some 2; Some 3; Some 4; Some 5]).
Proof.
  split; [simpl; lia|].
  apply (moveOutlinedFunctions_round_trip
           [Some 1; Some 2; Some 3; Some 4; Some 5] 2).
  simpl; lia.
Defined.

(** *** The walk over one sequence *)

Lemma emitLocalGets_spec (n : nat) (i : Z) (w : Walker) :
  0 <= i -> i + Z.of_nat n < 2 ^ 32 ->
  let w' := emitLocalGets n i w in
  calls w' = calls w
             ++ ((fun j => (outlinedBuilder, makeLocalGet j))
                   <$> seqZ i (Z.of_nat n))
  /\ state w' = state w /\ sequences w' = sequences w
  /\ seqCounter w' = seqCounter w /\ instrCounter w' = instrCounter w
  /\ paramCount w' = paramCount w /\ withBody w' = withBody w
  /\ outlinedFunc w' = outlinedFunc w.
Proof.
  revert i w. induction n as [|n IH]; intros i w Hi Hn.
  - simpl. rewrite app_nil_r. by repeat split.
  - cbn [emitLocalGets]. rewrite wrap32_small by lia.
    destruct (IH (i + 1) (emit outlinedBuilder (makeLocalGet i) w))
      as (Hc & Hs & Hq & Hsc & Hic & Hp & Hb & Hf); [lia..|].
    cbv zeta. rewrite Hc, Hs, Hq, Hsc, Hic, Hp, Hb, Hf. simpl calls.
    replace (Z.of_nat (S n)) with (Z.succ (Z.of_nat n)) by lia.
    rewrite (seqZ_cons i) by lia. rewrite Z.pred_succ.
    rewrite fmap_cons, <- (assoc_L (++)). simpl.
    replace (Z.succ i) with (i + 1) by lia.
    by repeat split.
Qed.

Lemma getCurrState_InSeq (w : Walker) (seq : OutliningSequence) :
  currentSeq w = Some seq ->
  startIdx seq <= instrCounter w < endIdx seq ->
  func seq ∉ withBody w ->
  getCurrState w = InSeq.
Proof.
  intros Hseq Hin Hbody. unfold getCurrState. rewrite Hseq.
  rewrite decide_True by done. by rewrite decide_False.
Qed.

Lemma getCurrState_InSkipSeq (w : Walker) (seq : OutliningSequence) :
  currentSeq w = Some seq ->
  startIdx seq <= instrCounter w < endIdx seq ->
  func seq ∈ withBody w ->
  getCurrState w = InSkipSeq.
Proof.
  intros Hseq Hin Hbody. unfold getCurrState. rewrite Hseq.
  rewrite decide_True by done. by rewrite decide_True.
Qed.

Lemma getCurrState_NotInSeq (w : Walker) :
  (forall seq, currentSeq w = Some seq ->
     ~ (startIdx seq <= instrCounter w < endIdx seq)) ->
  getCurrState w = NotInSeq.
Proof.
  intros Hout. unfold getCurrState.
  destruct (currentSeq w) as [seq|]; [|done].
  rewrite decide_False; [done|]. by apply Hout.
Qed.

(** The expressions of a sequence after it has been entered. *)
Lemma visitExpressions_inside (vs : list Visited) (w : Walker)
    (seq : OutliningSequence) :
  state w = InSeq ->
  currentSeq w = Some seq ->
  func seq ∉ withBody w ->
  outlinedFunc w = Some (func seq) ->
  0 <= instrCounter w ->
  startIdx seq <= instrCounter w + 1 ->
  instrCounter w + Z.of_nat (length vs) = endIdx seq - 1 ->
  endIdx seq < 2 ^ 32 ->
  vs <> [] ->
  exists w',
    visitExpressions vs w = Some w'
    /\ calls w' = calls w
         ++ ((fun v => (outlinedBuilder, visitCall v)) <$> vs)
         ++ [(outlinedBuilder, visitEnd)]
    /\ state w' = NotInSeq
    /\ seqCounter w' = wrap32 (seqCounter w + 1)
    /\ instrCounter w' = endIdx seq - 1
    /\ withBody w' = {[ func seq ]} ∪ withBody w
    /\ sequences w' = sequences w
    /\ paramCount w' = paramCount w
    /\ outlinedFunc w' = None.
Proof.
  revert w. induction vs as [|v vs IH]; intros w Hst Hseq Hbody Hf Hic Hlo Hhi Hend Hne;
    [done|].
  cbn [visitExpressions length] in *.
  unfold visitExpression, maybeBeginSeq.
  rewrite wrap32_small by lia.
  rewrite (getCurrState_InSeq _ seq); [|done|simpl; lia|done].
  simpl. rewrite Hst. rewrite decide_True by done. simpl.
  unfold maybeEndSeq. unfold currentSeq in *. simpl. rewrite Hseq. simpl.
  rewrite wrap32_small by lia.
  destruct vs as [|v' vs].
  - simpl in Hhi. rewrite decide_True by lia.
    eexists. split; [reflexivity|].
    unfold transitionToNotInSeq. simpl. rewrite Hf.
    destruct v; simpl; rewrite <- (assoc_L (++)); repeat split; try done; lia.
  - cbn [length] in Hhi. rewrite decide_False by lia.
    edestruct (IH (emit outlinedBuilder (visitCall v)
                   (setState InSeq (setInstrCounter (instrCounter w + 1) w))))
      as (w' & Hrun & Hc & Hs & Hsc & Hi & Hb & Hq & Hp & Ho);
      try done; try (by destruct v); simpl; try lia.
    exists w'. split; [exact Hrun|].
    rewrite Hc, Hs, Hsc, Hi, Hb, Hq, Hp, Ho. simpl.
    rewrite <- (assoc_L (++)). by destruct v.
Qed.

(** The expressions of a sequence that is skipped, after it has been
    entered. *)
Lemma visitExpressions_skipping (vs : list Visited) (w : Walker)
    (seq : OutliningSequence) :
  state w = InSkipSeq ->
  currentSeq w = Some seq ->
  func seq ∈ withBody w ->
  0 <= instrCounter w ->
  startIdx seq <= instrCounter w + 1 ->
  instrCounter w + Z.of_nat (length vs) = endIdx seq - 1 ->
  endIdx seq < 2 ^ 32 ->
  vs <> [] ->
  exists w',
    visitExpressions vs w = Some w'
    /\ calls w' = calls w
    /\ state w' = NotInSeq
    /\ seqCounter w' = wrap32 (seqCounter w + 1)
    /\ instrCounter w' = endIdx seq - 1
    /\ withBody w' = withBody w
    /\ sequences w' = sequences w
    /\ paramCount w' = paramCount w
    /\ outlinedFunc w' = outlinedFunc w.
Proof.
  revert w.
  induction vs as [|v vs IH]; intros w Hst Hseq Hbody Hic Hlo Hhi Hend Hne;
    [done|].
  cbn [visitExpressions length] in *.
  unfold visitExpression, maybeBeginSeq.
  rewrite wrap32_small by lia.
  rewrite (getCurrState_InSkipSeq _ seq); [|done|simpl; lia|done].
  simpl. rewrite Hst. rewrite decide_True by done. simpl.
  unfold maybeEndSeq. unfold currentSeq in *. simpl. rewrite Hseq. simpl.
  rewrite wrap32_small by lia.
  destruct vs as [|v' vs].
  - simpl in Hhi. rewrite decide_True by lia.
    eexists. split; [reflexivity|].
    unfold transitionToNotInSeq. simpl.
    repeat split; try done; lia.
  - cbn [length] in Hhi. rewrite decide_False by lia.
    edestruct (IH (setState InSkipSeq
                     (setInstrCounter (instrCounter w + 1) w)))
      as (w' & Hrun & Hc & Hs & Hsc & Hi & Hb & Hq & Hp & Ho);
      try done; simpl; try lia.
    exists w'. split; [exact Hrun|].
    rewrite Hc, Hs, Hsc, Hi, Hb, Hq, Hp, Ho. by simpl.
Qed.

(** X11.  The first occurrence of a sequence: when the walker reaches
    the start index of the current sequence and the callee has no body
    yet, the walk over the [endIdx - startIdx] expressions of the
    sequence starts the callee on the outlined builder, puts one call of
    the callee (followed by an unreachable when the sequence ends
    unreachable) on the existing builder, reads every parameter of the
    callee with a local.get and sends every expression of the sequence to
    the outlined builder, in order, closing the callee with [visitEnd].
    No expression of the sequence reaches the existing builder.
    Afterwards the walker is outside any sequence, at the next sequence,
    and the callee has its body. *)
Theorem visitExpressions_outlines_first_occurrence (vs : list Visited)
    (w : Walker) (seq : OutliningSequence) :
  state w = NotInSeq ->
  currentSeq w = Some seq ->
  func seq ∉ withBody w ->
  0 <= instrCounter w ->
  instrCounter w + 1 = startIdx seq ->
  startIdx seq < endIdx seq < 2 ^ 32 ->
  Z.of_nat (length vs) = endIdx seq - startIdx seq ->
  paramCount w (func seq) < 2 ^ 32 ->
  exists w',
    visitExpressions vs w = Some w'
    /\ calls w'
       = calls w
         ++ [ (outlinedBuilder, visitFunctionStart (func seq));
              (existingBuilder, makeCall (func seq) false) ]
         ++ (if endsTypeUnreachable seq
             then [(existingBuilder, makeUnreachable)] else [])
         ++ ((fun i => (outlinedBuilder, makeLocalGet i))
               <$> seqZ 0 (paramCount w (func seq)))
         ++ ((fun v => (outlinedBuilder, visitCall v)) <$> vs)
         ++ [(outlinedBuilder, visitEnd)]
    /\ state w' = NotInSeq
    /\ seqCounter w' = wrap32 (seqCounter w + 1)
    /\ instrCounter w' = endIdx seq - 1
    /\ withBody w' = {[ func seq ]} ∪ withBody w
    /\ sequences w' = sequences w.
Proof.
  intros Hst Hseq Hbody Hic Hlo Hrange Hlen Hparams.
  destruct vs as [|v vs]; [simpl in Hlen; lia|].
  cbn [visitExpressions length] in *.
  unfold visitExpression, maybeBeginSeq.
  rewrite wrap32_small by lia.
  rewrite (getCurrState_InSeq _ seq); [|done|simpl; lia|done].
  simpl. rewrite Hst. rewrite decide_False by done.
  unfold transitionToInSeq.
  replace (currentSeq (setInstrCounter (instrCounter w + 1) w))
    with (Some seq) by (by rewrite <- Hseq).
  cbn [mbind option_bind].
  set (w0 := emitUnreachableIf (endsTypeUnreachable seq)
               (emit existingBuilder (makeCall (func seq) false)
                  (emit outlinedBuilder (visitFunctionStart (func seq))
                     (setInstrCounter (instrCounter w + 1) w)))).
  assert (Hw0 : calls w0
                = calls w
                  ++ [ (outlinedBuilder, visitFunctionStart (func seq));
                       (existingBuilder, makeCall (func seq) false) ]
                  ++ (if endsTypeUnreachable seq
                      then [(existingBuilder, makeUnreachable)] else [])
                /\ state w0 = state w /\ sequences w0 = sequences w
                /\ seqCounter w0 = seqCounter w
                /\ instrCounter w0 = instrCounter w + 1
                /\ paramCount w0 = paramCount w
                /\ withBody w0 = withBody w
                /\ outlinedFunc w0 = Some (func seq)).
  { subst w0. destruct (endsTypeUnreachable seq); simpl;
      rewrite <- !(assoc_L (++)); by repeat split. }
  destruct Hw0 as (Hc0 & Hs0 & Hq0 & Hsc0 & Hic0 & Hp0 & Hb0 & Hf0).
  set (n := Z.to_nat (paramCount w0 (func seq))).
  destruct (emitLocalGets_spec n 0 w0)
    as (Hc1 & Hs1 & Hq1 & Hsc1 & Hic1 & Hp1 & Hb1 & Hf1);
    [lia|subst n; rewrite Hp0; lia|].
  cbv zeta in Hc1, Hs1, Hq1, Hsc1, Hic1, Hp1, Hb1, Hf1.
  set (w1 := emitLocalGets n 0 w0) in *.
  assert (Hgets : seqZ 0 (Z.of_nat n) = seqZ 0 (paramCount w (func seq))).
  { subst n. rewrite Hp0.
    destruct (decide (0 <= paramCount w (func seq))) as [Hpos|Hneg].
    - by rewrite Z2Nat.id.
    - rewrite Z2Nat.nonpos by lia. unfold seqZ.
      rewrite (Z2Nat.nonpos (paramCount w (func seq))) by lia. done. }
  rewrite Hgets in Hc1.
  cbn [state setState].
  unfold maybeEndSeq.
  replace (currentSeq (emit outlinedBuilder (visitCall v)
                         (setState InSeq w1))) with (Some seq).
  2:{ rewrite <- Hseq. unfold currentSeq. simpl.
      by rewrite Hsc1, Hq1, Hsc0, Hq0. }
  cbn [mbind option_bind].
  replace (instrCounter (emit outlinedBuilder (visitCall v)
                           (setState InSeq w1)))
    with (instrCounter w + 1) by (simpl; by rewrite Hic1, Hic0).
  rewrite wrap32_small by lia.
  destruct vs as [|v' vs].
  - simpl in Hlen. rewrite decide_True by lia.
    eexists. split; [reflexivity|].
    unfold transitionToNotInSeq. simpl.
    rewrite Hc1, Hc0, Hsc1, Hsc0, Hic1, Hic0, Hq1, Hq0, Hf1, Hf0, Hb1, Hb0.
    destruct v; simpl; rewrite <- !(assoc_L (++)); simpl;
      repeat split; try done; lia.
  - cbn [length] in Hlen. rewrite decide_False by lia.
    edestruct (visitExpressions_inside (v' :: vs)
                 (emit outlinedBuilder (visitCall v) (setState InSeq w1))
                 seq)
      as (w' & Hrun & Hc & Hs & Hsc & Hi & Hb & Hq & Hp & Ho);
      try done.
    + rewrite <- Hseq. unfold currentSeq. simpl.
      by rewrite Hsc1, Hq1, Hsc0, Hq0.
    + destruct v; simpl; by rewrite Hb1, Hb0.
    + destruct v; simpl; by rewrite Hf1, Hf0.
    + simpl. rewrite Hic1, Hic0. lia.
    + simpl. rewrite Hic1, Hic0. lia.
    + simpl. rewrite Hic1, Hic0. cbn [length]. lia.
    + lia.
    + exists w'. split; [exact Hrun|].
      rewrite Hc, Hs, Hsc, Hi, Hb, Hq. simpl.
      rewrite Hc1, Hc0, Hsc1, Hsc0, Hq1, Hq0.
      destruct v; simpl; rewrite Hb1, Hb0, <- !(assoc_L (++)); simpl;
        by repeat split.
Qed.

(** X12.  A later occurrence of a sequence: when the walker reaches the
    start index of the current sequence and the callee already has its
    body, the walk over the expressions of the sequence puts one call of
    the callee (followed by an unreachable when the sequence ends
    unreachable) on the existing builder and nothing else: the
    expressions of the sequence are sent to no builder, and the outlined
    builder is not used.  Afterwards the walker is outside any sequence,
    at the next sequence. *)
Theorem visitExpressions_skips_later_occurrence (vs : list Visited)
    (w : Walker) (seq : OutliningSequence) :
  state w = NotInSeq ->
  currentSeq w = Some seq ->
  func seq ∈ withBody w ->
  0 <= instrCounter w ->
  instrCounter w + 1 = startIdx seq ->
  startIdx seq < endIdx seq < 2 ^ 32 ->
  Z.of_nat (length vs) = endIdx seq - startIdx seq ->
  exists w',
    visitExpressions vs w = Some w'
    /\ calls w'
       = calls w
         ++ [ (existingBuilder, makeCall (func seq) false) ]
         ++ (if endsTypeUnreachable seq
             then [(existingBuilder, makeUnreachable)] else [])
    /\ state w' = NotInSeq
    /\ seqCounter w' = wrap32 (seqCounter w + 1)
    /\ instrCounter w' = endIdx seq - 1
    /\ withBody w' = withBody w
    /\ outlinedFunc w' = outlinedFunc w
    /\ sequences w' = sequences w.
Proof.
  intros Hst Hseq Hbody Hic Hlo Hrange Hlen.
  destruct vs as [|v vs]; [simpl in Hlen; lia|].
  cbn [visitExpressions length] in *.
  unfold visitExpression, maybeBeginSeq.
  rewrite wrap32_small by lia.
  rewrite (getCurrState_InSkipSeq _ seq); [|done|simpl; lia|done].
  simpl. rewrite Hst. rewrite decide_False by done.
  unfold transitionToInSkipSeq.
  replace (currentSeq (setInstrCounter (instrCounter w + 1) w))
    with (Some seq) by (by rewrite <- Hseq).
  cbn [mbind option_bind].
  set (w0 := emitUnreachableIf (endsTypeUnreachable seq)
               (emit existingBuilder (makeCall (func seq) false)
                  (setInstrCounter (instrCounter w + 1) w))).
  assert (Hw0 : calls w0
                = calls w
                  ++ [ (existingBuilder, makeCall (func seq) false) ]
                  ++ (if endsTypeUnreachable seq
                      then [(existingBuilder, makeUnreachable)] else [])
                /\ state w0 = state w /\ sequences w0 = sequences w
                /\ seqCounter w0 = seqCounter w
                /\ instrCounter w0 = instrCounter w + 1
                /\ paramCount w0 = paramCount w
                /\ withBody w0 = withBody w
                /\ outlinedFunc w0 = outlinedFunc w).
  { subst w0. destruct (endsTypeUnreachable seq); simpl;
      rewrite <- ?(assoc_L (++)); by repeat split. }
  destruct Hw0 as (Hc0 & Hs0 & Hq0 & Hsc0 & Hic0 & Hp0 & Hb0 & Hf0).
  cbn [state setState].
  unfold maybeEndSeq.
  replace (currentSeq (setState InSkipSeq w0)) with (Some seq).
  2:{ rewrite <- Hseq. unfold currentSeq. simpl. by rewrite Hsc0, Hq0. }
  cbn [mbind option_bind].
  replace (instrCounter (setState InSkipSeq w0))
    with (instrCounter w + 1) by (simpl; by rewrite Hic0).
  rewrite wrap32_small by lia.
  destruct vs as [|v' vs].
  - simpl in Hlen. rewrite decide_True by lia.
    eexists. split; [reflexivity|].
    unfold transitionToNotInSeq. simpl.
    rewrite Hc0, Hsc0, Hic0, Hq0, Hf0, Hb0.
    repeat split; try done; lia.
  - cbn [length] in Hlen. rewrite decide_False by lia.
    edestruct (visitExpressions_skipping (v' :: vs)
                 (setState InSkipSeq w0) seq)
      as (w' & Hrun & Hc & Hs & Hsc & Hi & Hb & Hq & Hp & Ho);
      try done.
    + rewrite <- Hseq. unfold currentSeq. simpl. by rewrite Hsc0, Hq0.
    + simpl. by rewrite Hb0.
    + simpl. rewrite Hic0. lia.
    + simpl. rewrite Hic0. lia.
    + simpl. rewrite Hic0. cbn [length]. lia.
    + lia.
    + exists w'. split; [exact Hrun|].
      rewrite Hc, Hs, Hsc, Hi, Hb, Hq, Ho. simpl.
      rewrite Hc0, Hsc0, Hq0, Hb0, Hf0. by repeat split.
Qed.

Lemma wrap32_add_l z i : wrap32 (wrap32 z + i) = wrap32 (z + i).
Proof. unfold wrap32. by rewrite Zplus_mod_idemp_l. Qed.

(** X13.  Outside the sequences: as long as the instruction counter does
    not enter the current sequence (or when no sequence is left), every
    expression is sent to the existing builder, in order, whatever state
    the walker was in; the outlined builder is not used, the current
    sequence stays the same and no function gets a body. *)
Theorem visitExpressions_outside_sequences (vs : list Visited) (w : Walker) :
  0 <= instrCounter w < 2 ^ 32 ->
  (forall seq i,
     currentSeq w = Some seq -> 1 <= i <= Z.of_nat (length vs) ->
     ~ (startIdx seq <= wrap32 (instrCounter w + i) < endIdx seq)) ->
  exists w',
    visitExpressions vs w = Some w'
    /\ calls w'
       = calls w ++ ((fun v => (existingBuilder, visitCall v)) <$> vs)
    /\ (vs <> [] -> state w' = NotInSeq)
    /\ seqCounter w' = seqCounter w
    /\ instrCounter w' = wrap32 (instrCounter w + Z.of_nat (length vs))
    /\ withBody w' = withBody w
    /\ outlinedFunc w' = outlinedFunc w
    /\ sequences w' = sequences w.
Proof.
  revert w. induction vs as [|v vs IH]; intros w Hic Hout.
  - exists w. simpl. rewrite app_nil_r, Z.add_0_r, wrap32_small by done.
    by repeat split.
  - cbn [visitExpressions length].
    unfold visitExpression, maybeBeginSeq.
    rewrite getCurrState_NotInSeq.
    2:{ intros seq Hseq. simpl. apply (Hout seq 1); [done|].
        cbn [length]. lia. }
    assert (Hbegin : (if decide (NotInSeq
                                 = state (setInstrCounter
                                            (wrap32 (instrCounter w + 1)) w))
                      then Some (setInstrCounter
                                   (wrap32 (instrCounter w + 1)) w)
                      else Some (setInstrCounter
                                   (wrap32 (instrCounter w + 1)) w))
                     = Some (setInstrCounter
                               (wrap32 (instrCounter w + 1)) w))
      by (by destruct (decide _)).
    rewrite Hbegin. cbn [mbind option_bind state setState emit].
    edestruct (IH (emit existingBuilder (visitCall v)
                     (setState NotInSeq
                        (setInstrCounter (wrap32 (instrCounter w + 1)) w))))
      as (w' & Hrun & Hc & Hs & Hsc & Hi & Hb & Hq & Ho).
    + simpl. apply wrap32_range.
    + intros seq i Hseq Hi. simpl. rewrite wrap32_add_l.
      replace (instrCounter w + 1 + i) with (instrCounter w + (i + 1))
        by lia.
      apply Hout; [exact Hseq|]. cbn [length]. lia.
    + exists w'. split; [exact Hrun|].
      rewrite Hc, Hsc, Hi, Hb, Hq, Ho. simpl.
      rewrite wrap32_add_l, <- (assoc_L (++)).
      replace (instrCounter w + 1 + Z.of_nat (length vs))
        with (instrCounter w + Z.of_nat (S (length vs))) by lia.
      destruct v; simpl; repeat split; try done.
      all: intros _; destruct vs; [by inversion Hrun|by apply Hs].
Qed.


End OutliningMoreProperties.

Section OutliningWitnesses.

Import Outlining.

Lemma visitExpressions_outlines_first_occurrence_witness :
  (state Samples.paramSequence = NotInSeq)
  /\
  (currentSeq Samples.paramSequence = Some Samples.endingSequence)
  /\
  (func Samples.endingSequence ∉ withBody Samples.paramSequence)
  /\
  (0 <= instrCounter Samples.paramSequence)
  /\
  (instrCounter Samples.paramSequence + 1 = startIdx Samples.endingSequence)
  /\
  (startIdx Samples.endingSequence < endIdx Samples.endingSequence < 2 ^ 32)
  /\
  (Z.of_nat (length [VPlain 1%positive; VPlain 2%positive]) = endIdx
      Samples.endingSequence - startIdx Samples.endingSequence)
  /\
  (paramCount Samples.paramSequence (func Samples.endingSequence) < 2 ^ 32)
  /\
  (exists w',
    visitExpressions [VPlain 1%positive; VPlain 2%positive]
        Samples.paramSequence = Some w'
    /\ calls w'
       = calls Samples.paramSequence
         ++ [ (outlinedBuilder, visitFunctionStart (func
             Samples.endingSequence));
              (existingBuilder, makeCall (func Samples.endingSequence) false)
                  ]
         ++ (if endsTypeUnreachable Samples.endingSequence
             then [(existingBuilder, makeUnreachable)] else [])
         ++ ((fun i => (outlinedBuilder, makeLocalGet i))
               <$> seqZ 0 (paramCount Samples.paramSequence (func
                   Samples.endingSequence)))
         ++ ((fun v => (outlinedBuilder, visitCall v)) <$> [VPlain 1%positive;
             VPlain 2%positive])
         ++ [(outlinedBuilder, visitEnd)]
    /\ state w' = NotInSeq
    /\ seqCounter w' = wrap32 (seqCounter Samples.paramSequence + 1)
    /\ instrCounter w' = endIdx Samples.endingSequence - 1
    /\ withBody w' = {[ func Samples.endingSequence ]} ∪ withBody
        Samples.paramSequence
    /\ sequences w' = sequences Samples.paramSequence).
Proof.
  split; [by vm_compute|].
  split; [by vm_compute|].
  split; [by vm_compute|].
  split; [by vm_compute|].
  split; [by vm_compute|].
  split; [by vm_compute|].
  split; [by vm_compute|].
  split; [by vm_compute|].
  apply (visitExpressions_outlines_first_occurrence
           [VPlain 1%positive; VPlain 2%positive]
           Samples.paramSequence
           Samples.endingSequence).
  - by vm_compute.
  - by vm_compute.
  - by vm_compute.
  - by vm_compute.
  - by vm_compute.
  - by vm_compute.
  - by vm_compute.
  - by vm_compute.
Defined.

Lemma visitExpressions_skips_later_occurrence_witness :
  (state Samples.laterSequence = NotInSeq)
  /\
  (currentSeq Samples.laterSequence = Some Samples.endingSequence)
  /\
  (func Samples.endingSequence ∈ withBody Samples.laterSequence)
  /\
  (0 <= instrCounter Samples.laterSequence)
  /\
  (instrCounter Samples.laterSequence + 1 = startIdx Samples.endingSequence)
  /\
  (startIdx Samples.endingSequence < endIdx Samples.endingSequence < 2 ^ 32)
  /\
  (Z.of_nat (length [VPlain 1%positive; VPlain 2%positive]) = endIdx
      Samples.endingSequence - startIdx Samples.endingSequence)
  /\
  (exists w',
    visitExpressions [VPlain 1%positive; VPlain 2%positive]
        Samples.laterSequence = Some w'
    /\ calls w'
       = calls Samples.laterSequence
         ++ [ (existingBuilder, makeCall (func Samples.endingSequence) false)
             ]
         ++ (if endsTypeUnreachable Samples.endingSequence
             then [(existingBuilder, makeUnreachable)] else [])
    /\ state w' = NotInSeq
    /\ seqCounter w' = wrap32 (seqCounter Samples.laterSequence + 1)
    /\ instrCounter w' = endIdx Samples.endingSequence - 1
    /\ withBody w' = withBody Samples.laterSequence
    /\ outlinedFunc w' = outlinedFunc Samples.laterSequence
    /\ sequences w' = sequences Samples.laterSequence).
Proof.
  split; [by vm_compute|].
  split; [by vm_compute|].
  split; [by vm_compute|].
  split; [by vm_compute|].
  split; [by vm_compute|].
  split; [by vm_compute|].
  split; [by vm_compute|].
  apply (visitExpressions_skips_later_occurrence
           [VPlain 1%positive; VPlain 2%positive]
           Samples.laterSequence
           Samples.endingSequence).
  - by vm_compute.
  - by vm_compute.
  - by vm_compute.
  - by vm_compute.
  - by vm_compute.
  - by vm_compute.
  - by vm_compute.
Defined.

Lemma visitExpressions_outside_sequences_witness :
  (0 <= instrCounter Samples.beforeSequence < 2 ^ 32)
  /\
  ((forall seq i,
    currentSeq Samples.beforeSequence = Some seq -> 1 <= i <= Z.of_nat (length
        [VPlain 1%positive; VPlain 2%positive]) ->
    ~ (startIdx seq <= wrap32 (instrCounter Samples.beforeSequence + i) <
        endIdx seq)))
  /\
  (exists w',
    visitExpressions [VPlain 1%positive; VPlain 2%positive]
        Samples.beforeSequence = Some w'
    /\ calls w'
       = calls Samples.beforeSequence ++ ((fun v => (existingBuilder,
           visitCall v)) <$> [VPlain 1%positive; VPlain 2%positive])
    /\ ([VPlain 1%positive; VPlain 2%positive] <> [] -> state w' = NotInSeq)
    /\ seqCounter w' = seqCounter Samples.beforeSequence
    /\ instrCounter w' = wrap32 (instrCounter Samples.beforeSequence +
        Z.of_nat (length [VPlain 1%positive; VPlain 2%positive]))
    /\ withBody w' = withBody Samples.beforeSequence
    /\ outlinedFunc w' = outlinedFunc Samples.beforeSequence
    /\ sequences w' = sequences Samples.beforeSequence).
Proof.
  split; [by vm_compute|].
  split; [intros seq i Hseq Hi; vm_compute in Hseq; injection Hseq as <-;
      assert (i = 1 \/ i = 2) as [-> | ->] by (simpl in Hi; lia); vm_compute;
      intros [Hle _]; by apply Hle|].
  apply (visitExpressions_outside_sequences
           [VPlain 1%positive; VPlain 2%positive] Samples.beforeSequence).
  - by vm_compute.
  - intros seq i Hseq Hi; vm_compute in Hseq; injection Hseq as <-; assert (i
      = 1 \/ i = 2) as [-> | ->] by (simpl in Hi; lia); vm_compute; intros
      [Hle _]; by apply Hle.
Defined.

End OutliningWitnesses.

(** *** From substrings to sequences *)

Section SequenceProperties.

Import Outlining.

Local Set Warnings "-clear-no-such-hyp".

Context {StackSignature : Type}.
Variable signatureOf : Expr -> StackSignature.
Variable emptySignature : StackSignature.
Variable composeSignature : StackSignature -> StackSignature -> StackSignature.
Variable getValidFunctionName : list Name -> Name.
Variable makeRelative : Z -> Z * Name.
Variable a : Arena.

Lemma addOutlinedFunction_spec (functions functions' : Functions StackSignature)
    (substring : RepeatedSubstring) (exprs : list (option Expr))
    (func : Name) :
  addOutlinedFunction StackSignature signatureOf emptySignature
    composeSignature getValidFunctionName functions substring exprs
  = Some (func, functions') ->
  exists callee start range,
    functions' = functions ++ [Some callee]
    /\ name _ callee = func
    /\ func = getValidFunctionName (functionNames _ functions)
    /\ body _ callee = None
    /\ head (StartIndices substring) = Some start
    /\ exprsInRange exprs start
         (wrap32 (start + Length substring) - start) = Some range
    /\ signature _ callee
       = foldl (fun sig e => composeSignature sig (signatureOf e))
               emptySignature range.
Proof.
  unfold addOutlinedFunction. intros Hadd.
  destruct (head (StartIndices substring)) as [start|]; [|done].
  simpl in Hadd.
  destruct (exprsInRange exprs start _) as [range|] eqn:Hrange; [|done].
  simpl in Hadd. injection Hadd as <- <-.
  eexists _, start, range. by repeat split.
Qed.

(** The callees [makeSequences] adds, with any sequences to begin with. *)
Lemma makeSequencesFrom_callees (substrings : Substrings)
    (functions functions' : Functions StackSignature)
    (exprs : list (option Expr))
    (seqByFunc seqByFunc' : gmap Name (list OutliningSequence)) :
  makeSequencesFrom StackSignature signatureOf emptySignature composeSignature
    getValidFunctionName makeRelative a functions substrings exprs seqByFunc
  = Some (seqByFunc', functions') ->
  exists callees,
    functions' = functions ++ (Some <$> callees)
    /\ length callees = length substrings
    /\ forall (i : nat) callee,
         callees !! i = Some callee ->
         body _ callee = None
         /\ name _ callee
            = getValidFunctionName
                (functionNames _ (functions ++ (Some <$> take i callees)))
         /\ exists substring start range,
              substrings !! i = Some substring
              /\ head (StartIndices substring) = Some start
              /\ exprsInRange exprs start
                   (wrap32 (start + Length substring) - start) = Some range
              /\ signature _ callee
                 = foldl (fun sig e => composeSignature sig (signatureOf e))
                         emptySignature range.
Proof.
  revert functions seqByFunc.
  induction substrings as [|substring substrings IH];
    intros functions seqByFunc Hmake.
  - simpl in Hmake. injection Hmake as <- <-.
    exists []. simpl. rewrite app_nil_r. by repeat split.
  - cbn [makeSequencesFrom] in Hmake.
    destruct (addOutlinedFunction _ _ _ _ _ functions substring exprs)
      as [[func functions1]|] eqn:Hadd; [|done].
    simpl in Hmake.
    destruct (sequencesOf _ _ func _ exprs _ seqByFunc)
      as [seqByFunc1|] eqn:Hseqs; [|done].
    simpl in Hmake.
    apply addOutlinedFunction_spec in Hadd
      as (callee & start & range & -> & Hname & Hfunc & Hbody & Hhead
          & Hrange & Hsig).
    apply IH in Hmake as (callees & -> & Hlen & Hcallees).
    exists (callee :: callees).
    split; [by rewrite <- (assoc_L (++))|].
    split; [simpl; by rewrite Hlen|].
    intros [|i] callee' Hi; simpl in Hi.
    + injection Hi as <-. simpl. rewrite app_nil_r.
      split; [done|]. split; [congruence|].
      by exists substring, start, range.
    + destruct (Hcallees i callee' Hi) as (Hb & Hn & Hsub).
      split; [done|]. split; [|done].
      rewrite Hn. simpl. by rewrite <- (assoc_L (++)).
Qed.

(** X14.  [makeSequences] appends one function for each substring, in
    the order of the substrings, and changes no function that was there:
    the function for a substring has no body, its name is the name
    [getValidFunctionName] gives for the names in use when it is added
    (those of the module and of the functions added before it), and its
    signature is the composition of the stack signatures of the
    expressions of the first occurrence of the substring. *)
Theorem makeSequences_adds_one_function_per_substring
    (substrings : Substrings)
    (functions functions' : Functions StackSignature)
    (exprs : list (option Expr))
    (seqByFunc : gmap Name (list OutliningSequence)) :
  makeSequences StackSignature signatureOf emptySignature composeSignature
    getValidFunctionName makeRelative a functions substrings exprs
  = Some (seqByFunc, functions') ->
  exists callees,
    functions' = functions ++ (Some <$> callees)
    /\ length callees = length substrings
    /\ forall (i : nat) callee,
         callees !! i = Some callee ->
         body _ callee = None
         /\ name _ callee
            = getValidFunctionName
                (functionNames _ (functions ++ (Some <$> take i callees)))
         /\ exists substring start range,
              substrings !! i = Some substring
              /\ head (StartIndices substring) = Some start
              /\ exprsInRange exprs start
                   (wrap32 (start + Length substring) - start) = Some range
              /\ signature _ callee
                 = foldl (fun sig e => composeSignature sig (signatureOf e))
                         emptySignature range.
Proof. apply makeSequencesFrom_callees. Qed.

(** X15.  [makeSequences] followed by [moveOutlinedFunctions] with the
    number of substrings, as [Outlining::run] calls them: the functions
    added for the substrings come first, in the order of the substrings,
    and the functions of the module follow in their order. *)
Theorem makeSequences_then_moveOutlinedFunctions
    (substrings : Substrings)
    (functions functions' : Functions StackSignature)
    (exprs : list (option Expr))
    (seqByFunc : gmap Name (list OutliningSequence)) :
  makeSequences StackSignature signatureOf emptySignature composeSignature
    getValidFunctionName makeRelative a functions substrings exprs
  = Some (seqByFunc, functions') ->
  Z.of_nat (length substrings) < 2 ^ 32 ->
  exists callees,
    functions' = functions ++ (Some <$> callees)
    /\ length callees = length substrings
    /\ moveOutlinedFunctions functions'
         (wrap32 (Z.of_nat (length substrings)))
       = Some ((Some <$> callees) ++ functions).
Proof.
  intros Hmake Hsize.
  apply makeSequencesFrom_callees in Hmake as (callees & -> & Hlen & _).
  exists callees. split; [done|]. split; [done|].
  rewrite wrap32_small by lia.
  unfold moveOutlinedFunctions.
  rewrite decide_True by (rewrite length_app, length_fmap; lia).
  unfold moveRange. rewrite Nat2Z.id.
  replace (length (functions ++ (Some <$> callees)) - length substrings)%nat
    with (length functions) by (rewrite length_app, length_fmap; lia).
  rewrite drop_app_length, take_app_length. f_equal.
  rewrite (assoc_L (++)). apply resize_shrink.
  by rewrite !length_app, !length_fmap, Nat.add_comm.
Qed.

Lemma elem_of_pushSequence (existingFunc f : Name)
    (seq seq' : OutliningSequence)
    (seqByFunc : gmap Name (list OutliningSequence)) :
  seq' ∈ default [] (pushSequence existingFunc seq seqByFunc !! f)
  <-> seq' ∈ default [] (seqByFunc !! f)
      \/ (f = existingFunc /\ seq' = seq).
Proof.
  unfold pushSequence.
  destruct (decide (f = existingFunc)) as [->|Hne].
  - rewrite lookup_insert_eq. simpl. rewrite elem_of_app, list_elem_of_singleton.
    naive_solver.
  - rewrite lookup_insert_ne by done. naive_solver.
Qed.

(** The sequences of one substring. *)
Lemma sequencesOf_spec (func : Name) (length : Z) (exprs : list (option Expr))
    (starts : list Z)
    (seqByFunc seqByFunc' : gmap Name (list OutliningSequence)) :
  sequencesOf makeRelative a func length exprs starts seqByFunc
  = Some seqByFunc' ->
  forall f seq,
    seq ∈ default [] (seqByFunc' !! f)
    <-> seq ∈ default [] (seqByFunc !! f)
        \/ exists seqIdx last,
             seqIdx ∈ starts
             /\ makeRelative seqIdx = (startIdx seq, f)
             /\ endIdx seq = wrap32 (startIdx seq + length)
             /\ func = Outlining.func seq
             /\ vectorAtZ exprs (wrap32 (seqIdx + length - 1))
                = Some (Some last)
             /\ endsTypeUnreachable seq
                = bool_decide (typeOf a last = Tunreachable).
Proof.
  revert seqByFunc.
  induction starts as [|seqIdx starts IH]; intros seqByFunc Hseqs f seq.
  - simpl in Hseqs. injection Hseqs as <-.
    split; [by left|]. intros [Hin|(seqIdx & last & Hin & _)]; [done|].
    by apply elem_of_nil in Hin.
  - cbn [sequencesOf] in Hseqs.
    destruct (makeRelative seqIdx) as [relativeIdx existingFunc] eqn:Hrel.
    destruct (vectorAtZ exprs (wrap32 (seqIdx + length - 1)))
      as [[last|]|] eqn:Hlast; try done.
    simpl in Hseqs.
    rewrite (IH _ Hseqs f seq), elem_of_pushSequence.
    split.
    + intros [[Hin|[-> ->]]|(seqIdx' & last' & Hin & Hrest)].
      * by left.
      * right. exists seqIdx, last. simpl.
        split; [by left|]. by repeat split.
      * right. exists seqIdx', last'. split; [by right|done].
    + intros [Hin|(seqIdx' & last' & Hin & Hrel' & Hend & Hfunc & Hlast'
                   & Hunreachable)].
      * by left; left.
      * apply elem_of_cons in Hin as [->|Hin].
        -- left; right.
           rewrite Hrel in Hrel'. injection Hrel' as -> ->.
           rewrite Hlast in Hlast'. injection Hlast' as ->.
           split; [done|].
           destruct seq; simpl in *; by subst.
        -- right. exists seqIdx', last'. by repeat split.
Qed.

(** The sequences [makeSequences] makes, with any sequences to begin
    with. *)
Lemma makeSequencesFrom_sequences (substrings : Substrings)
    (functions functions' : Functions StackSignature)
    (exprs : list (option Expr))
    (seqByFunc seqByFunc' : gmap Name (list OutliningSequence)) :
  makeSequencesFrom StackSignature signatureOf emptySignature composeSignature
    getValidFunctionName makeRelative a functions substrings exprs seqByFunc
  = Some (seqByFunc', functions') ->
  forall f seq,
    seq ∈ default [] (seqByFunc' !! f)
    <-> seq ∈ default [] (seqByFunc !! f)
        \/ exists (i : nat) substring callee seqIdx last,
             substrings !! i = Some substring
             /\ functions' !! (length functions + i)%nat = Some (Some callee)
             /\ func seq = name _ callee
             /\ seqIdx ∈ StartIndices substring
             /\ makeRelative seqIdx = (startIdx seq, f)
             /\ endIdx seq = wrap32 (startIdx seq + Length substring)
             /\ vectorAtZ exprs (wrap32 (seqIdx + Length substring - 1))
                = Some (Some last)
             /\ endsTypeUnreachable seq
                = bool_decide (typeOf a last = Tunreachable).
Proof.
  revert functions seqByFunc.
  induction substrings as [|substring substrings IH];
    intros functions seqByFunc Hmake f seq.
  - simpl in Hmake. injection Hmake as <- <-.
    split; [by left|]. intros [Hin|(i & sub & ? & ? & ? & Hi & _)]; [done|].
    by rewrite lookup_nil in Hi.
  - cbn [makeSequencesFrom] in Hmake.
    destruct (addOutlinedFunction _ _ _ _ _ functions substring exprs)
      as [[func functions1]|] eqn:Hadd; [|done].
    simpl in Hmake.
    destruct (sequencesOf _ _ func _ exprs _ seqByFunc)
      as [seqByFunc1|] eqn:Hseqs; [|done].
    simpl in Hmake.
    apply addOutlinedFunction_spec in Hadd
      as (callee & start & range & -> & Hname & _).
    pose proof (makeSequencesFrom_callees _ _ _ _ _ _ Hmake)
      as (callees & Hfunctions & _).
    assert (Hcallee : functions' !! length functions = Some (Some callee)).
    { rewrite Hfunctions, <- (assoc_L (++)).
      by apply list_lookup_middle. }
    rewrite (IH _ _ Hmake f seq), (sequencesOf_spec _ _ _ _ _ _ Hseqs f seq).
    rewrite length_app. simpl.
    split.
    + intros [[Hin|(seqIdx & last & Hin & Hrel & Hend & Hfunc & Hlast & Hun)]
             |(i & sub & callee' & seqIdx & last & Hi & Hc & Hrest)].
      * by left.
      * right. exists 0%nat, substring, callee, seqIdx, last.
        rewrite Nat.add_0_r. repeat split; try done. congruence.
      * right. exists (S i), sub, callee', seqIdx, last.
        split; [done|]. split; [|done].
        rewrite <- Hc. f_equal. lia.
    + intros [Hin|(i & sub & callee' & seqIdx & last & Hi & Hc & Hfunc
                   & Hin & Hrel & Hend & Hlast & Hun)].
      * by left; left.
      * destruct i as [|i]; simpl in Hi.
        -- injection Hi as <-. rewrite Nat.add_0_r, Hcallee in Hc.
           injection Hc as <-.
           left; right. exists seqIdx, last. repeat split; try done.
           congruence.
        -- right. exists i, sub, callee', seqIdx, last.
           split; [done|]. split; [|done].
           rewrite <- Hc. f_equal. lia.
Qed.

(** X16.  The sequences [makeSequences] returns are the occurrences of
    the substrings, no more and no fewer: a sequence is listed under a
    function exactly when some substring has a start index that
    [makeRelative] places in that function at the start index of the
    sequence; the sequence ends [Length] instructions later (in 32-bit
    arithmetic), its callee is the function added for that substring,
    and it is marked as ending unreachable exactly when the last
    expression of the occurrence has the unreachable type. *)
Theorem makeSequences_sequences_are_the_occurrences
    (substrings : Substrings)
    (functions functions' : Functions StackSignature)
    (exprs : list (option Expr))
    (seqByFunc : gmap Name (list OutliningSequence)) :
  makeSequences StackSignature signatureOf emptySignature composeSignature
    getValidFunctionName makeRelative a functions substrings exprs
  = Some (seqByFunc, functions') ->
  forall f seq,
    seq ∈ default [] (seqByFunc !! f)
    <-> exists (i : nat) substring callee seqIdx last,
          substrings !! i = Some substring
          /\ functions' !! (length functions + i)%nat = Some (Some callee)
          /\ func seq = name _ callee
          /\ seqIdx ∈ StartIndices substring
          /\ makeRelative seqIdx = (startIdx seq, f)
          /\ endIdx seq = wrap32 (startIdx seq + Length substring)
          /\ vectorAtZ exprs (wrap32 (seqIdx + Length substring - 1))
             = Some (Some last)
          /\ endsTypeUnreachable seq
             = bool_decide (typeOf a last = Tunreachable).
Proof.
  intros Hmake f seq.
  rewrite (makeSequencesFrom_sequences _ _ _ _ _ _ Hmake f seq).
  rewrite lookup_empty. simpl.
  split; [intros [Hin|Hseq]; [by apply elem_of_nil in Hin|done]|by right].
Qed.


End SequenceProperties.

Section SequenceWitnesses.

Import Outlining.

Lemma makeSequences_adds_one_function_per_substring_witness :
  (makeSequences (list Expr) (fun e : Expr => [e]) [] app
      Samples.freshName Samples.twinsRelative Samples.twinsArena
          Samples.twinsFunctions Samples.twinsSubstrings Samples.twinsExprs
    = Some (Samples.twinsSequences, (Samples.twinsFunctions ++ [Some
        Samples.twinsCallee])))
  /\
  (exists callees,
    (Samples.twinsFunctions ++ [Some Samples.twinsCallee]) =
        Samples.twinsFunctions ++ (Some <$> callees)
    /\ length callees = length Samples.twinsSubstrings
    /\ forall (i : nat) callee,
         callees !! i = Some callee ->
         body _ callee = None
         /\ name _ callee
            = Samples.freshName
                (functionNames _ (Samples.twinsFunctions ++ (Some <$> take i
                    callees)))
         /\ exists substring start range,
              Samples.twinsSubstrings !! i = Some substring
              /\ head (StartIndices substring) = Some start
              /\ exprsInRange Samples.twinsExprs start
                   (wrap32 (start + Length substring) - start) = Some range
              /\ signature _ callee
                 = foldl (fun sig e => app sig ((fun e : Expr => [e]) e))
                         [] range).
Proof.
  split; [vm_compute; reflexivity|].
  apply (makeSequences_adds_one_function_per_substring
           (StackSignature := list Expr)
           (fun e : Expr => [e]) [] app Samples.freshName
               Samples.twinsRelative
           Samples.twinsArena Samples.twinsSubstrings Samples.twinsFunctions
           (Samples.twinsFunctions ++ [Some Samples.twinsCallee])
           Samples.twinsExprs Samples.twinsSequences).
  - vm_compute; reflexivity.
Defined.

Lemma makeSequences_then_moveOutlinedFunctions_witness :
  (makeSequences (list Expr) (fun e : Expr => [e]) [] app
      Samples.freshName Samples.twinsRelative Samples.twinsArena
          Samples.twinsFunctions Samples.twinsSubstrings Samples.twinsExprs
    = Some (Samples.twinsSequences, (Samples.twinsFunctions ++ [Some
        Samples.twinsCallee])))
  /\
  (Z.of_nat (length Samples.twinsSubstrings) < 2 ^ 32)
  /\
  (exists callees,
    (Samples.twinsFunctions ++ [Some Samples.twinsCallee]) =
        Samples.twinsFunctions ++ (Some <$> callees)
    /\ length callees = length Samples.twinsSubstrings
    /\ moveOutlinedFunctions (Samples.twinsFunctions ++ [Some
        Samples.twinsCallee])
         (wrap32 (Z.of_nat (length Samples.twinsSubstrings)))
       = Some ((Some <$> callees) ++ Samples.twinsFunctions)).
Proof.
  split; [vm_compute; reflexivity|].
  split; [vm_compute; reflexivity|].
  apply (makeSequences_then_moveOutlinedFunctions
           (StackSignature := list Expr)
           (fun e : Expr => [e]) [] app Samples.freshName
               Samples.twinsRelative
           Samples.twinsArena Samples.twinsSubstrings Samples.twinsFunctions
           (Samples.twinsFunctions ++ [Some Samples.twinsCallee])
           Samples.twinsExprs Samples.twinsSequences).
  - vm_compute; reflexivity.
  - vm_compute; reflexivity.
Defined.

Lemma makeSequences_sequences_are_the_occurrences_witness :
  (makeSequences (list Expr) (fun e : Expr => [e]) [] app
      Samples.freshName Samples.twinsRelative Samples.twinsArena
          Samples.twinsFunctions Samples.twinsSubstrings Samples.twinsExprs
    = Some (Samples.twinsSequences, (Samples.twinsFunctions ++ [Some
        Samples.twinsCallee])))
  /\
  (forall f seq,
    seq ∈ default [] (Samples.twinsSequences !! f)
    <-> exists (i : nat) substring callee seqIdx last,
          Samples.twinsSubstrings !! i = Some substring
          /\ (Samples.twinsFunctions ++ [Some Samples.twinsCallee]) !! (length
              Samples.twinsFunctions + i)%nat = Some (Some callee)
          /\ func seq = name _ callee
          /\ seqIdx ∈ StartIndices substring
          /\ Samples.twinsRelative seqIdx = (startIdx seq, f)
          /\ endIdx seq = wrap32 (startIdx seq + Length substring)
          /\ vectorAtZ Samples.twinsExprs (wrap32 (seqIdx + Length substring -
              1))
             = Some (Some last)
          /\ endsTypeUnreachable seq
             = bool_decide (typeOf Samples.twinsArena last = Tunreachable)).
Proof.
  split; [vm_compute; reflexivity|].
  apply (makeSequences_sequences_are_the_occurrences
           (StackSignature := list Expr)
           (fun e : Expr => [e]) [] app Samples.freshName
               Samples.twinsRelative
           Samples.twinsArena Samples.twinsSubstrings Samples.twinsFunctions
           (Samples.twinsFunctions ++ [Some Samples.twinsCallee])
           Samples.twinsExprs Samples.twinsSequences).
  - vm_compute; reflexivity.
Defined.

End SequenceWitnesses.

(** ** More on the rewriters *)

Section RewriterMoreProperties.

Import EscapeAnalyzer Rewriter.
Local Open Scope rewrite_scope.
Local Set Warnings "-clear-no-such-hyp".

Context `{Collaborators}.

(** *** The builder *)

Lemma wp_makeDrop (value : Expr) (s : Rewrite) (Q : Expr -> Rewrite -> Prop) :
  (forall s',
     grows s s' ->
     placed s' (nextExpr s)
       {| kind := Drop value;
          type := if decide (typeOf (arena s) value = Tunreachable)
                  then Tunreachable else Tnone |} ->
     nextExpr s' = Pos.succ (nextExpr s) ->
     function s' = function s ->
     Q (nextExpr s) s') ->
  wp (makeDrop value) s Q.
Proof.
  intros HQ. unfold makeDrop, typeOfM. by apply wp_bind, wp_gets, wp_alloc.
Qed.

Lemma wp_makeConst (value : Literal) (s : Rewrite)
    (Q : Expr -> Rewrite -> Prop) :
  (forall s',
     grows s s' ->
     placed s' (nextExpr s)
       {| kind := Const value; type := literalType value |} ->
     nextExpr s' = Pos.succ (nextExpr s) ->
     function s' = function s ->
     Q (nextExpr s) s') ->
  wp (makeConst value) s Q.
Proof. intros HQ. unfold makeConst. by apply wp_alloc. Qed.

Lemma wp_makeUnreachable (s : Rewrite) (Q : Expr -> Rewrite -> Prop) :
  (forall s',
     grows s s' ->
     placed s' (nextExpr s) {| kind := Unreachable; type := Tunreachable |} ->
     nextExpr s' = Pos.succ (nextExpr s) ->
     function s' = function s ->
     Q (nextExpr s) s') ->
  wp makeUnreachable s Q.
Proof. intros HQ. unfold makeUnreachable. by apply wp_alloc. Qed.

Lemma wp_makeBlock (list : list Expr) (s : Rewrite)
    (Q : Expr -> Rewrite -> Prop) :
  (forall s',
     grows s s' ->
     placed s' (nextExpr s)
       {| kind := Block "" list; type := blockType (arena s) list |} ->
     nextExpr s' = Pos.succ (nextExpr s) ->
     function s' = function s ->
     Q (nextExpr s) s') ->
  wp (makeBlock list) s Q.
Proof.
  intros HQ. unfold makeBlock. by apply wp_bind, wp_gets, wp_alloc.
Qed.

(** What the state keeps of the expressions that were there. *)
Lemma grows_frame (s s' : Rewrite) (e : Expr) :
  grows s s' -> (e < nextExpr s)%positive ->
  deref (arena s') e = deref (arena s) e.
Proof. intros Hg. apply (grows_arena _ _ Hg). Qed.

Lemma placed_deref (s : Rewrite) (x : Expr) (e : Expression) :
  placed s x e -> deref (arena s) x = e.
Proof. by intros [_ ?]. Qed.

Lemma placed_kindOf (s : Rewrite) (x : Expr) (e : Expression) :
  placed s x e -> kindOf (arena s) x = kind e.
Proof. intros [_ He]. unfold kindOf. by rewrite He. Qed.

Lemma placed_typeOf (s : Rewrite) (x : Expr) (e : Expression) :
  placed s x e -> typeOf (arena s) x = type e.
Proof. intros [_ He]. unfold typeOf. by rewrite He. Qed.

Lemma getInteraction_lookup (an : Analyzer) (e : Expr) (i : Interaction) :
  reachedInteractions an !! e = Some i -> getInteraction an e = i.
Proof. unfold getInteraction. by intros ->. Qed.

(** A block that ends in an expression of a concrete type has that
    type. *)
Lemma blockType_pair (a : Arena) (x y : Expr) :
  typeOf a y <> Tnone -> blockType a [x; y] = typeOf a y.
Proof. intros Hy. by apply (blockType_snoc a [x] y). Qed.

(** *** What the rewriters leave alone *)

(** X17.  The visits of both rewriters change nothing at an expression
    the allocation does not reach: the state after the visit is the state
    before it. *)
Theorem unreached_expressions_are_left_alone
    (leastUpperBound : WType -> WType -> WType)
    (unpackField : Expr -> Field -> bool -> M Expr)
    (self : Struct2Local.t) (array : Array2Struct.t) (structType : HeapType)
    (s : Rewrite) (curr : Expr) :
  getInteraction (analyzer s) curr = ParentChildInteraction.None ->
  Forall (fun visit : Expr -> M unit => visit curr s = Some (tt, s))
    [ Struct2Local.visitBlock;
      Struct2Local.visitLoop;
      Struct2Local.visitLocalSet;
      Struct2Local.visitLocalGet;
      Struct2Local.visitRefIsNull;
      Struct2Local.visitRefEq;
      Struct2Local.visitRefAs;
      Struct2Local.visitRefTest self;
      Struct2Local.visitRefCast leastUpperBound self;
      Struct2Local.visitRefGetDesc self;
      Struct2Local.visitStructSet self;
      Struct2Local.visitStructGet unpackField self;
      Array2Struct.visitArraySet array;
      Array2Struct.visitArrayGet array;
      Array2Struct.visitRefTest array;
      Array2Struct.visitRefCast array structType ].
Proof.
  intros Hnone.
  repeat apply Forall_cons_2; try apply Forall_nil_2.
  all: unfold Struct2Local.visitBlock, Struct2Local.visitLoop,
         Struct2Local.adjustTypeFlowingThrough, Struct2Local.visitLocalSet,
         Struct2Local.visitLocalGet, Struct2Local.visitRefIsNull,
         Struct2Local.visitRefEq, Struct2Local.visitRefAs,
         Struct2Local.visitRefTest, Struct2Local.visitRefCast,
         Struct2Local.visitRefGetDesc, Struct2Local.visitStructSet,
         Struct2Local.visitStructGet, Array2Struct.visitArraySet,
         Array2Struct.visitArrayGet, Array2Struct.visitRefTest,
         Array2Struct.visitRefCast, getInteractionM, bind, gets.
  all: rewrite Hnone; done.
Qed.

(** *** Sets and gets of the locals that held the reference *)

(** X18.  A reached [local.set] is removed: a tee is replaced by its
    value, and a plain set by a new drop of its value.  No expression that
    was there is changed, no local is added, and the replacement takes
    over the interaction of the set unless the value is unreachable. *)
Theorem visitLocalSet_removes_the_set (s : Rewrite) (curr value : Expr)
    (index : Z) :
  getInteraction (analyzer s) curr <> ParentChildInteraction.None ->
  kindOf (arena s) curr = LocalSet index value ->
  current s = curr ->
  exists s',
    Struct2Local.visitLocalSet curr s = Some (tt, s')
    /\ (if decide (typeOf (arena s) curr = Tnone)
        then current s' = nextExpr s
             /\ deref (arena s') (current s')
                = {| kind := Drop value;
                     type := if decide (typeOf (arena s) value = Tunreachable)
                             then Tunreachable else Tnone |}
        else current s' = value /\ arena s' = arena s)
    /\ (forall e, (e < nextExpr s)%positive ->
                  deref (arena s') e = deref (arena s) e)
    /\ (typeOf (arena s) value <> Tunreachable ->
        getInteraction (analyzer s') (current s')
        = getInteraction (analyzer s) curr)
    /\ function s' = function s
    /\ refinalize s' = refinalize s.
Proof.
  intros Hi Hk Hcur.
  destruct (getInteraction_reached _ _ Hi) as [i Hlookup].
  rewrite (getInteraction_lookup _ _ _ Hlookup).
  cut (wp (Struct2Local.visitLocalSet curr) s (fun _ s' =>
         (if decide (typeOf (arena s) curr = Tnone)
          then current s' = nextExpr s
               /\ deref (arena s') (current s')
                  = {| kind := Drop value;
                       type := if decide (typeOf (arena s) value
                                          = Tunreachable)
                               then Tunreachable else Tnone |}
          else current s' = value /\ arena s' = arena s)
         /\ (forall e, (e < nextExpr s)%positive ->
                       deref (arena s') e = deref (arena s) e)
         /\ (typeOf (arena s) value <> Tunreachable ->
             getInteraction (analyzer s') (current s') = i)
         /\ function s' = function s
         /\ refinalize s' = refinalize s)).
  { intros ([] & s' & Hrun & ?)%wp_elim. by exists s'. }
  unfold Struct2Local.visitLocalSet, getInteractionM, kindOfM, typeOfM.
  apply wp_bind, wp_gets. rewrite decide_False by done.
  apply wp_bind, wp_gets. rewrite Hk.
  apply wp_bind, wp_gets.
  destruct (decide (typeOf (arena s) curr = Tnone)) as [Hty|Hty].
  - rewrite decide_False by (by intros Hne).
    apply wp_bind, wp_makeDrop. intros s1 Hg1 Hp1 Hn1 Hf1.
    apply wp_bind, (wp_replaceCurrent _ i).
    { by rewrite (grows_current _ _ Hg1), (grows_analyzer _ _ Hg1), Hcur. }
    intros s2 Hn2 Ha2 Hf2 Hr2 Hc2 _ Hi2. apply wp_ret.
    rewrite Hc2, Ha2, Hf2, Hr2, Hf1, (grows_refinalize _ _ Hg1).
    split; [by rewrite (placed_deref _ _ _ Hp1)|].
    split; [intros e He; by apply grows_frame|].
    split; [|done].
    intros Hvalue. unfold getInteraction. rewrite Hi2.
    rewrite (placed_typeOf _ _ _ Hp1). simpl.
    destruct (decide (typeOf (arena s) value = Tunreachable)); [done|].
    rewrite decide_False by done.
    by rewrite lookup_insert_eq.
  - rewrite decide_True by done.
    apply wp_bind, (wp_replaceCurrent _ i); [by rewrite Hcur|].
    intros s2 Hn2 Ha2 Hf2 Hr2 Hc2 _ Hi2. apply wp_ret.
    rewrite Hc2, Ha2. split; [done|]. split; [done|]. split; [|done].
    intros Hvalue. unfold getInteraction. rewrite Hi2.
    rewrite decide_False by done. by rewrite lookup_insert_eq.
Qed.

Lemma getInteraction_replaced (an an' : Analyzer) (x : Expr) (ty : WType)
    (i : Interaction) :
  reachedInteractions an'
  = (if decide (ty = Tunreachable) then reachedInteractions an
     else <[x := i]> (reachedInteractions an)) ->
  ty <> Tunreachable ->
  getInteraction an' x = i.
Proof.
  intros Hreached Hty. unfold getInteraction. rewrite Hreached.
  rewrite decide_False by done. by rewrite lookup_insert_eq.
Qed.

(** X19.  A reached [local.get] is replaced by a new null reference of
    the bottom type of the heap type the get had.  No expression that was
    there is changed, and the null takes over the interaction of the
    get. *)
Theorem visitLocalGet_becomes_null (s : Rewrite) (curr : Expr)
    (ht : HeapType) (nl : Nullability) :
  getInteraction (analyzer s) curr <> ParentChildInteraction.None ->
  typeOf (arena s) curr = Tref ht nl ->
  current s = curr ->
  exists s',
    Struct2Local.visitLocalGet curr s = Some (tt, s')
    /\ current s' = nextExpr s
    /\ deref (arena s') (current s')
       = {| kind := RefNull; type := Tref (getBottom ht) Nullable |}
    /\ (forall e, (e < nextExpr s)%positive ->
                  deref (arena s') e = deref (arena s) e)
    /\ getInteraction (analyzer s') (current s')
       = getInteraction (analyzer s) curr
    /\ function s' = function s
    /\ refinalize s' = refinalize s.
Proof.
  intros Hi Hty Hcur.
  destruct (getInteraction_reached _ _ Hi) as [i Hlookup].
  rewrite (getInteraction_lookup _ _ _ Hlookup).
  cut (wp (Struct2Local.visitLocalGet curr) s (fun _ s' =>
         current s' = nextExpr s
         /\ deref (arena s') (current s')
            = {| kind := RefNull; type := Tref (getBottom ht) Nullable |}
         /\ (forall e, (e < nextExpr s)%positive ->
                       deref (arena s') e = deref (arena s) e)
         /\ getInteraction (analyzer s') (current s') = i
         /\ function s' = function s
         /\ refinalize s' = refinalize s)).
  { intros ([] & s' & Hrun & ?)%wp_elim. by exists s'. }
  unfold Struct2Local.visitLocalGet, getInteractionM, typeOfM, makeRefNull.
  apply wp_bind, wp_gets. rewrite decide_False by done.
  apply wp_bind, wp_gets. rewrite Hty.
  apply wp_bind, (wp_lift _ ht); [done|].
  apply wp_bind, wp_alloc. intros s1 Hg1 Hp1 Hn1 Hf1.
  apply wp_bind, (wp_replaceCurrent _ i).
  { by rewrite (grows_current _ _ Hg1), (grows_analyzer _ _ Hg1), Hcur. }
  intros s2 Hn2 Ha2 Hf2 Hr2 Hc2 _ Hi2. apply wp_ret.
  rewrite Hc2, Ha2, Hf2, Hr2, Hf1, (grows_refinalize _ _ Hg1).
  split; [done|].
  split; [by rewrite (placed_deref _ _ _ Hp1)|].
  split; [intros e He; by apply grows_frame|].
  split; [|done].
  apply (getInteraction_replaced _ _ _ _ _ Hi2).
  by rewrite (placed_typeOf _ _ _ Hp1).
Qed.

(** *** Tests on the reference *)

(** X20.  A reached [ref.is_null] is replaced by a block of two
    expressions: a drop of the [ref.is_null] itself, which stays as it
    was, and the i32 constant 0.  The block has type i32 and takes over
    the interaction of the [ref.is_null]. *)
Theorem visitRefIsNull_is_zero (s : Rewrite) (curr : Expr) :
  getInteraction (analyzer s) curr <> ParentChildInteraction.None ->
  current s = curr ->
  exists s' drop const,
    Struct2Local.visitRefIsNull curr s = Some (tt, s')
    /\ kindOf (arena s') (current s') = Block "" [drop; const]
    /\ typeOf (arena s') (current s') = Ti32
    /\ kindOf (arena s') drop = Drop curr
    /\ deref (arena s') const
       = {| kind := Const (LitI32 0); type := Ti32 |}
    /\ (forall e, (e < nextExpr s)%positive ->
                  deref (arena s') e = deref (arena s) e)
    /\ getInteraction (analyzer s') (current s')
       = getInteraction (analyzer s) curr
    /\ function s' = function s
    /\ refinalize s' = refinalize s.
Proof.
  intros Hi Hcur.
  destruct (getInteraction_reached _ _ Hi) as [i Hlookup].
  rewrite (getInteraction_lookup _ _ _ Hlookup).
  cut (wp (Struct2Local.visitRefIsNull curr) s (fun _ s' =>
         exists drop const,
           kindOf (arena s') (current s') = Block "" [drop; const]
           /\ typeOf (arena s') (current s') = Ti32
           /\ kindOf (arena s') drop = Drop curr
           /\ deref (arena s') const
              = {| kind := Const (LitI32 0); type := Ti32 |}
           /\ (forall e, (e < nextExpr s)%positive ->
                         deref (arena s') e = deref (arena s) e)
           /\ getInteraction (analyzer s') (current s') = i
           /\ function s' = function s
           /\ refinalize s' = refinalize s)).
  { intros ([] & s' & Hrun & d & c & ?)%wp_elim. by exists s', d, c. }
  unfold Struct2Local.visitRefIsNull, getInteractionM, makeSequence.
  apply wp_bind, wp_gets. rewrite decide_False by done.
  apply wp_bind, wp_makeDrop. intros s1 Hg1 Hp1 Hn1 Hf1.
  apply wp_bind, wp_makeConst. intros s2 Hg2 Hp2 Hn2 Hf2.
  apply wp_bind, wp_makeBlock. intros s3 Hg3 Hp3 Hn3 Hf3.
  rewrite blockType_pair in Hp3
    by (by rewrite (placed_typeOf _ _ _ Hp2)).
  rewrite (placed_typeOf _ _ _ Hp2) in Hp3. simpl in Hp3.
  pose proof (grows_trans _ _ _ Hg1 (grows_trans _ _ _ Hg2 Hg3)) as Hg.
  apply wp_bind, (wp_replaceCurrent _ i).
  { by rewrite (grows_current _ _ Hg), (grows_analyzer _ _ Hg), Hcur. }
  intros s4 Hn4 Ha4 Hf4 Hr4 Hc4 _ Hi4. apply wp_ret.
  exists (nextExpr s), (nextExpr s1).
  apply (placed_grows _ _ _ _ (grows_trans _ _ _ Hg2 Hg3)) in Hp1.
  apply (placed_grows _ _ _ _ Hg3) in Hp2.
  rewrite Hc4, Ha4, Hf4, Hr4, Hf3, Hf2, Hf1, (grows_refinalize _ _ Hg).
  rewrite (placed_kindOf _ _ _ Hp3), (placed_typeOf _ _ _ Hp3),
    (placed_kindOf _ _ _ Hp1), (placed_deref _ _ _ Hp2).
  repeat (split; [done|]).
  split; [intros e He; by apply grows_frame|].
  split; [|done].
  apply (getInteraction_replaced _ _ _ _ _ Hi4).
  by rewrite (placed_typeOf _ _ _ Hp3).
Qed.

(** X21.  A reached [ref.as_non_null] is replaced by its value, with
    nothing allocated and no expression changed; the value takes over the
    interaction unless it is unreachable.  Any other [ref.as] operation
    that the allocation reaches fails the assertion of the visit. *)
Theorem visitRefAs_removes_non_null_check (s : Rewrite) (curr value : Expr)
    (op : RefAsOp) :
  getInteraction (analyzer s) curr <> ParentChildInteraction.None ->
  kindOf (arena s) curr = RefAs op value ->
  current s = curr ->
  match op with
  | RefAsNonNull =>
      exists s',
        Struct2Local.visitRefAs curr s = Some (tt, s')
        /\ current s' = value
        /\ arena s' = arena s
        /\ nextExpr s' = nextExpr s
        /\ (typeOf (arena s) value <> Tunreachable ->
            getInteraction (analyzer s') value
            = getInteraction (analyzer s) curr)
        /\ function s' = function s
        /\ refinalize s' = refinalize s
  | _ => Struct2Local.visitRefAs curr s = None
  end.
Proof.
  intros Hi Hk Hcur.
  destruct (getInteraction_reached _ _ Hi) as [i Hlookup].
  rewrite (getInteraction_lookup _ _ _ Hlookup).
  destruct op.
  - cut (wp (Struct2Local.visitRefAs curr) s (fun _ s' =>
           current s' = value
           /\ arena s' = arena s
           /\ nextExpr s' = nextExpr s
           /\ (typeOf (arena s) value <> Tunreachable ->
               getInteraction (analyzer s') value = i)
           /\ function s' = function s
           /\ refinalize s' = refinalize s)).
    { intros ([] & s' & Hrun & ?)%wp_elim. by exists s'. }
    unfold Struct2Local.visitRefAs, getInteractionM, kindOfM.
    apply wp_bind, wp_gets. rewrite decide_False by done.
    apply wp_bind, wp_gets. rewrite Hk.
    apply wp_bind, wp_assert; [done|].
    apply wp_bind, (wp_replaceCurrent _ i); [by rewrite Hcur|].
    intros s2 Hn2 Ha2 Hf2 Hr2 Hc2 _ Hi2. apply wp_ret.
    repeat (split; [done|]). split; [|done].
    intros Hvalue. by apply (getInteraction_replaced _ _ _ _ _ Hi2).
  - unfold Struct2Local.visitRefAs, getInteractionM, kindOfM, bind, gets.
    rewrite decide_False by done. by rewrite Hk.
  - unfold Struct2Local.visitRefAs, getInteractionM, kindOfM, bind, gets.
    rewrite decide_False by done. by rewrite Hk.
Qed.

(** X22.  A reached [ref.test] is decided when the allocation is
    rewritten: it is replaced by a block of two expressions, a drop of the
    reference tested and the i32 constant 1 when the type of the
    allocation is a subtype of the type tested for, 0 when it is not.  The
    block has type i32 and takes over the interaction of the test. *)
Theorem visitRefTest_is_decided (self : Struct2Local.t) (s : Rewrite)
    (curr ref : Expr) (castType : WType) :
  getInteraction (analyzer s) curr <> ParentChildInteraction.None ->
  kindOf (arena s) curr = RefTest ref castType ->
  current s = curr ->
  exists s' drop const,
    Struct2Local.visitRefTest self curr s = Some (tt, s')
    /\ kindOf (arena s') (current s') = Block "" [drop; const]
    /\ typeOf (arena s') (current s') = Ti32
    /\ kindOf (arena s') drop = Drop ref
    /\ kindOf (arena s') const
       = Const (LitI32
                  (if isSubType
                        (typeOf (arena s) (Struct2Local.allocation self))
                        castType
                   then 1 else 0))
    /\ (forall e, (e < nextExpr s)%positive ->
                  deref (arena s') e = deref (arena s) e)
    /\ getInteraction (analyzer s') (current s')
       = getInteraction (analyzer s) curr
    /\ function s' = function s
    /\ refinalize s' = refinalize s.
Proof.
  intros Hi Hk Hcur.
  destruct (getInteraction_reached _ _ Hi) as [i Hlookup].
  rewrite (getInteraction_lookup _ _ _ Hlookup).
  set (result := if isSubType
                      (typeOf (arena s) (Struct2Local.allocation self))
                      castType
                 then 1 else 0).
  cut (wp (Struct2Local.visitRefTest self curr) s (fun _ s' =>
         exists drop const,
           kindOf (arena s') (current s') = Block "" [drop; const]
           /\ typeOf (arena s') (current s') = Ti32
           /\ kindOf (arena s') drop = Drop ref
           /\ kindOf (arena s') const = Const (LitI32 result)
           /\ (forall e, (e < nextExpr s)%positive ->
                         deref (arena s') e = deref (arena s) e)
           /\ getInteraction (analyzer s') (current s') = i
           /\ function s' = function s
           /\ refinalize s' = refinalize s)).
  { intros ([] & s' & Hrun & d & c & ?)%wp_elim. by exists s', d, c. }
  unfold Struct2Local.visitRefTest, getInteractionM, kindOfM, typeOfM,
    makeSequence.
  apply wp_bind, wp_gets. rewrite decide_False by done.
  apply wp_bind, wp_gets. rewrite Hk.
  apply wp_bind, wp_gets. fold result.
  apply wp_bind, wp_makeDrop. intros s1 Hg1 Hp1 Hn1 Hf1.
  apply wp_bind, wp_makeConst. intros s2 Hg2 Hp2 Hn2 Hf2.
  apply wp_bind, wp_makeBlock. intros s3 Hg3 Hp3 Hn3 Hf3.
  rewrite blockType_pair in Hp3
    by (by rewrite (placed_typeOf _ _ _ Hp2)).
  rewrite (placed_typeOf _ _ _ Hp2) in Hp3. simpl in Hp3.
  pose proof (grows_trans _ _ _ Hg1 (grows_trans _ _ _ Hg2 Hg3)) as Hg.
  apply wp_bind, (wp_replaceCurrent _ i).
  { by rewrite (grows_current _ _ Hg), (grows_analyzer _ _ Hg), Hcur. }
  intros s4 Hn4 Ha4 Hf4 Hr4 Hc4 _ Hi4. apply wp_ret.
  exists (nextExpr s), (nextExpr s1).
  apply (placed_grows _ _ _ _ (grows_trans _ _ _ Hg2 Hg3)) in Hp1.
  apply (placed_grows _ _ _ _ Hg3) in Hp2.
  rewrite Hc4, Ha4, Hf4, Hr4, Hf3, Hf2, Hf1, (grows_refinalize _ _ Hg).
  rewrite (placed_kindOf _ _ _ Hp3), (placed_typeOf _ _ _ Hp3),
    (placed_kindOf _ _ _ Hp1), (placed_kindOf _ _ _ Hp2).
  repeat (split; [done|]).
  split; [intros e He; by apply grows_frame|].
  split; [|done].
  apply (getInteraction_replaced _ _ _ _ _ Hi4).
  by rewrite (placed_typeOf _ _ _ Hp3).
Qed.

Lemma wp_setRefinalize (s : Rewrite) (Q : unit -> Rewrite -> Prop) :
  (forall s',
     arena s' = arena s -> nextExpr s' = nextExpr s ->
     function s' = function s -> analyzer s' = analyzer s ->
     current s' = current s -> refinalize s' = true ->
     Q tt s') ->
  wp setRefinalize s Q.
Proof. intros HQ. unfold setRefinalize. by apply wp_modify, HQ. Qed.

Lemma wp_setExpression (e : Expr) (x : Expression) (s : Rewrite)
    (Q : unit -> Rewrite -> Prop) :
  (forall s',
     arena s' = <[e := x]> (arena s) -> nextExpr s' = nextExpr s ->
     function s' = function s -> analyzer s' = analyzer s ->
     current s' = current s -> refinalize s' = refinalize s ->
     Q tt s') ->
  wp (setExpression e x) s Q.
Proof. intros HQ. unfold setExpression. by apply wp_modify, HQ. Qed.

(** X23.  A reached [ref.cast] without a descriptor is decided when the
    allocation is rewritten: when the type of the allocation is a subtype
    of the type cast to, the cast is replaced by its reference; when it is
    not, by a block of type unreachable that drops the reference and
    traps.  The refinalize flag is set in both cases, and no expression
    that was there is changed. *)
Theorem visitRefCast_is_decided (leastUpperBound : WType -> WType -> WType)
    (self : Struct2Local.t) (s : Rewrite) (curr ref : Expr) :
  getInteraction (analyzer s) curr <> ParentChildInteraction.None ->
  kindOf (arena s) curr = RefCast ref None ->
  current s = curr ->
  exists s',
    Struct2Local.visitRefCast leastUpperBound self curr s = Some (tt, s')
    /\ refinalize s' = true
    /\ (if isSubType (typeOf (arena s) (Struct2Local.allocation self))
                     (typeOf (arena s) curr)
        then current s' = ref /\ arena s' = arena s
             /\ (typeOf (arena s) ref <> Tunreachable ->
                 getInteraction (analyzer s') ref
                 = getInteraction (analyzer s) curr)
        else exists drop trap,
               kindOf (arena s') (current s') = Block "" [drop; trap]
               /\ typeOf (arena s') (current s') = Tunreachable
               /\ kindOf (arena s') drop = Drop ref
               /\ kindOf (arena s') trap = Unreachable
               /\ analyzer s' = analyzer s)
    /\ (forall e, (e < nextExpr s)%positive ->
                  deref (arena s') e = deref (arena s) e)
    /\ function s' = function s.
Proof.
  intros Hi Hk Hcur.
  destruct (getInteraction_reached _ _ Hi) as [i Hlookup].
  rewrite (getInteraction_lookup _ _ _ Hlookup).
  cut (wp (Struct2Local.visitRefCast leastUpperBound self curr) s
         (fun _ s' =>
            refinalize s' = true
            /\ (if isSubType (typeOf (arena s) (Struct2Local.allocation self))
                             (typeOf (arena s) curr)
                then current s' = ref /\ arena s' = arena s
                     /\ (typeOf (arena s) ref <> Tunreachable ->
                         getInteraction (analyzer s') ref = i)
                else exists drop trap,
                       kindOf (arena s') (current s') = Block "" [drop; trap]
                       /\ typeOf (arena s') (current s') = Tunreachable
                       /\ kindOf (arena s') drop = Drop ref
                       /\ kindOf (arena s') trap = Unreachable
                       /\ analyzer s' = analyzer s)
            /\ (forall e, (e < nextExpr s)%positive ->
                          deref (arena s') e = deref (arena s) e)
            /\ function s' = function s)).
  { intros ([] & s' & Hrun & ?)%wp_elim. by exists s'. }
  unfold Struct2Local.visitRefCast, getInteractionM, kindOfM, typeOfM,
    makeSequence.
  apply wp_bind, wp_gets. rewrite decide_False by done.
  apply wp_bind, wp_gets. rewrite Hk.
  apply wp_bind, wp_gets, wp_bind, wp_gets.
  destruct (isSubType _ _).
  - apply wp_bind, wp_bind, (wp_replaceCurrent _ i); [by rewrite Hcur|].
    intros s2 Hn2 Ha2 Hf2 Hr2 Hc2 _ Hi2. apply wp_ret.
    apply wp_setRefinalize. intros s3 Ha3 Hn3 Hf3 Han3 Hc3 Hr3.
    rewrite Hc3, Ha3, Hf3, Han3, Hc2, Ha2, Hf2.
    split; [done|]. split; [|done].
    split; [done|]. split; [done|].
    intros Href. by apply (getInteraction_replaced _ _ _ _ _ Hi2).
  - apply wp_bind, wp_bind, wp_makeDrop. intros s1 Hg1 Hp1 Hn1 Hf1.
    apply wp_bind, wp_makeUnreachable. intros s2 Hg2 Hp2 Hn2 Hf2.
    apply wp_bind, wp_makeBlock. intros s3 Hg3 Hp3 Hn3 Hf3.
    rewrite blockType_pair in Hp3
      by (by rewrite (placed_typeOf _ _ _ Hp2)).
    rewrite (placed_typeOf _ _ _ Hp2) in Hp3. simpl in Hp3.
    pose proof (grows_trans _ _ _ Hg1 (grows_trans _ _ _ Hg2 Hg3)) as Hg.
    apply wp_bind, (wp_replaceCurrent _ i).
    { by rewrite (grows_current _ _ Hg), (grows_analyzer _ _ Hg), Hcur. }
    intros s4 Hn4 Ha4 Hf4 Hr4 Hc4 Hs4 Hi4. apply wp_ret.
    apply wp_setRefinalize. intros s5 Ha5 Hn5 Hf5 Han5 Hc5 Hr5.
    apply (placed_grows _ _ _ _ (grows_trans _ _ _ Hg2 Hg3)) in Hp1.
    apply (placed_grows _ _ _ _ Hg3) in Hp2.
    rewrite Hc5, Ha5, Hf5, Han5, Hc4, Ha4, Hf4, Hf3, Hf2, Hf1.
    split; [done|]. split.
    + exists (nextExpr s), (nextExpr s1).
      rewrite (placed_kindOf _ _ _ Hp3), (placed_typeOf _ _ _ Hp3),
        (placed_kindOf _ _ _ Hp1), (placed_kindOf _ _ _ Hp2).
      repeat (split; [done|]).
      rewrite (placed_typeOf _ _ _ Hp3) in Hi4. simpl in Hi4.
      rewrite <- (grows_analyzer _ _ Hg).
      destruct (analyzer s4), (analyzer s3). simpl in *. congruence.
    + split; [|done]. intros e He. by apply grows_frame.
Qed.

(** *** Reads and writes of the fields *)

(** X24.  A reached [struct.set] is replaced by a block of two
    expressions: a drop of the reference, and a [local.set] of the value
    written to the local that stands for the field.  The block is
    unreachable when the reference or the value is, and has no value
    otherwise; no expression that was there is changed and no local is
    added. *)
Theorem visitStructSet_writes_the_local (self : Struct2Local.t)
    (s : Rewrite) (curr ref value : Expr) (index local : Z) :
  getInteraction (analyzer s) curr <> ParentChildInteraction.None ->
  kindOf (arena s) curr = StructSet index ref value ->
  vectorAtZ (Struct2Local.localIndexes self) index = Some local ->
  (value < nextExpr s)%positive ->
  current s = curr ->
  exists s' drop set,
    Struct2Local.visitStructSet self curr s = Some (tt, s')
    /\ kindOf (arena s') (current s') = Block "" [drop; set]
    /\ kindOf (arena s') drop = Drop ref
    /\ kindOf (arena s') set = LocalSet local value
    /\ typeOf (arena s') (current s')
       = (if decide (typeOf (arena s) ref = Tunreachable
                     \/ typeOf (arena s) value = Tunreachable)
          then Tunreachable else Tnone)
    /\ (typeOf (arena s) ref <> Tunreachable ->
        typeOf (arena s) value <> Tunreachable ->
        getInteraction (analyzer s') (current s')
        = getInteraction (analyzer s) curr)
    /\ (forall e, (e < nextExpr s)%positive ->
                  deref (arena s') e = deref (arena s) e)
    /\ function s' = function s
    /\ refinalize s' = refinalize s.
Proof.
  intros Hi Hk Hlocal Hvalue Hcur.
  destruct (getInteraction_reached _ _ Hi) as [i Hlookup].
  rewrite (getInteraction_lookup _ _ _ Hlookup).
  cut (wp (Struct2Local.visitStructSet self curr) s (fun _ s' =>
         exists drop set,
           kindOf (arena s') (current s') = Block "" [drop; set]
           /\ kindOf (arena s') drop = Drop ref
           /\ kindOf (arena s') set = LocalSet local value
           /\ typeOf (arena s') (current s')
              = (if decide (typeOf (arena s) ref = Tunreachable
                            \/ typeOf (arena s) value = Tunreachable)
                 then Tunreachable else Tnone)
           /\ (typeOf (arena s) ref <> Tunreachable ->
               typeOf (arena s) value <> Tunreachable ->
               getInteraction (analyzer s') (current s') = i)
           /\ (forall e, (e < nextExpr s)%positive ->
                         deref (arena s') e = deref (arena s) e)
           /\ function s' = function s
           /\ refinalize s' = refinalize s)).
  { intros ([] & s' & Hrun & d & c & ?)%wp_elim. by exists s', d, c. }
  unfold Struct2Local.visitStructSet, getInteractionM, kindOfM,
    makeSequence, makeLocalSet, typeOfM.
  apply wp_bind, wp_gets. rewrite decide_False by done.
  apply wp_bind, wp_gets. rewrite Hk.
  apply wp_bind, wp_makeDrop. intros s1 Hg1 Hp1 Hn1 Hf1.
  apply wp_bind, (wp_lift _ local); [done|].
  apply wp_bind, wp_bind, wp_gets, wp_alloc. intros s2 Hg2 Hp2 Hn2 Hf2.
  rewrite (proj1 (deref_grows _ _ _ Hg1 Hvalue)) in Hp2.
  apply wp_bind, wp_makeBlock. intros s3 Hg3 Hp3 Hn3 Hf3.
  assert (Hblock : blockType (arena s2) [nextExpr s; nextExpr s1]
                   = if decide (typeOf (arena s) ref = Tunreachable
                                \/ typeOf (arena s) value = Tunreachable)
                     then Tunreachable else Tnone).
  { unfold blockType. simpl.
    rewrite (placed_typeOf _ _ _ Hp2),
      (placed_typeOf _ _ _ (placed_grows _ _ _ _ Hg2 Hp1)). simpl.
    destruct (decide (typeOf (arena s) value = Tunreachable)) as [Hv|Hv],
             (decide (typeOf (arena s) ref = Tunreachable)) as [Hr|Hr];
      simpl; case_decide; naive_solver. }
  rewrite Hblock in Hp3.
  pose proof (grows_trans _ _ _ Hg1 (grows_trans _ _ _ Hg2 Hg3)) as Hg.
  apply wp_bind, (wp_replaceCurrent _ i).
  { by rewrite (grows_current _ _ Hg), (grows_analyzer _ _ Hg), Hcur. }
  intros s4 Hn4 Ha4 Hf4 Hr4 Hc4 _ Hi4. apply wp_ret.
  exists (nextExpr s), (nextExpr s1).
  apply (placed_grows _ _ _ _ (grows_trans _ _ _ Hg2 Hg3)) in Hp1.
  apply (placed_grows _ _ _ _ Hg3) in Hp2.
  rewrite Hc4, Ha4, Hf4, Hr4, Hf3, Hf2, Hf1, (grows_refinalize _ _ Hg).
  rewrite (placed_kindOf _ _ _ Hp3), (placed_typeOf _ _ _ Hp3),
    (placed_kindOf _ _ _ Hp1), (placed_kindOf _ _ _ Hp2).
  repeat (split; [done|]).
  split; [|split; [intros e He; by apply grows_frame|done]].
  intros Href Hval.
  apply (getInteraction_replaced _ _ _ _ _ Hi4).
  rewrite (placed_typeOf _ _ _ Hp3). simpl.
  rewrite decide_False by naive_solver. done.
Qed.

(** X25.  A reached [struct.get] of a field that is not packed is
    replaced by a block of two expressions: a drop of the reference, and
    a [local.get] of the local that stands for the field, typed as the
    field.  The block has the type of the field and takes over the
    interaction of the read; the refinalize flag is set when the type of
    the field is not the type the read had; no expression that was there
    is changed and no local is added. *)
Theorem visitStructGet_reads_the_local
    (unpackField : Expr -> Field -> bool -> M Expr)
    (self : Struct2Local.t) (s : Rewrite) (curr ref : Expr)
    (index local : Z) (signed : bool) (field : Field) :
  getInteraction (analyzer s) curr <> ParentChildInteraction.None ->
  kindOf (arena s) curr = StructGet index ref signed ->
  vectorAtZ (Struct2Local.fields self) index = Some field ->
  fpacked field = false ->
  isConcrete (ftype field) = true ->
  vectorAtZ (Struct2Local.localIndexes self) index = Some local ->
  current s = curr ->
  exists s' drop value,
    Struct2Local.visitStructGet unpackField self curr s = Some (tt, s')
    /\ deref (arena s') (current s')
       = {| kind := Block "" [drop; value]; type := ftype field |}
    /\ kindOf (arena s') drop = Drop ref
    /\ deref (arena s') value
       = {| kind := LocalGet local; type := ftype field |}
    /\ getInteraction (analyzer s') (current s')
       = getInteraction (analyzer s) curr
    /\ refinalize s'
       = (if decide (ftype field = typeOf (arena s) curr)
          then refinalize s else true)
    /\ (forall e, (e < nextExpr s)%positive ->
                  deref (arena s') e = deref (arena s) e)
    /\ function s' = function s.
Proof.
  intros Hi Hk Hfield Hpacked Hconcrete Hlocal Hcur.
  destruct (getInteraction_reached _ _ Hi) as [i Hlookup].
  rewrite (getInteraction_lookup _ _ _ Hlookup).
  cut (wp (Struct2Local.visitStructGet unpackField self curr) s
         (fun _ s' =>
            exists drop value,
              deref (arena s') (current s')
              = {| kind := Block "" [drop; value]; type := ftype field |}
              /\ kindOf (arena s') drop = Drop ref
              /\ deref (arena s') value
                 = {| kind := LocalGet local; type := ftype field |}
              /\ getInteraction (analyzer s') (current s') = i
              /\ refinalize s'
                 = (if decide (ftype field = typeOf (arena s) curr)
                    then refinalize s else true)
              /\ (forall e, (e < nextExpr s)%positive ->
                            deref (arena s') e = deref (arena s) e)
              /\ function s' = function s)).
  { intros ([] & s' & Hrun & d & c & ?)%wp_elim. by exists s', d, c. }
  unfold Struct2Local.visitStructGet, getInteractionM, kindOfM, typeOfM,
    Struct2Local.makePackedFieldGet, makeLocalGet.
  apply wp_bind, wp_gets. rewrite decide_False by done.
  apply wp_bind, wp_gets. rewrite Hk.
  apply wp_bind, (wp_lift _ field); [done|].
  apply wp_bind, wp_gets. rewrite Hpacked.
  (* the refinalize flag *)
  apply wp_bind.
  assert (Hflag : wp (if decide (ftype field <> typeOf (arena s) curr)
                      then setRefinalize else ret tt) s
                    (fun _ s0 =>
                       arena s0 = arena s /\ nextExpr s0 = nextExpr s
                       /\ function s0 = function s
                       /\ analyzer s0 = analyzer s
                       /\ current s0 = current s
                       /\ refinalize s0
                          = (if decide (ftype field = typeOf (arena s) curr)
                             then refinalize s else true))).
  { destruct (decide (ftype field = typeOf (arena s) curr)) as [He|He].
    - rewrite decide_False by (by intros Hne). by apply wp_ret.
    - rewrite decide_True by done. apply wp_setRefinalize.
      by intros s0 ? ? ? ? ? ?. }
  eapply wp_mono; [exact Hflag|]. clear Hflag.
  intros [] s0 (Ha0 & Hn0 & Hf0 & Han0 & Hc0 & Hr0). cbv beta.
  apply wp_bind, (wp_lift _ local); [done|].
  apply wp_bind, wp_alloc. intros s1 Hg1 Hp1 Hn1 Hf1.
  apply wp_bind, wp_ret.
  apply wp_bind, wp_makeDrop. intros s2 Hg2 Hp2 Hn2 Hf2.
  (* the block around the drop *)
  unfold blockify at 1. unfold kindOfM.
  apply wp_bind, wp_bind, wp_gets.
  rewrite (placed_kindOf _ _ _ Hp2). simpl kind. cbv iota.
  apply wp_bind, wp_makeBlock. intros s3 Hg3 Hp3 Hn3 Hf3.
  apply wp_ret.
  (* the value appended to it *)
  unfold blockify, kindOfM.
  apply wp_bind, wp_bind, wp_gets.
  rewrite (placed_kindOf _ _ _ Hp3). simpl kind. cbv iota.
  rewrite decide_True by done.
  apply wp_bind, wp_ret, wp_bind, wp_gets.
  rewrite (placed_kindOf _ _ _ Hp3). simpl kind. cbv iota.
  apply wp_bind, wp_gets, wp_bind, wp_setExpression.
  intros s4 Ha4 Hn4 Hf4 Han4 Hc4 Hr4. apply wp_ret.
  pose proof (grows_trans _ _ _ Hg1 (grows_trans _ _ _ Hg2 Hg3)) as Hg.
  apply (placed_grows _ _ _ _ (grows_trans _ _ _ Hg2 Hg3)) in Hp1.
  apply (placed_grows _ _ _ _ Hg3) in Hp2.
  assert (Hblock : blockType (arena s3) ([nextExpr s1] ++ [nextExpr s0])
                   = ftype field).
  { rewrite blockType_snoc; rewrite (placed_typeOf _ _ _ Hp1); [done|].
    simpl. by destruct (ftype field). }
  rewrite Hblock in Ha4. simpl app in Ha4.
  assert (Hold : forall e, (e < nextExpr s2)%positive ->
                           deref (arena s4) e = deref (arena s3) e).
  { intros e He. unfold deref. rewrite Ha4.
    apply lookup_total_insert_ne. lia. }
  assert (Hnew : deref (arena s4) (nextExpr s2)
                 = {| kind := Block "" [nextExpr s1; nextExpr s0];
                      type := ftype field |}).
  { unfold deref. rewrite Ha4. apply lookup_total_insert_eq. }
  apply wp_bind, (wp_replaceCurrent _ i).
  { rewrite Hc4, Han4, (grows_current _ _ Hg), (grows_analyzer _ _ Hg).
    by rewrite Hc0, Han0, Hcur. }
  intros s5 Hn5 Ha5 Hf5 Hr5 Hc5 _ Hi5. apply wp_ret.
  exists (nextExpr s1), (nextExpr s0).
  rewrite Hc5, Ha5, Hf5, Hr5, Hf4, Hr4, Hf3, Hf2, Hf1, Hf0,
    (grows_refinalize _ _ Hg), Hr0.
  pose proof (grows_next _ _ Hg1) as Hle1.
  split; [done|].
  split. { unfold kindOf. rewrite Hold by lia.
           by rewrite (placed_deref _ _ _ Hp2). }
  split. { rewrite Hold by lia. by rewrite (placed_deref _ _ _ Hp1). }
  split. { apply (getInteraction_replaced _ _ _ _ _ Hi5).
           unfold typeOf. rewrite Hnew. simpl.
           by destruct (ftype field). }
  split; [done|].
  split; [|done].
  intros e He. rewrite Hold by lia.
  rewrite (grows_frame _ _ _ Hg) by lia.
  unfold deref. by rewrite Ha0.
Qed.

(** *** Array accesses within bounds *)

Lemma visitArrayGet_in_bounds (self : Array2Struct.t) (s : Rewrite)
    (curr ref indexExpr : Expr) (signed : bool) (c : Literal) (u : Z) :
  getInteraction (analyzer s) curr <> ParentChildInteraction.None ->
  kindOf (arena s) curr = ArrayGet ref indexExpr signed ->
  asConst (arena s) indexExpr = Some c ->
  getUnsigned c = Some u ->
  wrap32 u < Array2Struct.numFields self ->
  current s = curr ->
  exists s',
    Array2Struct.visitArrayGet self curr s = Some (tt, s')
    /\ current s' = nextExpr s
    /\ deref (arena s') (current s')
       = {| kind := StructGet (wrap32 u) ref signed;
            type := if decide (typeOf (arena s) ref = Tunreachable)
                    then Tunreachable else typeOf (arena s) curr |}
    /\ refinalize s' = refinalize s
    /\ function s' = function s
    /\ (forall e, (e < nextExpr s)%positive ->
                  deref (arena s') e = deref (arena s) e).
Proof.
  intros Hi Hk Hc Hu Hin Hcur.
  destruct (getInteraction_reached _ _ Hi) as [i Hlookup].
  cut (wp (Array2Struct.visitArrayGet self curr) s (fun _ s' =>
         current s' = nextExpr s
         /\ deref (arena s') (current s')
            = {| kind := StructGet (wrap32 u) ref signed;
                 type := if decide (typeOf (arena s) ref = Tunreachable)
                         then Tunreachable else typeOf (arena s) curr |}
         /\ refinalize s' = refinalize s
         /\ function s' = function s
         /\ (forall e, (e < nextExpr s)%positive ->
                       deref (arena s') e = deref (arena s) e))).
  { intros ([] & s' & Hrun & ?)%wp_elim. by exists s'. }
  unfold Array2Struct.visitArrayGet, getInteractionM, kindOfM, typeOfM,
    makeStructGet.
  apply wp_bind, wp_gets. rewrite decide_False by done.
  apply wp_bind, wp_gets. rewrite Hk.
  apply wp_bind, (wp_getIndex _ c u); [done..|].
  rewrite decide_False by lia.
  apply wp_bind, wp_gets, wp_bind, wp_bind, wp_gets, wp_alloc.
  intros s1 Hg1 Hp1 Hn1 Hf1.
  apply wp_bind, (wp_replaceCurrent _ i).
  { by rewrite (grows_current _ _ Hg1), (grows_analyzer _ _ Hg1), Hcur. }
  intros s2 Hn2 Ha2 Hf2 Hr2 Hc2 _ _. apply wp_ret.
  rewrite Hc2, Ha2, Hf2, Hr2, Hf1, (grows_refinalize _ _ Hg1).
  rewrite (placed_deref _ _ _ Hp1).
  repeat (split; [done|]). intros e He. by apply grows_frame.
Qed.

Lemma visitArraySet_in_bounds (self : Array2Struct.t) (s : Rewrite)
    (curr ref indexExpr value : Expr) (c : Literal) (u : Z) :
  getInteraction (analyzer s) curr <> ParentChildInteraction.None ->
  kindOf (arena s) curr = ArraySet ref indexExpr value ->
  asConst (arena s) indexExpr = Some c ->
  getUnsigned c = Some u ->
  wrap32 u < Array2Struct.numFields self ->
  current s = curr ->
  exists s',
    Array2Struct.visitArraySet self curr s = Some (tt, s')
    /\ current s' = nextExpr s
    /\ deref (arena s') (current s')
       = {| kind := StructSet (wrap32 u) ref value;
            type := if decide (typeOf (arena s) ref = Tunreachable
                               \/ typeOf (arena s) value = Tunreachable)
                    then Tunreachable else Tnone |}
    /\ refinalize s' = refinalize s
    /\ function s' = function s
    /\ (forall e, (e < nextExpr s)%positive ->
                  deref (arena s') e = deref (arena s) e).
Proof.
  intros Hi Hk Hc Hu Hin Hcur.
  destruct (getInteraction_reached _ _ Hi) as [i Hlookup].
  cut (wp (Array2Struct.visitArraySet self curr) s (fun _ s' =>
         current s' = nextExpr s
         /\ deref (arena s') (current s')
            = {| kind := StructSet (wrap32 u) ref value;
                 type := if decide (typeOf (arena s) ref = Tunreachable
                                    \/ typeOf (arena s) value = Tunreachable)
                         then Tunreachable else Tnone |}
         /\ refinalize s' = refinalize s
         /\ function s' = function s
         /\ (forall e, (e < nextExpr s)%positive ->
                       deref (arena s') e = deref (arena s) e))).
  { intros ([] & s' & Hrun & ?)%wp_elim. by exists s'. }
  unfold Array2Struct.visitArraySet, getInteractionM, kindOfM, typeOfM,
    makeStructSet, typeOfM.
  apply wp_bind, wp_gets. rewrite decide_False by done.
  apply wp_bind, wp_gets. rewrite Hk.
  apply wp_bind, (wp_getIndex _ c u); [done..|].
  rewrite decide_False by lia.
  apply wp_bind, wp_bind, wp_gets, wp_bind, wp_gets, wp_alloc.
  intros s1 Hg1 Hp1 Hn1 Hf1.
  apply wp_bind, (wp_replaceCurrent _ i).
  { by rewrite (grows_current _ _ Hg1), (grows_analyzer _ _ Hg1), Hcur. }
  intros s2 Hn2 Ha2 Hf2 Hr2 Hc2 _ _. apply wp_ret.
  rewrite Hc2, Ha2, Hf2, Hr2, Hf1, (grows_refinalize _ _ Hg1).
  rewrite (placed_deref _ _ _ Hp1).
  repeat (split; [done|]). intros e He. by apply grows_frame.
Qed.

(** X26.  A reached [array.get] or [array.set] whose constant index is
    below the number of slots becomes the same access on the struct: a
    new [struct.get] or [struct.set] of the field with that index, on the
    same reference (and value, and signedness), a read keeping the type
    it had.  The refinalize flag is left as it was, and no expression that
    was there is changed. *)
Theorem in_bounds_array_access_becomes_struct_access
    (self : Array2Struct.t) (s : Rewrite) (curr ref indexExpr : Expr)
    (c : Literal) (u : Z) :
  getInteraction (analyzer s) curr <> ParentChildInteraction.None ->
  asConst (arena s) indexExpr = Some c ->
  getUnsigned c = Some u ->
  wrap32 u < Array2Struct.numFields self ->
  current s = curr ->
  (forall signed,
     kindOf (arena s) curr = ArrayGet ref indexExpr signed ->
     exists s',
       Array2Struct.visitArrayGet self curr s = Some (tt, s')
       /\ current s' = nextExpr s
       /\ deref (arena s') (current s')
          = {| kind := StructGet (wrap32 u) ref signed;
               type := if decide (typeOf (arena s) ref = Tunreachable)
                       then Tunreachable else typeOf (arena s) curr |}
       /\ refinalize s' = refinalize s
       /\ function s' = function s
       /\ (forall e, (e < nextExpr s)%positive ->
                     deref (arena s') e = deref (arena s) e))
  /\ (forall value,
        kindOf (arena s) curr = ArraySet ref indexExpr value ->
        exists s',
          Array2Struct.visitArraySet self curr s = Some (tt, s')
          /\ current s' = nextExpr s
          /\ deref (arena s') (current s')
             = {| kind := StructSet (wrap32 u) ref value;
                  type := if decide (typeOf (arena s) ref = Tunreachable
                                     \/ typeOf (arena s) value = Tunreachable)
                          then Tunreachable else Tnone |}
          /\ refinalize s' = refinalize s
          /\ function s' = function s
          /\ (forall e, (e < nextExpr s)%positive ->
                        deref (arena s') e = deref (arena s) e)).
Proof.
  intros Hi Hc Hu Hin Hcur. split.
  - intros signed Hk. by eapply visitArrayGet_in_bounds.
  - intros value Hk. by eapply visitArraySet_in_bounds.
Qed.

(** *** Tests and casts of an array *)

(** X27.  A reached [ref.test] of an array allocation is decided against
    the type the allocation had before it became a struct: it is replaced
    by a block of two expressions, a drop of the test itself, which stays
    as it was, and the i32 constant 1 when that type is a subtype of the
    type tested for, 0 when it is not. *)
Theorem array_visitRefTest_uses_original_type (self : Array2Struct.t)
    (s : Rewrite) (curr ref : Expr) (castType : WType) :
  getInteraction (analyzer s) curr <> ParentChildInteraction.None ->
  kindOf (arena s) curr = RefTest ref castType ->
  current s = curr ->
  exists s' drop const,
    Array2Struct.visitRefTest self curr s = Some (tt, s')
    /\ kindOf (arena s') (current s') = Block "" [drop; const]
    /\ typeOf (arena s') (current s') = Ti32
    /\ kindOf (arena s') drop = Drop curr
    /\ kindOf (arena s') const
       = Const (LitI32
                  (if isSubType (Array2Struct.originalType self) castType
                   then 1 else 0))
    /\ (forall e, (e < nextExpr s)%positive ->
                  deref (arena s') e = deref (arena s) e)
    /\ getInteraction (analyzer s') (current s')
       = getInteraction (analyzer s) curr
    /\ function s' = function s
    /\ refinalize s' = refinalize s.
Proof.
  intros Hi Hk Hcur.
  destruct (getInteraction_reached _ _ Hi) as [i Hlookup].
  rewrite (getInteraction_lookup _ _ _ Hlookup).
  set (result := if isSubType (Array2Struct.originalType self) castType
                 then 1 else 0).
  cut (wp (Array2Struct.visitRefTest self curr) s (fun _ s' =>
         exists drop const,
           kindOf (arena s') (current s') = Block "" [drop; const]
           /\ typeOf (arena s') (current s') = Ti32
           /\ kindOf (arena s') drop = Drop curr
           /\ kindOf (arena s') const = Const (LitI32 result)
           /\ (forall e, (e < nextExpr s)%positive ->
                         deref (arena s') e = deref (arena s) e)
           /\ getInteraction (analyzer s') (current s') = i
           /\ function s' = function s
           /\ refinalize s' = refinalize s)).
  { intros ([] & s' & Hrun & d & c & ?)%wp_elim. by exists s', d, c. }
  unfold Array2Struct.visitRefTest, getInteractionM, kindOfM, makeSequence.
  apply wp_bind, wp_gets. rewrite decide_False by done.
  apply wp_bind, wp_gets. rewrite Hk. fold result.
  apply wp_bind, wp_makeDrop. intros s1 Hg1 Hp1 Hn1 Hf1.
  apply wp_bind, wp_makeConst. intros s2 Hg2 Hp2 Hn2 Hf2.
  apply wp_bind, wp_makeBlock. intros s3 Hg3 Hp3 Hn3 Hf3.
  rewrite blockType_pair in Hp3
    by (by rewrite (placed_typeOf _ _ _ Hp2)).
  rewrite (placed_typeOf _ _ _ Hp2) in Hp3. simpl in Hp3.
  pose proof (grows_trans _ _ _ Hg1 (grows_trans _ _ _ Hg2 Hg3)) as Hg.
  apply wp_bind, (wp_replaceCurrent _ i).
  { by rewrite (grows_current _ _ Hg), (grows_analyzer _ _ Hg), Hcur. }
  intros s4 Hn4 Ha4 Hf4 Hr4 Hc4 _ Hi4. apply wp_ret.
  exists (nextExpr s), (nextExpr s1).
  apply (placed_grows _ _ _ _ (grows_trans _ _ _ Hg2 Hg3)) in Hp1.
  apply (placed_grows _ _ _ _ Hg3) in Hp2.
  rewrite Hc4, Ha4, Hf4, Hr4, Hf3, Hf2, Hf1, (grows_refinalize _ _ Hg).
  rewrite (placed_kindOf _ _ _ Hp3), (placed_typeOf _ _ _ Hp3),
    (placed_kindOf _ _ _ Hp1), (placed_kindOf _ _ _ Hp2).
  repeat (split; [done|]).
  split; [intros e He; by apply grows_frame|].
  split; [|done].
  apply (getInteraction_replaced _ _ _ _ _ Hi4).
  by rewrite (placed_typeOf _ _ _ Hp3).
Qed.

(** X28.  A reached [ref.cast] of an array allocation is decided against
    the type the allocation had before it became a struct.  When that
    type is a subtype of the type cast to, the cast stays in place and
    only its type changes, to the non-nullable reference to the struct
    type; when it is not, the cast is replaced by a block of type
    unreachable that drops the cast and traps.  The refinalize flag is
    set in both cases, and no other expression is changed. *)
Theorem array_visitRefCast_retypes_or_traps (self : Array2Struct.t)
    (structType : HeapType) (s : Rewrite) (curr ref : Expr)
    (desc : option Expr) :
  getInteraction (analyzer s) curr <> ParentChildInteraction.None ->
  kindOf (arena s) curr = RefCast ref desc ->
  current s = curr ->
  exists s',
    Array2Struct.visitRefCast self structType curr s = Some (tt, s')
    /\ refinalize s' = true
    /\ (if isSubType (Array2Struct.originalType self) (typeOf (arena s) curr)
        then current s' = curr
             /\ deref (arena s') curr
                = {| kind := RefCast ref desc;
                     type := Tref structType NonNullable |}
             /\ nextExpr s' = nextExpr s
        else exists drop trap,
               kindOf (arena s') (current s') = Block "" [drop; trap]
               /\ typeOf (arena s') (current s') = Tunreachable
               /\ kindOf (arena s') drop = Drop curr
               /\ kindOf (arena s') trap = Unreachable
               /\ ((curr < nextExpr s)%positive ->
                   deref (arena s') curr = deref (arena s) curr))
    /\ analyzer s' = analyzer s
    /\ (forall e, (e < nextExpr s)%positive -> e <> curr ->
                  deref (arena s') e = deref (arena s) e)
    /\ function s' = function s.
Proof.
  intros Hi Hk Hcur.
  destruct (getInteraction_reached _ _ Hi) as [i Hlookup].
  cut (wp (Array2Struct.visitRefCast self structType curr) s (fun _ s' =>
         refinalize s' = true
         /\ (if isSubType (Array2Struct.originalType self)
                          (typeOf (arena s) curr)
             then current s' = curr
                  /\ deref (arena s') curr
                     = {| kind := RefCast ref desc;
                          type := Tref structType NonNullable |}
                  /\ nextExpr s' = nextExpr s
             else exists drop trap,
                    kindOf (arena s') (current s') = Block "" [drop; trap]
                    /\ typeOf (arena s') (current s') = Tunreachable
                    /\ kindOf (arena s') drop = Drop curr
                    /\ kindOf (arena s') trap = Unreachable
                    /\ ((curr < nextExpr s)%positive ->
                        deref (arena s') curr = deref (arena s) curr))
         /\ analyzer s' = analyzer s
         /\ (forall e, (e < nextExpr s)%positive -> e <> curr ->
                       deref (arena s') e = deref (arena s) e)
         /\ function s' = function s)).
  { intros ([] & s' & Hrun & ?)%wp_elim. by exists s'. }
  unfold Array2Struct.visitRefCast, getInteractionM, kindOfM, typeOfM,
    makeSequence, setType, kindOfM.
  apply wp_bind, wp_gets. rewrite decide_False by done.
  apply wp_bind, wp_gets. rewrite Hk.
  apply wp_bind, wp_gets.
  destruct (isSubType _ _); simpl negb; cbv iota.
  - apply wp_bind, wp_bind, wp_gets. rewrite Hk.
    apply wp_setExpression. intros s1 Ha1 Hn1 Hf1 Han1 Hc1 Hr1.
    apply wp_setRefinalize. intros s2 Ha2 Hn2 Hf2 Han2 Hc2 Hr2.
    rewrite Hc2, Ha2, Hn2, Hf2, Han2, Hc1, Ha1, Hn1, Hf1, Han1.
    split; [done|].
    split. { split; [done|]. split; [|done].
             unfold deref. by rewrite lookup_total_insert_eq. }
    split; [done|]. split; [|done].
    intros e _ Hne. unfold deref. by rewrite lookup_total_insert_ne.
  - apply wp_bind, wp_bind, wp_makeDrop. intros s1 Hg1 Hp1 Hn1 Hf1.
    apply wp_bind, wp_makeUnreachable. intros s2 Hg2 Hp2 Hn2 Hf2.
    apply wp_bind, wp_makeBlock. intros s3 Hg3 Hp3 Hn3 Hf3.
    rewrite blockType_pair in Hp3
      by (by rewrite (placed_typeOf _ _ _ Hp2)).
    rewrite (placed_typeOf _ _ _ Hp2) in Hp3. simpl in Hp3.
    pose proof (grows_trans _ _ _ Hg1 (grows_trans _ _ _ Hg2 Hg3)) as Hg.
    apply wp_bind, (wp_replaceCurrent _ i).
    { by rewrite (grows_current _ _ Hg), (grows_analyzer _ _ Hg), Hcur. }
    intros s4 Hn4 Ha4 Hf4 Hr4 Hc4 Hs4 Hi4. apply wp_ret.
    apply wp_setRefinalize. intros s5 Ha5 Hn5 Hf5 Han5 Hc5 Hr5.
    apply (placed_grows _ _ _ _ (grows_trans _ _ _ Hg2 Hg3)) in Hp1.
    apply (placed_grows _ _ _ _ Hg3) in Hp2.
    rewrite Hc5, Ha5, Hf5, Han5, Hc4, Ha4, Hf4, Hf3, Hf2, Hf1.
    split; [done|]. split.
    { exists (nextExpr s), (nextExpr s1).
      rewrite (placed_kindOf _ _ _ Hp3), (placed_typeOf _ _ _ Hp3),
        (placed_kindOf _ _ _ Hp1), (placed_kindOf _ _ _ Hp2).
      repeat (split; [done|]). intros He. by apply grows_frame. }
    split.
    { rewrite (placed_typeOf _ _ _ Hp3) in Hi4. simpl in Hi4.
      rewrite <- (grows_analyzer _ _ Hg).
      destruct (analyzer s4), (analyzer s3). simpl in *. congruence. }
    split; [|done]. intros e He _. by apply grows_frame.
Qed.

(** *** The type of what the allocation flows through *)

Lemma adjustTypeFlowingThrough_run (s : Rewrite) (curr : Expr)
    (ht : HeapType) (nl : Nullability) :
  getInteraction (analyzer s) curr = ParentChildInteraction.Flows ->
  typeOf (arena s) curr = Tref ht nl ->
  Struct2Local.adjustTypeFlowingThrough curr s
  = Some (tt,
          {| arena := <[curr := {| kind := kindOf (arena s) curr;
                                   type := Tref ht Nullable |}]> (arena s);
             nextExpr := nextExpr s; function := function s;
             analyzer := analyzer s; refinalize := refinalize s;
             current := current s |}).
Proof.
  intros Hflows Hty.
  unfold Struct2Local.adjustTypeFlowingThrough, getInteractionM, typeOfM,
    setType, kindOfM, setExpression, bind, gets, modify.
  rewrite Hflows. rewrite decide_False by (by intros Hne).
  by rewrite Hty.
Qed.

(** X29.  At a block or a loop the allocation flows through, the visit
    makes the type nullable and changes nothing else: the expression
    keeps its kind and its heap type, every other expression is as it
    was, and nothing is allocated or replaced.  Visiting it again changes
    nothing more.  When the type is not a reference type the visit fails
    its assertion. *)
Theorem adjustTypeFlowingThrough_makes_nullable (s : Rewrite) (curr : Expr) :
  getInteraction (analyzer s) curr = ParentChildInteraction.Flows ->
  match typeOf (arena s) curr with
  | Tref ht nl =>
      exists s',
        Struct2Local.visitBlock curr s = Some (tt, s')
        /\ Struct2Local.visitLoop curr s = Some (tt, s')
        /\ deref (arena s') curr
           = {| kind := kindOf (arena s) curr; type := Tref ht Nullable |}
        /\ (forall e, e <> curr -> deref (arena s') e = deref (arena s) e)
        /\ nextExpr s' = nextExpr s
        /\ current s' = current s
        /\ analyzer s' = analyzer s
        /\ function s' = function s
        /\ refinalize s' = refinalize s
        /\ Struct2Local.visitBlock curr s' = Some (tt, s')
  | _ =>
      Struct2Local.visitBlock curr s = None
      /\ Struct2Local.visitLoop curr s = None
  end.
Proof.
  intros Hflows.
  destruct (typeOf (arena s) curr) as [| | | | | | |ht nl] eqn:Hty.
  1-7: unfold Struct2Local.visitLoop, Struct2Local.visitBlock,
         Struct2Local.adjustTypeFlowingThrough, getInteractionM, typeOfM,
         bind, gets;
       rewrite Hflows; rewrite decide_False by (by intros Hne);
       by rewrite Hty.
  unfold Struct2Local.visitLoop, Struct2Local.visitBlock.
  rewrite (adjustTypeFlowingThrough_run s curr ht nl) by done.
  eexists. split; [reflexivity|]. split; [reflexivity|]. simpl.
  split. { unfold deref. by rewrite lookup_total_insert_eq. }
  split. { intros e He. unfold deref. by rewrite lookup_total_insert_ne. }
  repeat (split; [done|]).
  rewrite (adjustTypeFlowingThrough_run _ curr ht Nullable); simpl.
  - unfold kindOf, deref. rewrite lookup_total_insert_eq. simpl.
    by rewrite insert_insert_eq.
  - done.
  - unfold typeOf, deref. by rewrite lookup_total_insert_eq.
Qed.

(** *** The constructor of the rewriter of structs *)

(** [addVar] appends one local and changes nothing else. *)
Lemma addVar_run (ty : WType) (s : Rewrite) :
  isConcrete ty = true ->
  addVar ty s
  = Some (Z.of_nat (length (params (function s))
                    + length (vars (function s))),
          {| arena := arena s; nextExpr := nextExpr s;
             function := {| params := params (function s);
                            vars := vars (function s) ++ [ty] |};
             analyzer := analyzer s; refinalize := refinalize s;
             current := current s |}).
Proof. intros Hty. unfold addVar, bind, assert. by rewrite Hty. Qed.

Lemma mapM_addVar_run (fields : list Field) (s : Rewrite) :
  Forall (fun field => isConcrete (ftype field) = true) fields ->
  mapM (fun field => addVar (ftype field)) fields s
  = Some (Z.of_nat
            <$> seq (length (params (function s))
                     + length (vars (function s)))
                    (length fields),
          {| arena := arena s; nextExpr := nextExpr s;
             function := {| params := params (function s);
                            vars := vars (function s)
                                    ++ (ftype <$> fields) |};
             analyzer := analyzer s; refinalize := refinalize s;
             current := current s |}).
Proof.
  revert s. induction fields as [|field fields IH]; intros s Hall.
  - simpl. rewrite app_nil_r. by destruct s as [? ? []].
  - apply Forall_cons in Hall as [Hfield Hall].
    cbn [mapM]. unfold bind at 1. rewrite addVar_run by done.
    unfold bind at 1. rewrite IH by done. simpl.
    rewrite length_app, <- (assoc_L (++)). simpl.
    replace (length (params (function s))
             + (length (vars (function s)) + 1))%nat
      with (S (length (params (function s))
               + length (vars (function s)))) by lia.
    done.
Qed.

(** X30.  The constructor of [Struct2Local] adds its locals before it
    walks the function: one local for each field of the struct type of
    the allocation, typed as the field, and one more, typed as the
    descriptor, when the allocation has a descriptor.  The new locals
    follow the locals the function had, in the order of the fields, and
    the table of the rewriter maps field [i] to the [i]-th of them, the
    descriptor coming last.  The walk then runs with that table, from a
    state that has the expressions, the reached map and the current
    expression the constructor was given and the refinalize flag cleared;
    the constructor refinalizes after the walk exactly when the walk left
    the flag set. *)
Theorem create_adds_one_local_per_field
    (walk : Struct2Local.t -> M unit) (reFinalize : M unit)
    (s : Rewrite) (allocation : Expr)
    (ht : HeapType) (nl : Nullability) (fs : list Field)
    (operands : list Expr) (desc : option Expr) :
  typeOf (arena s) allocation = Tref ht nl ->
  heapDef ht = HStruct fs ->
  kindOf (arena s) allocation = StructNew operands desc ->
  Forall (fun field => isConcrete (ftype field) = true) fs ->
  (forall d, desc = Some d -> isConcrete (typeOf (arena s) d) = true) ->
  exists self s1,
    Struct2Local.create walk reFinalize allocation s
    = bind (walk self)
        (fun _ =>
           bind (gets refinalize)
             (fun flag =>
                bind (if flag then reFinalize else ret tt)
                  (fun _ => ret self))) s1
    /\ Struct2Local.allocation self = allocation
    /\ Struct2Local.fields self = fs
    /\ Struct2Local.localIndexes self
       = Z.of_nat
           <$> seq (length (params (function s)) + length (vars (function s)))
                   (length fs + (match desc with Some _ => 1 | None => 0 end))
    /\ vars (function s1)
       = vars (function s) ++ (ftype <$> fs)
         ++ (match desc with
             | Some d => [typeOf (arena s) d]
             | None => []
             end)
    /\ params (function s1) = params (function s)
    /\ arena s1 = arena s
    /\ nextExpr s1 = nextExpr s
    /\ analyzer s1 = analyzer s
    /\ current s1 = current s
    /\ refinalize s1 = false.
Proof.
  intros Hty Hdef Hk Hfields Hdesc.
  unfold Struct2Local.create, Struct2Local.getStruct, Struct2Local.descOf,
    Struct2Local.clearRefinalize, typeOfM, kindOfM.
  unfold bind at 1. unfold gets at 1. rewrite Hty.
  unfold bind at 1. unfold bind at 1. simpl lift. unfold ret at 1.
  rewrite Hdef. unfold ret at 1.
  unfold bind at 1. unfold modify at 1.
  unfold bind at 1. rewrite mapM_addVar_run by done. simpl.
  unfold bind at 1. unfold bind at 1. unfold gets at 1. simpl.
  rewrite Hk. unfold ret at 1.
  destruct desc as [d|].
  - unfold bind at 1. unfold bind at 1. unfold gets at 1. simpl.
    unfold bind at 1. rewrite addVar_run by (by apply Hdesc).
    unfold ret at 1. simpl.
    eexists _, _. split; [reflexivity|]. simpl.
    rewrite length_app, length_fmap, seq_app, fmap_app. simpl.
    rewrite <- (assoc_L (++)).
    repeat split; try done. do 3 f_equal. lia.
  - unfold bind at 1. unfold ret at 1. simpl.
    eexists _, _. split; [reflexivity|]. simpl.
    rewrite Nat.add_0_r, !app_nil_r.
    by repeat split.
Qed.


End RewriterMoreProperties.

Section RewriterMoreWitnesses.

Import EscapeAnalyzer Rewriter.

#[local] Existing Instance Samples.noTables.

Lemma unreached_expressions_are_left_alone_witness :
  (getInteraction (analyzer (Samples.usesAt 20)) 20%positive =
      ParentChildInteraction.None)
  /\
  (Forall (fun visit : Expr -> M unit => visit 20%positive (Samples.usesAt 20)
      = Some (tt, (Samples.usesAt 20)))
    [ Struct2Local.visitBlock;
      Struct2Local.visitLoop;
      Struct2Local.visitLocalSet;
      Struct2Local.visitLocalGet;
      Struct2Local.visitRefIsNull;
      Struct2Local.visitRefEq;
      Struct2Local.visitRefAs;
      Struct2Local.visitRefTest Samples.usesSelf;
      Struct2Local.visitRefCast Samples.sameType Samples.usesSelf;
      Struct2Local.visitRefGetDesc Samples.usesSelf;
      Struct2Local.visitStructSet Samples.usesSelf;
      Struct2Local.visitStructGet Samples.noUnpack Samples.usesSelf;
      Array2Struct.visitArraySet Samples.arraySelf;
      Array2Struct.visitArrayGet Samples.arraySelf;
      Array2Struct.visitRefTest Samples.arraySelf;
      Array2Struct.visitRefCast Samples.arraySelf 5%positive ]).
Proof.
  split; [by vm_compute|].
  apply (unreached_expressions_are_left_alone (H := Samples.noTables)
           Samples.sameType Samples.noUnpack Samples.usesSelf
               Samples.arraySelf
           5%positive (Samples.usesAt 20) 20%positive).
  - by vm_compute.
Defined.

Lemma visitLocalSet_removes_the_set_witness :
  (getInteraction (analyzer (Samples.usesAt 2)) 2%positive <>
      ParentChildInteraction.None)
  /\
  (kindOf (arena (Samples.usesAt 2)) 2%positive = LocalSet 0 1%positive)
  /\
  (current (Samples.usesAt 2) = 2%positive)
  /\
  (exists s',
    Struct2Local.visitLocalSet 2%positive (Samples.usesAt 2) = Some (tt, s')
    /\ (if decide (typeOf (arena (Samples.usesAt 2)) 2%positive = Tnone)
        then current s' = nextExpr (Samples.usesAt 2)
             /\ deref (arena s') (current s')
                = {| kind := Drop 1%positive;
                     type := if decide (typeOf (arena (Samples.usesAt 2))
                         1%positive = Tunreachable)
                             then Tunreachable else Tnone |}
        else current s' = 1%positive /\ arena s' = arena (Samples.usesAt 2))
    /\ (forall e, (e < nextExpr (Samples.usesAt 2))%positive ->
                  deref (arena s') e = deref (arena (Samples.usesAt 2)) e)
    /\ (typeOf (arena (Samples.usesAt 2)) 1%positive <> Tunreachable ->
        getInteraction (analyzer s') (current s')
        = getInteraction (analyzer (Samples.usesAt 2)) 2%positive)
    /\ function s' = function (Samples.usesAt 2)
    /\ refinalize s' = refinalize (Samples.usesAt 2)).
Proof.
  split; [by vm_compute|].
  split; [by vm_compute|].
  split; [by vm_compute|].
  apply (visitLocalSet_removes_the_set (Samples.usesAt 2) 2%positive
      1%positive 0).
  - by vm_compute.
  - by vm_compute.
  - by vm_compute.
Defined.

Lemma visitLocalGet_becomes_null_witness :
  (getInteraction (analyzer (Samples.usesAt 3)) 3%positive <>
      ParentChildInteraction.None)
  /\
  (typeOf (arena (Samples.usesAt 3)) 3%positive = Tref 1%positive Nullable)
  /\
  (current (Samples.usesAt 3) = 3%positive)
  /\
  (exists s',
    Struct2Local.visitLocalGet 3%positive (Samples.usesAt 3) = Some (tt, s')
    /\ current s' = nextExpr (Samples.usesAt 3)
    /\ deref (arena s') (current s')
       = {| kind := RefNull; type := Tref (getBottom 1%positive) Nullable |}
    /\ (forall e, (e < nextExpr (Samples.usesAt 3))%positive ->
                  deref (arena s') e = deref (arena (Samples.usesAt 3)) e)
    /\ getInteraction (analyzer s') (current s')
       = getInteraction (analyzer (Samples.usesAt 3)) 3%positive
    /\ function s' = function (Samples.usesAt 3)
    /\ refinalize s' = refinalize (Samples.usesAt 3)).
Proof.
  split; [by vm_compute|].
  split; [by vm_compute|].
  split; [by vm_compute|].
  apply (visitLocalGet_becomes_null (H := Samples.noTables)
           (Samples.usesAt 3) 3%positive 1%positive Nullable).
  - by vm_compute.
  - by vm_compute.
  - by vm_compute.
Defined.

Lemma visitRefIsNull_is_zero_witness :
  (getInteraction (analyzer (Samples.usesAt 4)) 4%positive <>
      ParentChildInteraction.None)
  /\
  (current (Samples.usesAt 4) = 4%positive)
  /\
  (exists s' drop const,
    Struct2Local.visitRefIsNull 4%positive (Samples.usesAt 4) = Some (tt, s')
    /\ kindOf (arena s') (current s') = Block "" [drop; const]
    /\ typeOf (arena s') (current s') = Ti32
    /\ kindOf (arena s') drop = Drop 4%positive
    /\ deref (arena s') const
       = {| kind := Const (LitI32 0); type := Ti32 |}
    /\ (forall e, (e < nextExpr (Samples.usesAt 4))%positive ->
                  deref (arena s') e = deref (arena (Samples.usesAt 4)) e)
    /\ getInteraction (analyzer s') (current s')
       = getInteraction (analyzer (Samples.usesAt 4)) 4%positive
    /\ function s' = function (Samples.usesAt 4)
    /\ refinalize s' = refinalize (Samples.usesAt 4)).
Proof.
  split; [by vm_compute|].
  split; [by vm_compute|].
  apply (visitRefIsNull_is_zero (Samples.usesAt 4) 4%positive).
  - by vm_compute.
  - by vm_compute.
Defined.

Lemma visitRefAs_removes_non_null_check_witness :
  (getInteraction (analyzer (Samples.usesAt 6)) 6%positive <>
      ParentChildInteraction.None)
  /\
  (kindOf (arena (Samples.usesAt 6)) 6%positive = RefAs RefAsNonNull
      5%positive)
  /\
  (current (Samples.usesAt 6) = 6%positive)
  /\
  (match RefAsNonNull with
    | RefAsNonNull =>
        exists s',
          Struct2Local.visitRefAs 6%positive (Samples.usesAt 6) = Some (tt,
              s')
          /\ current s' = 5%positive
          /\ arena s' = arena (Samples.usesAt 6)
          /\ nextExpr s' = nextExpr (Samples.usesAt 6)
          /\ (typeOf (arena (Samples.usesAt 6)) 5%positive <> Tunreachable ->
              getInteraction (analyzer s') 5%positive
              = getInteraction (analyzer (Samples.usesAt 6)) 6%positive)
          /\ function s' = function (Samples.usesAt 6)
          /\ refinalize s' = refinalize (Samples.usesAt 6)
    | _ => Struct2Local.visitRefAs 6%positive (Samples.usesAt 6) = None
    end).
Proof.
  split; [by vm_compute|].
  split; [by vm_compute|].
  split; [by vm_compute|].
  apply (visitRefAs_removes_non_null_check
           (Samples.usesAt 6) 6%positive 5%positive RefAsNonNull).
  - by vm_compute.
  - by vm_compute.
  - by vm_compute.
Defined.

Lemma visitRefTest_is_decided_witness :
  (getInteraction (analyzer (Samples.usesAt 8)) 8%positive <>
      ParentChildInteraction.None)
  /\
  (kindOf (arena (Samples.usesAt 8)) 8%positive = RefTest 7%positive (Tref 1
      NonNullable))
  /\
  (current (Samples.usesAt 8) = 8%positive)
  /\
  (exists s' drop const,
    Struct2Local.visitRefTest Samples.usesSelf 8%positive (Samples.usesAt 8) =
        Some (tt, s')
    /\ kindOf (arena s') (current s') = Block "" [drop; const]
    /\ typeOf (arena s') (current s') = Ti32
    /\ kindOf (arena s') drop = Drop 7%positive
    /\ kindOf (arena s') const
       = Const (LitI32
                  (if isSubType
                        (typeOf (arena (Samples.usesAt 8))
                            (Struct2Local.allocation Samples.usesSelf))
                        (Tref 1 NonNullable)
                   then 1 else 0))
    /\ (forall e, (e < nextExpr (Samples.usesAt 8))%positive ->
                  deref (arena s') e = deref (arena (Samples.usesAt 8)) e)
    /\ getInteraction (analyzer s') (current s')
       = getInteraction (analyzer (Samples.usesAt 8)) 8%positive
    /\ function s' = function (Samples.usesAt 8)
    /\ refinalize s' = refinalize (Samples.usesAt 8)).
Proof.
  split; [by vm_compute|].
  split; [by vm_compute|].
  split; [by vm_compute|].
  apply (visitRefTest_is_decided (H := Samples.noTables) Samples.usesSelf
           (Samples.usesAt 8) 8%positive 7%positive (Tref 1 NonNullable)).
  - by vm_compute.
  - by vm_compute.
  - by vm_compute.
Defined.

Lemma visitRefCast_is_decided_witness :
  (getInteraction (analyzer (Samples.usesAt 17)) 17%positive <>
      ParentChildInteraction.None)
  /\
  (kindOf (arena (Samples.usesAt 17)) 17%positive = RefCast 16%positive None)
  /\
  (current (Samples.usesAt 17) = 17%positive)
  /\
  (exists s',
    Struct2Local.visitRefCast Samples.sameType Samples.usesSelf 17%positive
        (Samples.usesAt 17) = Some (tt, s')
    /\ refinalize s' = true
    /\ (if isSubType (typeOf (arena (Samples.usesAt 17))
        (Struct2Local.allocation Samples.usesSelf))
                     (typeOf (arena (Samples.usesAt 17)) 17%positive)
        then current s' = 16%positive /\ arena s' = arena (Samples.usesAt 17)
             /\ (typeOf (arena (Samples.usesAt 17)) 16%positive <>
                 Tunreachable ->
                 getInteraction (analyzer s') 16%positive
                 = getInteraction (analyzer (Samples.usesAt 17)) 17%positive)
        else exists drop trap,
               kindOf (arena s') (current s') = Block "" [drop; trap]
               /\ typeOf (arena s') (current s') = Tunreachable
               /\ kindOf (arena s') drop = Drop 16%positive
               /\ kindOf (arena s') trap = Unreachable
               /\ analyzer s' = analyzer (Samples.usesAt 17))
    /\ (forall e, (e < nextExpr (Samples.usesAt 17))%positive ->
                  deref (arena s') e = deref (arena (Samples.usesAt 17)) e)
    /\ function s' = function (Samples.usesAt 17)).
Proof.
  split; [by vm_compute|].
  split; [by vm_compute|].
  split; [by vm_compute|].
  apply (visitRefCast_is_decided (H := Samples.noTables) Samples.sameType
           Samples.usesSelf (Samples.usesAt 17) 17%positive 16%positive).
  - by vm_compute.
  - by vm_compute.
  - by vm_compute.
Defined.

Lemma visitStructSet_writes_the_local_witness :
  (getInteraction (analyzer (Samples.usesAt 13)) 13%positive <>
      ParentChildInteraction.None)
  /\
  (kindOf (arena (Samples.usesAt 13)) 13%positive = StructSet 0 11%positive
      12%positive)
  /\
  (vectorAtZ (Struct2Local.localIndexes Samples.usesSelf) 0 = Some 1)
  /\
  ((12%positive < nextExpr (Samples.usesAt 13))%positive)
  /\
  (current (Samples.usesAt 13) = 13%positive)
  /\
  (exists s' drop set,
    Struct2Local.visitStructSet Samples.usesSelf 13%positive (Samples.usesAt
        13) = Some (tt, s')
    /\ kindOf (arena s') (current s') = Block "" [drop; set]
    /\ kindOf (arena s') drop = Drop 11%positive
    /\ kindOf (arena s') set = LocalSet 1 12%positive
    /\ typeOf (arena s') (current s')
       = (if decide (typeOf (arena (Samples.usesAt 13)) 11%positive =
           Tunreachable
                     \/ typeOf (arena (Samples.usesAt 13)) 12%positive =
                         Tunreachable)
          then Tunreachable else Tnone)
    /\ (typeOf (arena (Samples.usesAt 13)) 11%positive <> Tunreachable ->
        typeOf (arena (Samples.usesAt 13)) 12%positive <> Tunreachable ->
        getInteraction (analyzer s') (current s')
        = getInteraction (analyzer (Samples.usesAt 13)) 13%positive)
    /\ (forall e, (e < nextExpr (Samples.usesAt 13))%positive ->
                  deref (arena s') e = deref (arena (Samples.usesAt 13)) e)
    /\ function s' = function (Samples.usesAt 13)
    /\ refinalize s' = refinalize (Samples.usesAt 13)).
Proof.
  split; [by vm_compute|].
  split; [by vm_compute|].
  split; [by vm_compute|].
  split; [by vm_compute|].
  split; [by vm_compute|].
  apply (visitStructSet_writes_the_local Samples.usesSelf
           (Samples.usesAt 13) 13%positive 11%positive 12%positive 0 1).
  - by vm_compute.
  - by vm_compute.
  - by vm_compute.
  - by vm_compute.
  - by vm_compute.
Defined.

Lemma visitStructGet_reads_the_local_witness :
  (getInteraction (analyzer (Samples.usesAt 15)) 15%positive <>
      ParentChildInteraction.None)
  /\
  (kindOf (arena (Samples.usesAt 15)) 15%positive = StructGet 0 14%positive
      false)
  /\
  (vectorAtZ (Struct2Local.fields Samples.usesSelf) 0 = Some ({| ftype :=
      Ti32; fpacked := false; fmutable := true |}))
  /\
  (fpacked ({| ftype := Ti32; fpacked := false; fmutable := true |}) = false)
  /\
  (isConcrete (ftype ({| ftype := Ti32; fpacked := false; fmutable := true
      |})) = true)
  /\
  (vectorAtZ (Struct2Local.localIndexes Samples.usesSelf) 0 = Some 1)
  /\
  (current (Samples.usesAt 15) = 15%positive)
  /\
  (exists s' drop value,
    Struct2Local.visitStructGet Samples.noUnpack Samples.usesSelf 15%positive
        (Samples.usesAt 15) = Some (tt, s')
    /\ deref (arena s') (current s')
       = {| kind := Block "" [drop; value]; type := ftype ({| ftype := Ti32;
           fpacked := false; fmutable := true |}) |}
    /\ kindOf (arena s') drop = Drop 14%positive
    /\ deref (arena s') value
       = {| kind := LocalGet 1; type := ftype ({| ftype := Ti32; fpacked :=
           false; fmutable := true |}) |}
    /\ getInteraction (analyzer s') (current s')
       = getInteraction (analyzer (Samples.usesAt 15)) 15%positive
    /\ refinalize s'
       = (if decide (ftype ({| ftype := Ti32; fpacked := false; fmutable :=
           true |}) = typeOf (arena (Samples.usesAt 15)) 15%positive)
          then refinalize (Samples.usesAt 15) else true)
    /\ (forall e, (e < nextExpr (Samples.usesAt 15))%positive ->
                  deref (arena s') e = deref (arena (Samples.usesAt 15)) e)
    /\ function s' = function (Samples.usesAt 15)).
Proof.
  split; [by vm_compute|].
  split; [by vm_compute|].
  split; [by vm_compute|].
  split; [by vm_compute|].
  split; [by vm_compute|].
  split; [by vm_compute|].
  split; [by vm_compute|].
  apply (visitStructGet_reads_the_local Samples.noUnpack Samples.usesSelf
           (Samples.usesAt 15) 15%positive 14%positive 0 1 false
           {| ftype := Ti32; fpacked := false; fmutable := true |}).
  - by vm_compute.
  - by vm_compute.
  - by vm_compute.
  - by vm_compute.
  - by vm_compute.
  - by vm_compute.
  - by vm_compute.
Defined.

Lemma in_bounds_array_access_becomes_struct_access_witness :
  (getInteraction (analyzer (Samples.arrayUsesAt 4)) 4%positive <>
      ParentChildInteraction.None)
  /\
  (asConst (arena (Samples.arrayUsesAt 4)) 3%positive = Some (LitI32 3))
  /\
  (getUnsigned (LitI32 3) = Some 3)
  /\
  (wrap32 3 < Array2Struct.numFields Samples.arraySelf)
  /\
  (current (Samples.arrayUsesAt 4) = 4%positive)
  /\
  ((forall signed,
       kindOf (arena (Samples.arrayUsesAt 4)) 4%positive = ArrayGet 2%positive
           3%positive signed ->
       exists s',
         Array2Struct.visitArrayGet Samples.arraySelf 4%positive
             (Samples.arrayUsesAt 4) = Some (tt, s')
         /\ current s' = nextExpr (Samples.arrayUsesAt 4)
         /\ deref (arena s') (current s')
            = {| kind := StructGet (wrap32 3) 2%positive signed;
                 type := if decide (typeOf (arena (Samples.arrayUsesAt 4))
                     2%positive = Tunreachable)
                         then Tunreachable else typeOf (arena
                             (Samples.arrayUsesAt 4)) 4%positive |}
         /\ refinalize s' = refinalize (Samples.arrayUsesAt 4)
         /\ function s' = function (Samples.arrayUsesAt 4)
         /\ (forall e, (e < nextExpr (Samples.arrayUsesAt 4))%positive ->
                       deref (arena s') e = deref (arena (Samples.arrayUsesAt
                           4)) e))
    /\ (forall value,
          kindOf (arena (Samples.arrayUsesAt 4)) 4%positive = ArraySet
              2%positive 3%positive value ->
          exists s',
            Array2Struct.visitArraySet Samples.arraySelf 4%positive
                (Samples.arrayUsesAt 4) = Some (tt, s')
            /\ current s' = nextExpr (Samples.arrayUsesAt 4)
            /\ deref (arena s') (current s')
               = {| kind := StructSet (wrap32 3) 2%positive value;
                    type := if decide (typeOf (arena (Samples.arrayUsesAt 4))
                        2%positive = Tunreachable
                                       \/ typeOf (arena (Samples.arrayUsesAt
                                           4)) value = Tunreachable)
                            then Tunreachable else Tnone |}
            /\ refinalize s' = refinalize (Samples.arrayUsesAt 4)
            /\ function s' = function (Samples.arrayUsesAt 4)
            /\ (forall e, (e < nextExpr (Samples.arrayUsesAt 4))%positive ->
                          deref (arena s') e = deref (arena
                              (Samples.arrayUsesAt 4)) e))).
Proof.
  split; [by vm_compute|].
  split; [by vm_compute|].
  split; [by vm_compute|].
  split; [by vm_compute|].
  split; [by vm_compute|].
  apply (in_bounds_array_access_becomes_struct_access Samples.arraySelf
           (Samples.arrayUsesAt 4) 4%positive 2%positive 3%positive (LitI32 3)
               3).
  - by vm_compute.
  - by vm_compute.
  - by vm_compute.
  - by vm_compute.
  - by vm_compute.
Defined.

Lemma array_visitRefTest_uses_original_type_witness :
  (getInteraction (analyzer (Samples.arrayUsesAt 7)) 7%positive <>
      ParentChildInteraction.None)
  /\
  (kindOf (arena (Samples.arrayUsesAt 7)) 7%positive = RefTest 2%positive
      (Tref 2 NonNullable))
  /\
  (current (Samples.arrayUsesAt 7) = 7%positive)
  /\
  (exists s' drop const,
    Array2Struct.visitRefTest Samples.arraySelf 7%positive
        (Samples.arrayUsesAt 7) = Some (tt, s')
    /\ kindOf (arena s') (current s') = Block "" [drop; const]
    /\ typeOf (arena s') (current s') = Ti32
    /\ kindOf (arena s') drop = Drop 7%positive
    /\ kindOf (arena s') const
       = Const (LitI32
                  (if isSubType (Array2Struct.originalType Samples.arraySelf)
                      (Tref 2 NonNullable)
                   then 1 else 0))
    /\ (forall e, (e < nextExpr (Samples.arrayUsesAt 7))%positive ->
                  deref (arena s') e = deref (arena (Samples.arrayUsesAt 7))
                      e)
    /\ getInteraction (analyzer s') (current s')
       = getInteraction (analyzer (Samples.arrayUsesAt 7)) 7%positive
    /\ function s' = function (Samples.arrayUsesAt 7)
    /\ refinalize s' = refinalize (Samples.arrayUsesAt 7)).
Proof.
  split; [by vm_compute|].
  split; [by vm_compute|].
  split; [by vm_compute|].
  apply (array_visitRefTest_uses_original_type (H := Samples.noTables)
      Samples.arraySelf
           (Samples.arrayUsesAt 7) 7%positive 2%positive (Tref 2
               NonNullable)).
  - by vm_compute.
  - by vm_compute.
  - by vm_compute.
Defined.

Lemma array_visitRefCast_retypes_or_traps_witness :
  (getInteraction (analyzer (Samples.arrayUsesAt 8)) 8%positive <>
      ParentChildInteraction.None)
  /\
  (kindOf (arena (Samples.arrayUsesAt 8)) 8%positive = RefCast 2%positive
      None)
  /\
  (current (Samples.arrayUsesAt 8) = 8%positive)
  /\
  (exists s',
    Array2Struct.visitRefCast Samples.arraySelf 5%positive 8%positive
        (Samples.arrayUsesAt 8) = Some (tt, s')
    /\ refinalize s' = true
    /\ (if isSubType (Array2Struct.originalType Samples.arraySelf) (typeOf
        (arena (Samples.arrayUsesAt 8)) 8%positive)
        then current s' = 8%positive
             /\ deref (arena s') 8%positive
                = {| kind := RefCast 2%positive None;
                     type := Tref 5%positive NonNullable |}
             /\ nextExpr s' = nextExpr (Samples.arrayUsesAt 8)
        else exists drop trap,
               kindOf (arena s') (current s') = Block "" [drop; trap]
               /\ typeOf (arena s') (current s') = Tunreachable
               /\ kindOf (arena s') drop = Drop 8%positive
               /\ kindOf (arena s') trap = Unreachable
               /\ ((8%positive < nextExpr (Samples.arrayUsesAt 8))%positive ->
                   deref (arena s') 8%positive = deref (arena
                       (Samples.arrayUsesAt 8)) 8%positive))
    /\ analyzer s' = analyzer (Samples.arrayUsesAt 8)
    /\ (forall e, (e < nextExpr (Samples.arrayUsesAt 8))%positive -> e <>
        8%positive ->
                  deref (arena s') e = deref (arena (Samples.arrayUsesAt 8))
                      e)
    /\ function s' = function (Samples.arrayUsesAt 8)).
Proof.
  split; [by vm_compute|].
  split; [by vm_compute|].
  split; [by vm_compute|].
  apply (array_visitRefCast_retypes_or_traps (H := Samples.noTables)
      Samples.arraySelf
           5%positive (Samples.arrayUsesAt 8) 8%positive 2%positive None).
  - by vm_compute.
  - by vm_compute.
  - by vm_compute.
Defined.

Lemma adjustTypeFlowingThrough_makes_nullable_witness :
  (getInteraction (analyzer (Samples.usesAt 19)) 19%positive =
      ParentChildInteraction.Flows)
  /\
  (match typeOf (arena (Samples.usesAt 19)) 19%positive with
    | Tref ht nl =>
        exists s',
          Struct2Local.visitBlock 19%positive (Samples.usesAt 19) = Some (tt,
              s')
          /\ Struct2Local.visitLoop 19%positive (Samples.usesAt 19) = Some
              (tt, s')
          /\ deref (arena s') 19%positive
             = {| kind := kindOf (arena (Samples.usesAt 19)) 19%positive; type
                 := Tref ht Nullable |}
          /\ (forall e, e <> 19%positive -> deref (arena s') e = deref (arena
              (Samples.usesAt 19)) e)
          /\ nextExpr s' = nextExpr (Samples.usesAt 19)
          /\ current s' = current (Samples.usesAt 19)
          /\ analyzer s' = analyzer (Samples.usesAt 19)
          /\ function s' = function (Samples.usesAt 19)
          /\ refinalize s' = refinalize (Samples.usesAt 19)
          /\ Struct2Local.visitBlock 19%positive s' = Some (tt, s')
    | _ =>
        Struct2Local.visitBlock 19%positive (Samples.usesAt 19) = None
        /\ Struct2Local.visitLoop 19%positive (Samples.usesAt 19) = None
    end).
Proof.
  split; [by vm_compute|].
  apply (adjustTypeFlowingThrough_makes_nullable (Samples.usesAt 19)
      19%positive).
  - by vm_compute.
Defined.

Lemma create_adds_one_local_per_field_witness :
  (typeOf (arena Samples.descRewrite) 3%positive = Tref 1%positive
      NonNullable)
  /\
  (heapDef 1%positive = HStruct [{| ftype := Ti32; fpacked := false; fmutable
      := true |}])
  /\
  (kindOf (arena Samples.descRewrite) 3%positive = StructNew [2%positive]
      (Some 1%positive))
  /\
  (Forall (fun field => isConcrete (ftype field) = true) [{| ftype := Ti32;
      fpacked := false; fmutable := true |}])
  /\
  ((forall d, (Some 1%positive) = Some d -> isConcrete (typeOf (arena
      Samples.descRewrite) d) = true))
  /\
  (exists self s1,
    Struct2Local.create Samples.descWalk (ret tt) 3%positive
        Samples.descRewrite
    = bind (Samples.descWalk self)
        (fun _ =>
           bind (gets refinalize)
             (fun flag =>
                bind (if flag then (ret tt) else ret tt)
                  (fun _ => ret self))) s1
    /\ Struct2Local.allocation self = 3%positive
    /\ Struct2Local.fields self = [{| ftype := Ti32; fpacked := false;
        fmutable := true |}]
    /\ Struct2Local.localIndexes self
       = Z.of_nat
           <$> seq (length (params (function Samples.descRewrite)) + length
               (vars (function Samples.descRewrite)))
                   (length [{| ftype := Ti32; fpacked := false; fmutable :=
                       true |}] + (match (Some 1%positive) with Some _ => 1 |
                       None => 0 end))
    /\ vars (function s1)
       = vars (function Samples.descRewrite) ++ (ftype <$> [{| ftype := Ti32;
           fpacked := false; fmutable := true |}])
         ++ (match (Some 1%positive) with
             | Some d => [typeOf (arena Samples.descRewrite) d]
             | None => []
             end)
    /\ params (function s1) = params (function Samples.descRewrite)
    /\ arena s1 = arena Samples.descRewrite
    /\ nextExpr s1 = nextExpr Samples.descRewrite
    /\ analyzer s1 = analyzer Samples.descRewrite
    /\ current s1 = current Samples.descRewrite
    /\ refinalize s1 = false).
Proof.
  split; [by vm_compute|].
  split; [by vm_compute|].
  split; [by vm_compute|].
  split; [by repeat constructor|].
  split; [by intros d [= <-]|].
  apply (create_adds_one_local_per_field (H := Samples.noTables)
           Samples.descWalk (ret tt) Samples.descRewrite
           3%positive 1%positive NonNullable
           [{| ftype := Ti32; fpacked := false; fmutable := true |}]
           [2%positive] (Some 1%positive)).
  - by vm_compute.
  - by vm_compute.
  - by vm_compute.
  - by repeat constructor.
  - by intros d [= <-].
Defined.

End RewriterMoreWitnesses.
